(** * A sparse voxel world: chunk store, face-culled meshing, ray picking

    Shallow embedding of the [VoxelWorld] class of [src/main.js] (the chunked,
    textured world) and of the single-cell variant shipped next to it
    ([src/unnamed/part_000], module [SingleCell] below).

    Numbers.  JavaScript numbers are IEEE-754 doubles.
    - Voxel coordinates, voxel types, cell sizes, offsets and vertex
      positions are integer-valued; they are modelled by [Z].  Double
      arithmetic on integers is exact as long as operands and results stay
      below 2^53 in absolute value ([JS.safeInteger]); from there on it
      rounds, and the integer model no longer follows the code.  The results
      that depend on coordinate arithmetic state this range (with the margin
      the function needs: a cell with the voxels around it, a voxel with its
      neighbors, the indices a ray can reach).  [Math.floor (x / c)] on a
      safe integer is floor division, [Z.div], for a cell size [c > 0].
    - [%] is the truncated remainder [Z.rem]; [| 0] is the 32-bit wrap
      [toInt32]; a store into a [Uint8Array] wraps modulo 256 ([toUint8]).
    - [new Uint8Array (n)] throws beyond the length an engine can
      allocate; the model describes the allocation that succeeds, and the
      results about writes that create a cell state that the cell can be
      allocated ([allocatableWorld]).
    - Ray casting works on genuine doubles: [PrimFloat.float] has the same
      binary64 operations (round to nearest even, infinities, NaN).  The
      voxel indices [ix], [iy], [iz] of the ray are integers again; the
      results about a ray state a finite start point at safe integers.
    - The stepping loop of the ray is written once, over the arithmetic it
      uses ([RayNum]); the code runs it on doubles.
    - The [cells] object is a finite map from the key string
      ["cx,cy,cz"] to the chunk's byte array.

    State.  Methods that assign take the world and return the new one;
    methods that only read are functions of the world.  A cell array is
    reached through [cells] only: an assignment to an element of the array
    is an update in place of the entry of [cells].

    Layout: the embedding of the code comes first, then the notions used to
    state its properties, then the properties. *)

From Stdlib Require Import ZArith Ascii Uint63 PrimFloat FloatOps FloatAxioms.
From Stdlib Require Import QArith Lia.
From stdpp Require Import base gmap strings list pretty numbers.

Open Scope Z_scope.

(** ** JavaScript primitives used by the class *)

Module JS.

(** [ToUint8]: what a [Uint8Array] keeps of an integer. *)
Definition toUint8 (v : Z) : Z := v `mod` 256.

(** [v | 0]: [ToInt32] of an integer. *)
Definition toInt32 (v : Z) : Z := (v + 2 ^ 31) `mod` 2 ^ 32 - 2 ^ 31.

(** [THREE.MathUtils.euclideanModulo (n, m)] is [((n % m) + m) % m]. *)
Definition euclideanModulo (n m : Z) : Z := Z.rem (Z.rem n m + m) m.

(** [Number.isSafeInteger]: the integers of magnitude below 2^53.  The
    class computes with doubles.  On integers a sum, a difference or a product
    is exact in double arithmetic when the operands and the result are safe
    integers, and so is [Math.floor (x / c)] for a safe integer [x] and a
    positive integer [c]; from 2^53 on doubles round ([2^53 + 1] is [2^53]).
    The integer operations of this model stand for the double operations of
    the code on safe integers, and the results about coordinates state that
    range. *)
Definition safeInteger (x : Z) : Prop := - 2 ^ 53 < x < 2 ^ 53.

#[export] Instance safeInteger_dec x : Decision (safeInteger x).
Proof. unfold safeInteger. apply _. Defined.

(** [Math.floor (x / c)] on integers: the floor of the quotient, for a safe
    integer [x] and a positive [c] (a quotient by 0 is [Infinity] or [NaN] in
    the code; no world of the page has cell size 0). *)
Definition floorDiv (x c : Z) : Z := x / c.

(** Truthiness of a number: [if (v)] runs for every [v] but 0. *)
Definition truthy (v : Z) : bool := negb (v =? 0).

(** A typed array read [a[i]].  An index outside the array reads
    [undefined]; offsets computed by the class never leave the array (see
    [computeVoxelOffset_range]), and the model reads 0 there. *)
Definition typedGet (a : list Z) (i : Z) : Z :=
  if decide (0 <= i) then default 0 (a !! Z.to_nat i) else 0.

(** A typed array write [a[i] = v]: the value is wrapped to a byte, and a
    write outside the array is ignored. *)
Definition typedSet (a : list Z) (i v : Z) : list Z :=
  if decide (0 <= i) then <[Z.to_nat i := toUint8 v]> a else a.

(** [new Uint8Array (n)]: [n] zero bytes, when the engine allocates them.
    The constructor throws a [RangeError] for a length beyond the engine's
    limit; the limit differs between engines, and [maxTypedArrayLength] is
    one that the engines in use grant (2^30 - 1 elements; a cell of the
    page, of size 32, has 32768).  The results about writes that allocate a
    cell state [allocatable] for the cell. *)
Definition newUint8Array (n : Z) : list Z := replicate (Z.to_nat n) 0.

Definition maxTypedArrayLength : Z := 2 ^ 30 - 1.

Definition allocatable (n : Z) : Prop := 0 <= n <= maxTypedArrayLength.

#[export] Instance allocatable_dec n : Decision (allocatable n).
Proof. unfold allocatable. apply _. Defined.

(** Number to string, as a template literal prints a safe integer: its
    decimal digits.  (From 2^53 on the code prints the shortest digits that
    read back as the double, and the exponent form from 1e21 on.) *)
Definition numberToString (n : Z) : string := pretty n.

(** An integer as a double: exact for a safe integer, the range in which
    the ray code uses it (the conversion goes through 63-bit integers and is
    not meant for more). *)
Definition ofZ (n : Z) : float :=
  match n with
  | Z0 => 0%float
  | Zpos _ => PrimFloat.of_uint63 (Uint63.of_Z n)
  | Zneg _ => (- PrimFloat.of_uint63 (Uint63.of_Z (- n)))%float
  end.

(** [Math.floor] of a finite double, as an integer: a finite double is
    [±m * 2^e].  ([Math.floor] leaves NaN and the infinities as they are;
    they are no grid coordinates and the model gives 0 for them.) *)
Definition floor (f : float) : Z :=
  match Prim2SF f with
  | SpecFloat.S754_finite s m e =>
      let v := if s then Z.neg m else Z.pos m in
      if 0 <=? e then v * 2 ^ e else v / 2 ^ (- e)
  | _ => 0
  end.

End JS.

(** ** The chunked world of [src/main.js] *)

Record VoxelWorld := mkVoxelWorld {
  cellSize : Z;
  tileSize : float;
  tileTextureWidth : float;
  tileTextureHeight : float;
  cells : gmap string (list Z)
}.

(** [this.cellSliceSize], fixed by the constructor. *)
Definition cellSliceSize (w : VoxelWorld) : Z := cellSize w * cellSize w.

(** [new VoxelWorld ({cellSize, tileSize, tileTextureWidth, tileTextureHeight})] *)
Definition newVoxelWorld (c : Z) (ts tw th : float) : VoxelWorld :=
  mkVoxelWorld c ts tw th ∅.

(** The world with its [cells] object replaced. *)
Definition withCells (w : VoxelWorld) (m : gmap string (list Z)) : VoxelWorld :=
  mkVoxelWorld (cellSize w) (tileSize w) (tileTextureWidth w)
    (tileTextureHeight w) m.

Definition computeVoxelOffset (w : VoxelWorld) (x y z : Z) : Z :=
  let voxelX := JS.toInt32 (JS.euclideanModulo x (cellSize w)) in
  let voxelY := JS.toInt32 (JS.euclideanModulo y (cellSize w)) in
  let voxelZ := JS.toInt32 (JS.euclideanModulo z (cellSize w)) in
  voxelY * cellSliceSize w + voxelZ * cellSize w + voxelX.

Definition computeCellID (w : VoxelWorld) (x y z : Z) : string :=
  let cellX := JS.floorDiv x (cellSize w) in
  let cellY := JS.floorDiv y (cellSize w) in
  let cellZ := JS.floorDiv z (cellSize w) in
  JS.numberToString cellX +:+ "," +:+ JS.numberToString cellY +:+ ","
    +:+ JS.numberToString cellZ.

(** Returns the cell and the world, in which the cell now exists. *)
Definition addCellForVoxel (w : VoxelWorld) (x y z : Z)
  : list Z * VoxelWorld :=
  let cellID := computeCellID w x y z in
  match cells w !! cellID with
  | Some cell => (cell, w)
  | None =>
      let cell := JS.newUint8Array (cellSize w * cellSize w * cellSize w) in
      (cell, withCells w (<[cellID := cell]> (cells w)))
  end.

(** [None] is [undefined]: no such cell. *)
Definition getCellForVoxel (w : VoxelWorld) (x y z : Z) : option (list Z) :=
  cells w !! computeCellID w x y z.

(** [cell[voxelOffset] = v].  The variable [cell] refers to the array that
    [cells] holds under the key of the voxel: the lookup or [addCellForVoxel]
    has just returned it.  The assignment changes that array in place and
    assigns nothing to [cells], so the model updates the entry that [cells]
    has under the key; an array that [cells] does not hold is out of reach of
    every later read, and a write to it would leave the store as it was. *)
Definition writeVoxel (w : VoxelWorld) (x y z v : Z) : VoxelWorld :=
  let voxelOffset := computeVoxelOffset w x y z in
  withCells w
    (alter (fun cell => JS.typedSet cell voxelOffset v) (computeCellID w x y z)
       (cells w)).

Definition setVoxel (w : VoxelWorld) (x y z v : Z) (addCell : bool)
  : VoxelWorld :=
  match getCellForVoxel w x y z with
  | Some _ => writeVoxel w x y z v
  | None =>
      if negb addCell then w
      else
        let '(_, w1) := addCellForVoxel w x y z in
        writeVoxel w1 x y z v
  end.

Definition getVoxel (w : VoxelWorld) (x y z : Z) : Z :=
  match getCellForVoxel w x y z with
  | None => 0
  | Some cell => JS.typedGet cell (computeVoxelOffset w x y z)
  end.

(** ** Face table *)

Record Corner := mkCorner { pos : Z * Z * Z; uv : Z * Z }.

Record Face := mkFace { uvRow : Z; dir : Z * Z * Z; corners : list Corner }.

#[export] Instance Corner_eq_dec : EqDecision Corner.
Proof. solve_decision. Defined.

#[export] Instance Face_eq_dec : EqDecision Face.
Proof. solve_decision. Defined.

Definition faces : list Face :=
  [ (* left *)
    mkFace 0 (-1, 0, 0)
      [ mkCorner (0, 1, 0) (0, 1); mkCorner (0, 0, 0) (0, 0);
        mkCorner (0, 1, 1) (1, 1); mkCorner (0, 0, 1) (1, 0) ];
    (* right *)
    mkFace 0 (1, 0, 0)
      [ mkCorner (1, 1, 1) (0, 1); mkCorner (1, 0, 1) (0, 0);
        mkCorner (1, 1, 0) (1, 1); mkCorner (1, 0, 0) (1, 0) ];
    (* bottom *)
    mkFace 1 (0, -1, 0)
      [ mkCorner (1, 0, 1) (1, 0); mkCorner (0, 0, 1) (0, 0);
        mkCorner (1, 0, 0) (1, 1); mkCorner (0, 0, 0) (0, 1) ];
    (* top *)
    mkFace 2 (0, 1, 0)
      [ mkCorner (0, 1, 1) (1, 1); mkCorner (1, 1, 1) (0, 1);
        mkCorner (0, 1, 0) (1, 0); mkCorner (1, 1, 0) (0, 0) ];
    (* back *)
    mkFace 0 (0, 0, -1)
      [ mkCorner (1, 0, 0) (0, 0); mkCorner (0, 0, 0) (1, 0);
        mkCorner (1, 1, 0) (0, 1); mkCorner (0, 1, 0) (1, 1) ];
    (* front *)
    mkFace 0 (0, 0, 1)
      [ mkCorner (0, 0, 1) (0, 0); mkCorner (1, 0, 1) (1, 0);
        mkCorner (0, 1, 1) (0, 1); mkCorner (1, 1, 1) (1, 1) ] ].

(** ** Mesh extraction *)

(** The four output arrays; [push] appends at the end. *)
Record Geometry := mkGeometry {
  positions : list Z;
  normals : list Z;
  uvs : list float;
  indices : list Z
}.

Definition emptyGeometry : Geometry := mkGeometry [] [] [] [].

(** Body of [for (const {pos, uv} of corners)]. *)
Definition pushCorner (w : VoxelWorld) (f : Face) (uvVoxel x y z : Z)
    (g : Geometry) (c : Corner) : Geometry :=
  let '(p0, p1, p2) := pos c in
  let '(d0, d1, d2) := dir f in
  let '(uv0, uv1) := uv c in
  mkGeometry
    (positions g ++ [p0 + x; p1 + y; p2 + z])
    (normals g ++ [d0; d1; d2])
    (uvs g ++
       [ (JS.ofZ (uvVoxel + uv0) * tileSize w / tileTextureWidth w)%float;
         (1 - JS.ofZ (uvRow f + 1 - uv1) * tileSize w / tileTextureHeight w)%float ])
    (indices g).

(** The branch taken when the neighbor is empty: four corners, then the
    two triangles. *)
Definition emitFace (w : VoxelWorld) (uvVoxel x y z : Z) (g : Geometry)
    (f : Face) : Geometry :=
  let ndx := Z.of_nat (length (positions g)) / 3 in
  let g1 := foldl (pushCorner w f uvVoxel x y z) g (corners f) in
  mkGeometry (positions g1) (normals g1) (uvs g1)
    (indices g1 ++ [ndx; ndx + 1; ndx + 2; ndx + 2; ndx + 1; ndx + 3]).

(** Body of [for (const {dir, corners, uvRow} of VoxelWorld.faces)].  The
    sums [voxelX + dir[0]], and [startX + x] and [cellX * cellSize] below, are
    computed in doubles: they are the integer results for a cell whose
    coordinates, from one voxel below it to one voxel above it, are safe
    integers. *)
Definition visitFace (w : VoxelWorld) (voxelX voxelY voxelZ uvVoxel x y z : Z)
    (g : Geometry) (f : Face) : Geometry :=
  let '(d0, d1, d2) := dir f in
  let neighbor := getVoxel w (voxelX + d0) (voxelY + d1) (voxelZ + d2) in
  if JS.truthy neighbor then g else emitFace w uvVoxel x y z g f.

(** Body of the innermost [for (let x ...)] loop. *)
Definition visitVoxel (w : VoxelWorld) (startX voxelY voxelZ y z : Z)
    (g : Geometry) (x : Z) : Geometry :=
  let voxelX := startX + x in
  let voxel := getVoxel w voxelX voxelY voxelZ in
  if JS.truthy voxel then
    let uvVoxel := voxel - 1 in
    foldl (visitFace w voxelX voxelY voxelZ uvVoxel x y z) g faces
  else g.

(** [for (let i = 0; i < n; ++i)]: the values [i] takes. *)
Definition upTo (n : Z) : list Z := seqZ 0 n.

Definition generateGeometryDataForCell (w : VoxelWorld) (cellX cellY cellZ : Z)
  : Geometry :=
  let startX := cellX * cellSize w in
  let startY := cellY * cellSize w in
  let startZ := cellZ * cellSize w in
  foldl (fun g y =>
    let voxelY := startY + y in
    foldl (fun g z =>
      let voxelZ := startZ + z in
      foldl (visitVoxel w startX voxelY voxelZ y z) g (upTo (cellSize w)))
      g (upTo (cellSize w)))
    emptyGeometry (upTo (cellSize w)).

(** ** Ray / grid intersection *)

(** The arithmetic the stepping loop needs from its numbers: [+], [<], [<=].
    The code runs it on doubles ([float_RayNum]); the same loop run on exact
    rationals with an infinity ([exact_RayNum]) is what the loop would do were
    no result ever rounded. *)
Class RayNum (R : Type) := {
  rn_add : R → R → R;
  rn_lt : R → R → bool;
  rn_le : R → R → bool
}.

#[export] Instance float_RayNum : RayNum float :=
  {| rn_add := PrimFloat.add; rn_lt := PrimFloat.ltb; rn_le := PrimFloat.leb |}.

(** A rational or [Infinity] ([None]). *)
Definition exact_add (a b : option Q) : option Q :=
  match a, b with
  | Some p, Some q => Some (p + q)%Q
  | _, _ => None
  end.

Definition exact_lt (a b : option Q) : bool :=
  match a, b with
  | Some p, Some q => negb (Qle_bool q p)
  | Some _, None => true
  | None, _ => false
  end.

Definition exact_le (a b : option Q) : bool :=
  match a, b with
  | Some p, Some q => Qle_bool p q
  | _, None => true
  | None, Some _ => false
  end.

#[export] Instance exact_RayNum : RayNum (option Q) :=
  {| rn_add := exact_add; rn_lt := exact_lt; rn_le := exact_le |}.

(** The variables the loop updates. *)
Record RayState (R : Type) := mkRayState {
  rt : R;
  ix : Z; iy : Z; iz : Z;
  txMax : R; tyMax : R; tzMax : R;
  steppedIndex : Z
}.
Arguments mkRayState {R}.
Arguments rt {R}.
Arguments ix {R}.
Arguments iy {R}.
Arguments iz {R}.
Arguments txMax {R}.
Arguments tyMax {R}.
Arguments tzMax {R}.
Arguments steppedIndex {R}.

(** The constants the loop reads. *)
Record RayParams (R : Type) := mkRayParams {
  len : R;
  stepX : Z; stepY : Z; stepZ : Z;
  txDelta : R; tyDelta : R; tzDelta : R
}.
Arguments mkRayParams {R}.
Arguments len {R}.
Arguments stepX {R}.
Arguments stepY {R}.
Arguments stepZ {R}.
Arguments txDelta {R}.
Arguments tyDelta {R}.
Arguments tzDelta {R}.

(** The axis the loop advances along. *)
Inductive Axis := AxisX | AxisY | AxisZ.

Section RayLoop.
Context {R : Type} `{RayNum R}.

(** The nested comparison of the loop body. *)
Definition chooseAxis (s : RayState R) : Axis :=
  if rn_lt (txMax s) (tyMax s) then
    if rn_lt (txMax s) (tzMax s) then AxisX else AxisZ
  else
    if rn_lt (tyMax s) (tzMax s) then AxisY else AxisZ.

(** The four assignments of the branch taken.  [ix += stepX] is a sum of
    doubles: it is the integer sum while index and result are safe
    integers (at 2^53 the index of the code stops moving). *)
Definition stepAxis (p : RayParams R) (s : RayState R) (a : Axis)
  : RayState R :=
  match a with
  | AxisX =>
      mkRayState (txMax s) (ix s + stepX p) (iy s) (iz s)
        (rn_add (txMax s) (txDelta p)) (tyMax s) (tzMax s) 0
  | AxisY =>
      mkRayState (tyMax s) (ix s) (iy s + stepY p) (iz s)
        (txMax s) (rn_add (tyMax s) (tyDelta p)) (tzMax s) 1
  | AxisZ =>
      mkRayState (tzMax s) (ix s) (iy s) (iz s + stepZ p)
        (txMax s) (tyMax s) (rn_add (tzMax s) (tzDelta p)) 2
  end.

(** "advance t to next nearest voxel boundary" *)
Definition advanceRay (p : RayParams R) (s : RayState R) : RayState R :=
  stepAxis p s (chooseAxis s).

(** [while (t <= len) { ... }] followed by [return null].  [lookup] is
    [this.getVoxel]; [hit] builds the record returned on a hit.  Each
    evaluation of the loop test uses one unit of [fuel]; the outer [None]
    says that the fuel ran out before the loop was left, [Some None] is
    [null]. *)
Fixpoint rayLoop {T : Type} (fuel : nat) (lookup : Z → Z → Z → Z)
    (hit : RayState R → Z → T) (p : RayParams R) (s : RayState R)
  : option (option T) :=
  match fuel with
  | O => None
  | S fuel' =>
      if rn_le (rt s) (len p) then
        let voxel := lookup (ix s) (iy s) (iz s) in
        if JS.truthy voxel then Some (Some (hit s voxel))
        else rayLoop fuel' lookup hit p (advanceRay p s)
      else Some None
  end.

End RayLoop.

Record Vector3 := mkVector3 { vx : float; vy : float; vz : float }.

Record Intersection := mkIntersection {
  position : float * float * float;
  normal : Z * Z * Z;
  voxel : Z
}.

(** The object returned on a hit. *)
Definition hitRecord (start : Vector3) (dx dy dz : float) (p : RayParams float)
    (s : RayState float) (voxel : Z) : Intersection :=
  mkIntersection
    ((vx start + rt s * dx)%float, (vy start + rt s * dy)%float,
     (vz start + rt s * dz)%float)
    (if steppedIndex s =? 0 then - stepX p else 0,
     if steppedIndex s =? 1 then - stepY p else 0,
     if steppedIndex s =? 2 then - stepZ p else 0)
    voxel.

(** Everything before the loop: direction, steps, deltas, first crossings. *)
Definition raySetup (start end_ : Vector3)
  : float * float * float * RayParams float * RayState float :=
  let dx := (vx end_ - vx start)%float in
  let dy := (vy end_ - vy start)%float in
  let dz := (vz end_ - vz start)%float in
  let lenSq := (dx * dx + dy * dy + dz * dz)%float in
  let len := PrimFloat.sqrt lenSq in
  let dx := (dx / len)%float in
  let dy := (dy / len)%float in
  let dz := (dz / len)%float in
  let t := 0%float in
  let ix := JS.floor (vx start) in
  let iy := JS.floor (vy start) in
  let iz := JS.floor (vz start) in
  let stepX := if (0 <? dx)%float then 1 else -1 in
  let stepY := if (0 <? dy)%float then 1 else -1 in
  let stepZ := if (0 <? dz)%float then 1 else -1 in
  let txDelta := PrimFloat.abs (1 / dx) in
  let tyDelta := PrimFloat.abs (1 / dy) in
  let tzDelta := PrimFloat.abs (1 / dz) in
  let xDist := if 0 <? stepX then (JS.ofZ (ix + 1) - vx start)%float
               else (vx start - JS.ofZ ix)%float in
  let yDist := if 0 <? stepY then (JS.ofZ (iy + 1) - vy start)%float
               else (vy start - JS.ofZ iy)%float in
  let zDist := if 0 <? stepZ then (JS.ofZ (iz + 1) - vz start)%float
               else (vz start - JS.ofZ iz)%float in
  let txMax := if (txDelta <? infinity)%float then (txDelta * xDist)%float
               else infinity in
  let tyMax := if (tyDelta <? infinity)%float then (tyDelta * yDist)%float
               else infinity in
  let tzMax := if (tzDelta <? infinity)%float then (tzDelta * zDist)%float
               else infinity in
  let steppedIndex := -1 in
  (dx, dy, dz,
   mkRayParams len stepX stepY stepZ txDelta tyDelta tzDelta,
   mkRayState t ix iy iz txMax tyMax tzMax steppedIndex).

Definition intersectRay (fuel : nat) (w : VoxelWorld) (start end_ : Vector3)
  : option (option Intersection) :=
  let '(dx, dy, dz, p, s) := raySetup start end_ in
  rayLoop fuel (getVoxel w) (hitRecord start dx dy dz p) p s.

(** ** The single-cell world of [src/unnamed/part_000]

    One fixed cell, allocated by the constructor; no texture coordinates. *)

Module SingleCell.

Record VoxelWorld := mkVoxelWorld {
  cellSize : Z;
  cell : list Z
}.

Definition cellSliceSize (w : VoxelWorld) : Z := cellSize w * cellSize w.

(** [new VoxelWorld (cellSize)] *)
Definition newVoxelWorld (c : Z) : VoxelWorld :=
  mkVoxelWorld c (JS.newUint8Array (c * c * c)).

(** [None] is the [null] returned outside cell (0,0,0). *)
Definition getCellForVoxel (w : VoxelWorld) (x y z : Z) : option (list Z) :=
  let cellX := JS.floorDiv x (cellSize w) in
  let cellY := JS.floorDiv y (cellSize w) in
  let cellZ := JS.floorDiv z (cellSize w) in
  if negb (cellX =? 0) || negb (cellY =? 0) || negb (cellZ =? 0)
  then None
  else Some (cell w).

Definition computeVoxelOffset (w : VoxelWorld) (x y z : Z) : Z :=
  let voxelX := JS.toInt32 (JS.euclideanModulo x (cellSize w)) in
  let voxelY := JS.toInt32 (JS.euclideanModulo y (cellSize w)) in
  let voxelZ := JS.toInt32 (JS.euclideanModulo z (cellSize w)) in
  voxelY * cellSliceSize w + voxelZ * cellSize w + voxelX.

(** The write goes through the reference to [this.cell]. *)
Definition setVoxel (w : VoxelWorld) (x y z v : Z) : VoxelWorld :=
  match getCellForVoxel w x y z with
  | None => w
  | Some cell =>
      let voxelOffset := computeVoxelOffset w x y z in
      mkVoxelWorld (cellSize w) (JS.typedSet cell voxelOffset v)
  end.

Definition getVoxel (w : VoxelWorld) (x y z : Z) : Z :=
  match getCellForVoxel w x y z with
  | None => 0
  | Some cell => JS.typedGet cell (computeVoxelOffset w x y z)
  end.

Record Face := mkFace { dir : Z * Z * Z; vertices : list (Z * Z * Z) }.

Definition faces : list Face :=
  [ (* left *)
    mkFace (-1, 0, 0) [ (0, 1, 0); (0, 0, 0); (0, 1, 1); (0, 0, 1) ];
    (* right *)
    mkFace (1, 0, 0) [ (1, 1, 1); (1, 0, 1); (1, 1, 0); (1, 0, 0) ];
    (* bottom *)
    mkFace (0, -1, 0) [ (1, 0, 1); (0, 0, 1); (1, 0, 0); (0, 0, 0) ];
    (* top *)
    mkFace (0, 1, 0) [ (0, 1, 1); (1, 1, 1); (0, 1, 0); (1, 1, 0) ];
    (* back *)
    mkFace (0, 0, -1) [ (1, 0, 0); (0, 0, 0); (1, 1, 0); (0, 1, 0) ];
    (* front *)
    mkFace (0, 0, 1) [ (0, 0, 1); (1, 0, 1); (0, 1, 1); (1, 1, 1) ] ].

Record Geometry := mkGeometry {
  positions : list Z;
  normals : list Z;
  indices : list Z
}.

Definition emptyGeometry : Geometry := mkGeometry [] [] [].

(** Body of [for (const pos of vertices)]. *)
Definition pushVertex (f : Face) (x y z : Z) (g : Geometry)
    (pos : Z * Z * Z) : Geometry :=
  let '(p0, p1, p2) := pos in
  let '(d0, d1, d2) := dir f in
  mkGeometry (positions g ++ [p0 + x; p1 + y; p2 + z])
    (normals g ++ [d0; d1; d2]) (indices g).

Definition emitFace (x y z : Z) (g : Geometry) (f : Face) : Geometry :=
  let ndx := Z.of_nat (length (positions g)) / 3 in
  let g1 := foldl (pushVertex f x y z) g (vertices f) in
  mkGeometry (positions g1) (normals g1)
    (indices g1 ++ [ndx; ndx + 1; ndx + 2; ndx + 2; ndx + 1; ndx + 3]).

Definition visitFace (w : VoxelWorld) (voxelX voxelY voxelZ x y z : Z)
    (g : Geometry) (f : Face) : Geometry :=
  let '(d0, d1, d2) := dir f in
  let neighbor := getVoxel w (voxelX + d0) (voxelY + d1) (voxelZ + d2) in
  if JS.truthy neighbor then g else emitFace x y z g f.

Definition visitVoxel (w : VoxelWorld) (startX voxelY voxelZ y z : Z)
    (g : Geometry) (x : Z) : Geometry :=
  let voxelX := startX + x in
  let voxel := getVoxel w voxelX voxelY voxelZ in
  if JS.truthy voxel then
    foldl (visitFace w voxelX voxelY voxelZ x y z) g faces
  else g.

Definition generateGeometryDataForCell (w : VoxelWorld)
    (cellX cellY cellZ : Z) : Geometry :=
  let startX := cellX * cellSize w in
  let startY := cellY * cellSize w in
  let startZ := cellZ * cellSize w in
  foldl (fun g y =>
    let voxelY := startY + y in
    foldl (fun g z =>
      let voxelZ := startZ + z in
      foldl (visitVoxel w startX voxelY voxelZ y z) g (upTo (cellSize w)))
      g (upTo (cellSize w)))
    emptyGeometry (upTo (cellSize w)).

End SingleCell.

(** ** Histories of calls

    The calls a client makes on a world, and the store they leave.  Only
    [setVoxel] (through its helper [addCellForVoxel]) assigns to [cells] or
    to a cell; [getVoxel], [generateGeometryDataForCell] and [intersectRay]
    read. *)

Inductive Op :=
| OpSetVoxel (x y z v : Z) (addCell : bool)
| OpGetVoxel (x y z : Z)
| OpGenerate (cellX cellY cellZ : Z)
| OpIntersectRay (fuel : nat) (start end_ : Vector3).

Definition applyOp (w : VoxelWorld) (o : Op) : VoxelWorld :=
  match o with
  | OpSetVoxel x y z v addCell => setVoxel w x y z v addCell
  | OpGetVoxel _ _ _ | OpGenerate _ _ _ | OpIntersectRay _ _ _ => w
  end.

Definition runOps (w : VoxelWorld) (ops : list Op) : VoxelWorld :=
  foldl applyOp w ops.

(** A string without a comma. *)
Fixpoint noComma (s : string) : Prop :=
  match s with
  | EmptyString => True
  | String a s' => a ≠ ","%char ∧ noComma s'
  end.

(** Well-formed single-cell worlds: the cell has [cellSize³] entries, as the
    constructor allocates it. *)
Record wfSingle (w : SingleCell.VoxelWorld) : Prop := mkWfSingle {
  wfs_pos : 0 < SingleCell.cellSize w;
  wfs_int32 : SingleCell.cellSize w <= 2 ^ 31;
  wfs_cell : Z.of_nat (length (SingleCell.cell w)) =
    SingleCell.cellSize w * SingleCell.cellSize w * SingleCell.cellSize w
}.

(** ** Quads: what the extraction loop emits, face by face

    These definitions describe the output; the loop itself is
    [generateGeometryDataForCell] above. *)

(** A quad: the voxel's position in its cell, its type less one, the face. *)
Abbreviation Quad := (Z * Z * Z * Z * Face)%type.

(** The neighbor of a voxel through a face is empty. *)
Definition faceVisible (w : VoxelWorld) (voxelX voxelY voxelZ : Z) (f : Face)
  : Prop :=
  JS.truthy (getVoxel w (voxelX + (dir f).1.1) (voxelY + (dir f).1.2)
               (voxelZ + (dir f).2)) = false.

#[export] Instance faceVisible_dec w voxelX voxelY voxelZ f :
  Decision (faceVisible w voxelX voxelY voxelZ f).
Proof. unfold faceVisible. apply _. Defined.

(** The quads of the voxel at [(x,y,z)] of the cell starting at
    [(startX,startY,startZ)], in the order of the face table. *)
Definition voxelQuads (w : VoxelWorld) (startX startY startZ x y z : Z)
  : list Quad :=
  let voxel := getVoxel w (startX + x) (startY + y) (startZ + z) in
  if JS.truthy voxel then
    (fun f => (x, y, z, voxel - 1, f))
      <$> filter (faceVisible w (startX + x) (startY + y) (startZ + z)) faces
  else [].

(** The quads of a cell, in the order of the loops: y, then z, then x. *)
Definition cellQuads (w : VoxelWorld) (cellX cellY cellZ : Z) : list Quad :=
  y ← upTo (cellSize w); z ← upTo (cellSize w); x ← upTo (cellSize w);
  voxelQuads w (cellX * cellSize w) (cellY * cellSize w) (cellZ * cellSize w)
    x y z.

(** The twelve position numbers, the twelve normal numbers and the six
    indices of one quad. *)
Definition facePositions (f : Face) (x y z : Z) : list Z :=
  c ← corners f; [(pos c).1.1 + x; (pos c).1.2 + y; (pos c).2 + z].

Definition faceNormals (f : Face) : list Z :=
  c ← corners f; [(dir f).1.1; (dir f).1.2; (dir f).2].

Definition faceUvs (w : VoxelWorld) (f : Face) (uvVoxel : Z) : list float :=
  c ← corners f;
  [ (JS.ofZ (uvVoxel + (uv c).1) * tileSize w / tileTextureWidth w)%float;
    (1 - JS.ofZ (uvRow f + 1 - (uv c).2) * tileSize w / tileTextureHeight w)%float ].

Definition quadIndices (ndx : Z) : list Z :=
  [ndx; ndx + 1; ndx + 2; ndx + 2; ndx + 1; ndx + 3].

(** The arrays after the quads [l] have been appended to [g]. *)
Definition renderQuads (w : VoxelWorld) (g : Geometry) (l : list Quad)
  : Geometry :=
  foldl (fun g q => let '(x, y, z, uvVoxel, f) := q in emitFace w uvVoxel x y z g f)
    g l.

(** The [k]-th quad of the output arrays is the face [f] of the voxel at
    [(x,y,z)]: its four vertices, four copies of its normal, and the two
    triangles (0,1,2), (2,1,3) over these vertices. *)
Definition quadAt (g : Geometry) (k : nat) (x y z : Z) (f : Face) : Prop :=
  take 12 (drop (12 * k) (positions g)) = facePositions f x y z
  ∧ take 12 (drop (12 * k) (normals g)) = faceNormals f
  ∧ take 6 (drop (6 * k) (indices g)) = quadIndices (4 * Z.of_nat k).

Definition emitsQuad (g : Geometry) (x y z : Z) (f : Face) : Prop :=
  ∃ k : nat, quadAt g k x y z f.

(** The number of quads in the output arrays. *)
Definition quadCount (g : Geometry) : Z := Z.of_nat (length (indices g)) / 6.

(** The indices of the quads [l] when the first of them starts at vertex
    [ndx]. *)
Fixpoint indicesFrom (ndx : Z) (l : list Quad) : list Z :=
  match l with
  | [] => []
  | _ :: l' => quadIndices ndx ++ indicesFrom (ndx + 4) l'
  end.

(** A quad of a face of the table. *)
Definition tableQuad (q : Quad) : Prop := q.2 ∈ faces.

(** ** The single-cell world seen as a chunked world

    The chunked world that holds the single cell under the key of cell
    (0,0,0), and nothing else. *)
Definition asChunked (sw : SingleCell.VoxelWorld) : VoxelWorld :=
  mkVoxelWorld (SingleCell.cellSize sw) 0 0 0
    {[ "0,0,0" := SingleCell.cell sw ]}.

(** A face of the textured table without its texture data. *)
Definition asSingleFace (f : Face) : SingleCell.Face :=
  SingleCell.mkFace (dir f) (pos <$> corners f).

(** The two kinds of output hold the same vertices, normals and triangles. *)
Definition sameMesh (sg : SingleCell.Geometry) (g : Geometry) : Prop :=
  SingleCell.positions sg = positions g
  ∧ SingleCell.normals sg = normals g
  ∧ SingleCell.indices sg = indices g.

(** The cell [(cellX,cellY,cellZ)] of a world with voxel lookup [get] and
    cell size [c] has exactly one solid voxel, at [(x,y,z)] of the cell, and
    the six neighbors of that voxel, inside the cell or across its boundary,
    are empty. *)
Definition loneVoxel (get : Z → Z → Z → Z) (c cellX cellY cellZ x y z : Z)
  : Prop :=
  (0 <= x < c ∧ 0 <= y < c ∧ 0 <= z < c)
  ∧ get (cellX * c + x) (cellY * c + y) (cellZ * c + z) ≠ 0
  ∧ (∀ x' y' z', 0 <= x' < c → 0 <= y' < c → 0 <= z' < c →
       (x', y', z') ≠ (x, y, z) →
       get (cellX * c + x') (cellY * c + y') (cellZ * c + z') = 0)
  ∧ (∀ dx dy dz, Z.abs dx + Z.abs dy + Z.abs dz = 1 →
       get (cellX * c + x + dx) (cellY * c + y + dy) (cellZ * c + z + dz) = 0).

(** The only solid voxels of the world are [(px,py,pz)] and its neighbor
    through the face [f0], both of type [v]. *)
Definition twoVoxels (w : VoxelWorld) (px py pz : Z) (f0 : Face) (v : Z)
  : Prop :=
  ∀ x y z,
    getVoxel w x y z =
      if decide ((x, y, z) = (px, py, pz)
                 ∨ (x, y, z) = (px + (dir f0).1.1, py + (dir f0).1.2, pz + (dir f0).2))
      then v else 0.

(** The normal pointing the other way. *)
Definition opposite (d : Z * Z * Z) : Z * Z * Z := (- d.1.1, - d.1.2, - d.2).

(** The quads of the two solid voxels that belong to the cell [(cx,cy,cz)]:
    those of the voxel [(px,py,pz)] but for the face [f0], and those of the
    voxel [(qx,qy,qz)] but for the face whose normal is [opposite (dir f0)]. *)
Definition quadsOfP (c px py pz v : Z) (f0 : Face) (cx cy cz : Z) : list Quad :=
  if decide ((px / c, py / c, pz / c) = (cx, cy, cz)) then
    (fun f => (px `mod` c, py `mod` c, pz `mod` c, v - 1, f))
      <$> filter (fun f => f ≠ f0) faces
  else [].

Definition quadsOfQ (c qx qy qz v : Z) (f0 : Face) (cx cy cz : Z) : list Quad :=
  if decide ((qx / c, qy / c, qz / c) = (cx, cy, cz)) then
    (fun f => (qx `mod` c, qy `mod` c, qz `mod` c, v - 1, f))
      <$> filter (fun f => dir f ≠ opposite (dir f0)) faces
  else [].

(** ** Sample worlds *)

(** Cell size 2, one voxel of type 3 in the far corner of cell (0,0,0). *)
Definition cornerWorld : VoxelWorld :=
  setVoxel (newVoxelWorld 2 16 256 64) 1 1 1 3 true.

Definition cornerSingle : SingleCell.VoxelWorld :=
  SingleCell.setVoxel (SingleCell.newVoxelWorld 2) 1 1 1 1.

(** Cell size 2, two voxels of type 4 side by side along x, one on each side
    of the boundary between the cells (0,0,0) and (1,0,0). *)
Definition pairWorld : VoxelWorld :=
  setVoxel (setVoxel (newVoxelWorld 2 16 256 64) 1 0 0 4 true) 2 0 0 4 true.

(** The face of the table with normal (1,0,0). *)
Definition rightFace : Face :=
  mkFace 0 (1, 0, 0)
    [ mkCorner (1, 1, 1) (0, 1); mkCorner (1, 0, 1) (0, 0);
      mkCorner (1, 1, 0) (1, 1); mkCorner (1, 0, 0) (1, 0) ].

(** The ray of the picking example: straight down through (0.5, ., 0.5). *)
Definition downStart : Vector3 := mkVector3 0.5 10 0.5.
Definition downEnd : Vector3 := mkVector3 0.5 (-1) 0.5.

(** Cell size 32, one voxel of type 5 at (0,0,0). *)
Definition originWorld : VoxelWorld :=
  setVoxel (newVoxelWorld 32 16 256 64) 0 0 0 5 true.

(** A new world with cells of size 32: every voxel is empty. *)
Definition emptyWorld : VoxelWorld := newVoxelWorld 32 16 256 64.

(** A ray along x whose squared length overflows: 2^700 is a double, its
    square is not. *)
Definition longStart : Vector3 := mkVector3 0.5 0.5 0.5.


(** A ray along the space diagonal: the three axes are crossed together. *)
Definition diagStart : Vector3 := mkVector3 0.5 0.5 0.5.
Definition diagEnd : Vector3 := mkVector3 10.5 10.5 10.5.

(** ** The states of the loop *)

(** The state after [k] turns of the loop over empty voxels. *)
Definition rayStateAfter {R} `{RayNum R} (p : RayParams R) (s : RayState R)
    (k : nat) : RayState R :=
  Nat.iter k (advanceRay p) s.


(** ** The range in which the integers of the model are the doubles of the code

    Coordinates are doubles in the code and integers here.  The results
    below that depend on coordinate arithmetic are stated for safe integers
    ([JS.safeInteger]), with the margin that the arithmetic of the function
    in question needs. *)
Definition safeVoxel (x y z : Z) : Prop :=
  JS.safeInteger x ∧ JS.safeInteger y ∧ JS.safeInteger z.

#[export] Instance safeVoxel_dec x y z : Decision (safeVoxel x y z).
Proof. unfold safeVoxel. apply _. Defined.

(** The voxel and its six neighbors are safe: [x - 1], [x + 1] and the like
    are exact. *)
Definition safeNeighbors (x y z : Z) : Prop :=
  safeVoxel (x - 1) (y - 1) (z - 1) ∧ safeVoxel (x + 1) (y + 1) (z + 1).

#[export] Instance safeNeighbors_dec x y z : Decision (safeNeighbors x y z).
Proof. unfold safeNeighbors. apply _. Defined.

(** Along one axis, the coordinates that the extraction of a cell computes
    ([cell * cellSize], [start + x], [voxel + dir]): from one below the first
    voxel of the cell to one above its last. *)
Definition safeSpan (c cell : Z) : Prop :=
  JS.safeInteger (cell * c - 1) ∧ JS.safeInteger (cell * c + c).

Definition safeCell (c cellX cellY cellZ : Z) : Prop :=
  safeSpan c cellX ∧ safeSpan c cellY ∧ safeSpan c cellZ.

#[export] Instance safeCell_dec c cellX cellY cellZ :
  Decision (safeCell c cellX cellY cellZ).
Proof. unfold safeCell, safeSpan. apply _. Defined.

(** The cells of the world are of a size that [new Uint8Array] grants. *)
Definition allocatableWorld (w : VoxelWorld) : Prop :=
  JS.allocatable (cellSize w * cellSize w * cellSize w).

#[export] Instance allocatableWorld_dec w : Decision (allocatableWorld w).
Proof. unfold allocatableWorld. apply _. Defined.

(** The coordinates of a call are safe integers. *)
Definition safeOp (o : Op) : Prop :=
  match o with
  | OpSetVoxel x y z _ _ | OpGetVoxel x y z => safeVoxel x y z
  | OpGenerate _ _ _ | OpIntersectRay _ _ _ => True
  end.

#[export] Instance safeOp_dec o : Decision (safeOp o).
Proof. destruct o; simpl; apply _. Defined.

(** ** Notions for the further properties of the store *)

(** The array [setVoxel] writes into: the cell stored under the key, or the
    zeroed array that [addCellForVoxel] allocates when there is none. *)
Definition cellOrNew (w : VoxelWorld) (k : string) : list Z :=
  default (JS.newUint8Array (cellSize w * cellSize w * cellSize w))
    (cells w !! k).

(** Every entry of every stored cell is a byte. *)
Definition bytesWorld (w : VoxelWorld) : Prop :=
  ∀ k cell, cells w !! k = Some cell → Forall (fun b => 0 <= b < 256) cell.

(** ** Notions for the further properties of the mesh *)

(** Two worlds hold the same voxels in a cell and in the voxels that touch
    it through a face. *)
Definition agreeAround (w w' : VoxelWorld) (cellX cellY cellZ : Z) : Prop :=
  ∀ x y z dx dy dz,
    0 <= x < cellSize w → 0 <= y < cellSize w → 0 <= z < cellSize w →
    Z.abs dx + Z.abs dy + Z.abs dz <= 1 →
    getVoxel w (cellX * cellSize w + x + dx) (cellY * cellSize w + y + dy)
      (cellZ * cellSize w + z + dz)
    = getVoxel w' (cellX * cellSize w + x + dx) (cellY * cellSize w + y + dy)
        (cellZ * cellSize w + z + dz).

(** Cross product and difference of integer vectors. *)
Definition cross (a b : Z * Z * Z) : Z * Z * Z :=
  (a.1.2 * b.2 - a.2 * b.1.2, a.2 * b.1.1 - a.1.1 * b.2,
   a.1.1 * b.1.2 - a.1.2 * b.1.1).

Definition vsub (a b : Z * Z * Z) : Z * Z * Z :=
  (a.1.1 - b.1.1, a.1.2 - b.1.2, a.2 - b.2).

Definition vadd (a b : Z * Z * Z) : Z * Z * Z :=
  (a.1.1 + b.1.1, a.1.2 + b.1.2, a.2 + b.2).

Definition dot (a b : Z * Z * Z) : Z :=
  a.1.1 * b.1.1 + a.1.2 * b.1.2 + a.2 * b.2.

(** The corner of a face that a vertex index of its quad refers to. *)
Definition cornerAt (f : Face) (i : Z) : Z * Z * Z :=
  default (0, 0, 0) ((pos <$> corners f) !! Z.to_nat i).

(** Twice the area vector of the triangle with vertex indices [i], [j], [k],
    by the right-hand rule. *)
Definition triangleNormal (f : Face) (i j k : Z) : Z * Z * Z :=
  cross (vsub (cornerAt f j) (cornerAt f i)) (vsub (cornerAt f k) (cornerAt f i)).

(** The voxel lies in the one cell of the single-cell world. *)
Definition inCell (sw : SingleCell.VoxelWorld) (x y z : Z) : Prop :=
  0 <= x < SingleCell.cellSize sw ∧ 0 <= y < SingleCell.cellSize sw
  ∧ 0 <= z < SingleCell.cellSize sw.

#[export] Instance inCell_dec sw x y z : Decision (inCell sw x y z).
Proof. unfold inCell. apply _. Defined.

(** ** The meshes of the page: [updateCellGeometry], [updateVoxelGeometry]

    Of a [THREE.Mesh] the model keeps what the code gives it: its name, the
    four arrays handed to its geometry (before three.js copies them into
    typed arrays) and its position.  [cellIDToMesh] is the object of that
    name; [sceneMeshes] lists the names of the meshes passed to [scene.add],
    in the order of the calls.  Coordinates are integers. *)
Record Mesh := mkMesh {
  meshName : string;
  meshGeometry : Geometry;
  meshPosition : Z * Z * Z
}.

Record View := mkView {
  cellIDToMesh : gmap string Mesh;
  sceneMeshes : list string
}.

Definition emptyView : View := mkView ∅ [].

(** An existing mesh keeps its geometry object, whose attributes and index
    are replaced; a new mesh is named, registered, added to the scene and
    placed at the origin of its cell. *)
Definition updateCellGeometry (w : VoxelWorld) (s : View) (x y z : Z) : View :=
  let cellX := JS.floorDiv x (cellSize w) in
  let cellY := JS.floorDiv y (cellSize w) in
  let cellZ := JS.floorDiv z (cellSize w) in
  let cellID := computeCellID w x y z in
  let g := generateGeometryDataForCell w cellX cellY cellZ in
  match cellIDToMesh s !! cellID with
  | Some mesh =>
      mkView (<[cellID := mkMesh (meshName mesh) g (meshPosition mesh)]>
                (cellIDToMesh s))
        (sceneMeshes s)
  | None =>
      mkView (<[cellID := mkMesh cellID g
                  (cellX * cellSize w, cellY * cellSize w, cellZ * cellSize w)]>
                (cellIDToMesh s))
        (sceneMeshes s ++ [cellID])
  end.

Definition neighborOffsets : list (Z * Z * Z) :=
  [ (0, 0, 0); (-1, 0, 0); (1, 0, 0); (0, -1, 0); (0, 1, 0); (0, 0, -1);
    (0, 0, 1) ].

(** Body of [for (const offset of neighborOffsets)]; the first component is
    [updatedCellIDs].  [x + offset[0]] and the like are sums of doubles: the
    integer sums for a voxel that is, with its neighbors, at safe integers. *)
Definition refreshCell (w : VoxelWorld) (x y z : Z) (st : gset string * View)
    (offset : Z * Z * Z) : gset string * View :=
  let ox := x + offset.1.1 in
  let oy := y + offset.1.2 in
  let oz := z + offset.2 in
  let cellID := computeCellID w ox oy oz in
  if decide (cellID ∈ st.1) then st
  else ({[cellID]} ∪ st.1, updateCellGeometry w st.2 ox oy oz).

Definition updateVoxelGeometry (w : VoxelWorld) (s : View) (x y z : Z) : View :=
  (foldl (refreshCell w x y z) (∅, s) neighborOffsets).2.

(** The meshes show the world: the cell of every voxel, if its coordinates
    are safe integers, either has a mesh, which carries the cell's key as
    name, the cell's current geometry and the cell's origin as position, or
    has no mesh and no geometry. *)
Definition inSync (w : VoxelWorld) (s : View) : Prop :=
  ∀ x y z,
    let cellX := JS.floorDiv x (cellSize w) in
    let cellY := JS.floorDiv y (cellSize w) in
    let cellZ := JS.floorDiv z (cellSize w) in
    safeCell (cellSize w) cellX cellY cellZ →
    match cellIDToMesh s !! computeCellID w x y z with
    | Some mesh =>
        meshGeometry mesh = generateGeometryDataForCell w cellX cellY cellZ
        ∧ meshName mesh = computeCellID w x y z
        ∧ meshPosition mesh
          = (cellX * cellSize w, cellY * cellSize w, cellZ * cellSize w)
    | None => generateGeometryDataForCell w cellX cellY cellZ = emptyGeometry
    end.

(** The scene holds one mesh per registered cell, and no mesh twice. *)
Definition sceneOk (s : View) : Prop :=
  NoDup (sceneMeshes s)
  ∧ ∀ k, k ∈ sceneMeshes s ↔ is_Some (cellIDToMesh s !! k).

(** One of the cells that [updateVoxelGeometry (x, y, z)] visits. *)
Definition nearCell (w : VoxelWorld) (x y z : Z) (k : string) : Prop :=
  Exists (fun o => computeCellID w (x + o.1.1) (y + o.1.2) (z + o.2) = k)
    neighborOffsets.

#[export] Instance nearCell_dec w x y z k : Decision (nearCell w x y z k).
Proof. unfold nearCell. apply _. Defined.

(** A small world for the examples: cell size 2, one solid voxel at the
    corner (1,1,1) of cell (0,0,0). *)
Definition smallWorld : VoxelWorld := newVoxelWorld 2 16 256 64.

(** ** Notions for the properties of the ray *)

(** The voxel the loop is at. *)
Definition cellOf {R} (s : RayState R) : Z * Z * Z := (ix s, iy s, iz s).

(** The normal reported for a hit in state [s], as [hitRecord] computes it. *)
Definition enteredFrom {R} (p : RayParams R) (s : RayState R) : Z * Z * Z :=
  (if steppedIndex s =? 0 then - stepX p else 0,
   if steppedIndex s =? 1 then - stepY p else 0,
   if steppedIndex s =? 2 then - stepZ p else 0).

(** The parameters and the first state of the loop for a ray. *)
Definition rayParams (start end_ : Vector3) : RayParams float :=
  (raySetup start end_).1.2.

Definition rayStart (start end_ : Vector3) : RayState float :=
  (raySetup start end_).2.

(** The record built on a hit of the ray. *)
Definition rayHit (start end_ : Vector3) : RayState float → Z → Intersection :=
  let '(dx, dy, dz, p, _) := raySetup start end_ in hitRecord start dx dy dz p.

(** The start point has finite coordinates ([Math.floor] leaves NaN and the
    infinities as they are, and the model's [JS.floor] is for finite
    doubles). *)
Definition finiteStart (start : Vector3) : Prop :=
  is_finite (vx start) = true ∧ is_finite (vy start) = true
  ∧ is_finite (vz start) = true.

#[export] Instance finiteStart_dec start : Decision (finiteStart start).
Proof. unfold finiteStart. apply _. Defined.

(** The voxels within [k] steps of the voxel of the start point are at safe
    integers: [k] turns of the loop, which move an index by one voxel each,
    compute exactly. *)
Definition safeStart (start : Vector3) (k : nat) : Prop :=
  safeVoxel (JS.floor (vx start) - Z.of_nat k) (JS.floor (vy start) - Z.of_nat k)
    (JS.floor (vz start) - Z.of_nat k)
  ∧ safeVoxel (JS.floor (vx start) + Z.of_nat k) (JS.floor (vy start) + Z.of_nat k)
      (JS.floor (vz start) + Z.of_nat k).

#[export] Instance safeStart_dec start k : Decision (safeStart start k).
Proof. unfold safeStart. apply _. Defined.

(** ** Rendering on demand: [render], [requestRenderIfNotRequested]

    [renderRequested] takes the values [false], [undefined] and [true].
    The browser is a counter: [queuedFrames] is the number of callbacks
    registered with [requestAnimationFrame] and not yet run; [rendered]
    counts the calls of [renderer.render]. *)
Inductive JSFlag := JSFalse | JSUndefined | JSTrue.

Definition flagTruthy (f : JSFlag) : bool :=
  match f with JSTrue => true | _ => false end.

Record Renderer := mkRenderer {
  renderRequested : JSFlag;
  queuedFrames : nat;
  rendered : nat
}.

(** [let renderRequested = false;] *)
Definition initialRenderer : Renderer := mkRenderer JSFalse 0 0.

Definition render (r : Renderer) : Renderer :=
  mkRenderer JSUndefined (queuedFrames r) (S (rendered r)).

Definition requestRenderIfNotRequested (r : Renderer) : Renderer :=
  if negb (flagTruthy (renderRequested r))
  then mkRenderer JSTrue (S (queuedFrames r)) (rendered r)
  else r.

(** The browser runs a registered callback, if there is one. *)
Definition animationFrame (r : Renderer) : Renderer :=
  match queuedFrames r with
  | O => r
  | S n => render (mkRenderer (renderRequested r) n (rendered r))
  end.

(** What happens on the page: a listener asks for a frame (camera moved,
    window resized, voxel placed), the browser runs a frame, or the texture
    has been loaded, whose callback is [render] itself. *)
Inductive PageEvent := Request | Frame | Loaded.

#[export] Instance PageEvent_eq_dec : EqDecision PageEvent.
Proof. solve_decision. Defined.

Definition pageStep (r : Renderer) (e : PageEvent) : Renderer :=
  match e with
  | Request => requestRenderIfNotRequested r
  | Frame => animationFrame r
  | Loaded => render r
  end.

(** The page after [main] has run ([render ()] is called once) and the
    events [es] have happened. *)
Definition runPage (es : list PageEvent) : Renderer :=
  foldl pageStep (render initialRenderer) es.

Definition countEvent (e : PageEvent) (es : list PageEvent) : nat :=
  length (filter (fun e' => e' = e) es).

(** * Properties *)

(** ** JavaScript primitives *)

Lemma euclideanModulo_mod n m : 0 < m → JS.euclideanModulo n m = n `mod` m.
Proof.
  intros Hm. unfold JS.euclideanModulo.
  assert (Hr : - m < Z.rem n m < m).
  { pose proof (Z.rem_bound_abs n m). lia. }
  rewrite Z.rem_mod_nonneg by lia.
  rewrite <- (Zplus_mod_idemp_r m), Z.mod_same, Z.add_0_r by lia.
  rewrite (Z.quot_rem' n m) at 2.
  rewrite Z.add_comm, Z.mul_comm, Z.mod_add by lia.
  reflexivity.
Qed.

Lemma toInt32_small v : - 2 ^ 31 <= v < 2 ^ 31 → JS.toInt32 v = v.
Proof.
  intros Hv. unfold JS.toInt32. rewrite Z.mod_small; lia.
Qed.

Lemma toUint8_range v : 0 <= JS.toUint8 v < 256.
Proof. unfold JS.toUint8. apply Z.mod_pos_bound. lia. Qed.

Lemma toUint8_byte v : 0 <= v < 256 → JS.toUint8 v = v.
Proof. intros Hv. unfold JS.toUint8. apply Z.mod_small. lia. Qed.

Lemma typedGet_typedSet_eq a i v :
  0 <= i < Z.of_nat (length a) →
  JS.typedGet (JS.typedSet a i v) i = JS.toUint8 v.
Proof.
  intros Hi. unfold JS.typedGet, JS.typedSet.
  destruct (decide (0 <= i)); [|lia].
  rewrite list_lookup_insert_eq by lia. reflexivity.
Qed.

Lemma typedGet_typedSet_ne a i j v :
  0 <= i → 0 <= j → i ≠ j →
  JS.typedGet (JS.typedSet a i v) j = JS.typedGet a j.
Proof.
  intros Hi Hj Hne. unfold JS.typedGet, JS.typedSet.
  destruct (decide (0 <= i)); [|lia].
  destruct (decide (0 <= j)); [|lia].
  rewrite list_lookup_insert_ne by lia. reflexivity.
Qed.

Lemma typedSet_length a i v : length (JS.typedSet a i v) = length a.
Proof.
  unfold JS.typedSet. destruct (decide (0 <= i)); [|done].
  apply length_insert.
Qed.

Lemma typedSet_typedSet a i v : JS.typedSet (JS.typedSet a i v) i v = JS.typedSet a i v.
Proof.
  unfold JS.typedSet. destruct (decide (0 <= i)); [|done].
  apply list_insert_insert_eq.
Qed.

Lemma typedGet_new n i : JS.typedGet (JS.newUint8Array n) i = 0.
Proof.
  unfold JS.typedGet, JS.newUint8Array.
  destruct (decide (0 <= i)); [|done].
  destruct (replicate (Z.to_nat n) 0 !! Z.to_nat i) as [b|] eqn:E; [|done].
  apply lookup_replicate in E as [-> _]. reflexivity.
Qed.

Lemma truthy_true v : JS.truthy v = true ↔ v ≠ 0.
Proof. unfold JS.truthy. destruct (Z.eqb_spec v 0); simpl; split; (done || lia). Qed.

Lemma truthy_false v : JS.truthy v = false ↔ v = 0.
Proof. unfold JS.truthy. destruct (Z.eqb_spec v 0); simpl; split; (done || lia). Qed.

(** ** Cell keys: the string ["cx,cy,cz"] names one cell only *)

Lemma pretty_N_go_noComma x s : noComma s → noComma (pretty_N_go x s).
Proof.
  revert s. induction (N.lt_wf_0 x) as [x _ IH]; intros s Hs.
  destruct (decide (x = 0)%N) as [->|Hx].
  - by rewrite pretty_N_go_0.
  - rewrite pretty_N_go_step by lia. apply IH.
    + apply N.div_lt; lia.
    + split; [|done]. unfold pretty_N_char. by repeat case_match.
Qed.

Lemma pretty_N_noComma (x : N) : noComma (pretty x).
Proof.
  unfold pretty, pretty_N. case_decide; [by simpl|].
  by apply pretty_N_go_noComma.
Qed.

Lemma numberToString_noComma n : noComma (JS.numberToString n).
Proof.
  unfold JS.numberToString, pretty, pretty_Z. destruct n as [|p|p].
  - by simpl.
  - apply pretty_N_noComma.
  - simpl. split; [done|]. apply pretty_N_noComma.
Qed.

Lemma append_comma_inj s1 s2 t1 t2 :
  noComma s1 → noComma s2 →
  s1 +:+ String "," t1 = s2 +:+ String "," t2 → s1 = s2 ∧ t1 = t2.
Proof.
  revert s2. induction s1 as [|a s1 IH]; intros [|b s2]; simpl.
  - intros _ _ [= ->]. done.
  - intros _ [Hb _] [= <- _]. done.
  - intros [Ha _] _ [= -> _]. done.
  - intros [_ H1] [_ H2] [= -> Heq].
    destruct (IH s2 H1 H2 Heq) as [-> ->]. done.
Qed.

Lemma numberToString_inj a b : JS.numberToString a = JS.numberToString b → a = b.
Proof. apply pretty_Z_inj. Qed.

(** The key built from the three cell coordinates. *)
Lemma cellKey_inj a b c a' b' c' :
  JS.numberToString a +:+ "," +:+ JS.numberToString b +:+ "," +:+ JS.numberToString c
  = JS.numberToString a' +:+ "," +:+ JS.numberToString b' +:+ "," +:+ JS.numberToString c' →
  a = a' ∧ b = b' ∧ c = c'.
Proof.
  intros Heq.
  apply append_comma_inj in Heq as [Ha Heq]; auto using numberToString_noComma.
  apply append_comma_inj in Heq as [Hb Hc]; auto using numberToString_noComma.
  auto using numberToString_inj.
Qed.

Lemma computeCellID_inj w x y z x' y' z' :
  computeCellID w x y z = computeCellID w x' y' z' ↔
  x / cellSize w = x' / cellSize w ∧ y / cellSize w = y' / cellSize w
  ∧ z / cellSize w = z' / cellSize w.
Proof.
  unfold computeCellID, JS.floorDiv. split.
  - apply cellKey_inj.
  - by intros (-> & -> & ->).
Qed.

(** ** Well-formed worlds

    A cell size is a positive integer whose residues survive [| 0], and every
    cell ever stored has [cellSize³] entries.  Worlds built by the constructor
    and [setVoxel] are of this kind ([wf_newVoxelWorld], [wf_setVoxel]). *)

Record wfWorld (w : VoxelWorld) : Prop := mkWf {
  wf_pos : 0 < cellSize w;
  wf_int32 : cellSize w <= 2 ^ 31;
  wf_cells : ∀ k cell, cells w !! k = Some cell →
    Z.of_nat (length cell) = cellSize w * cellSize w * cellSize w
}.

Lemma wf_newVoxelWorld c ts tw th :
  0 < c <= 2 ^ 31 → wfWorld (newVoxelWorld c ts tw th).
Proof.
  intros Hc. split; simpl; try lia.
  intros k cell Hk. by rewrite lookup_empty in Hk.
Qed.

Lemma local_range c x : 0 < c <= 2 ^ 31 →
  JS.toInt32 (JS.euclideanModulo x c) = x `mod` c.
Proof.
  intros Hc. rewrite euclideanModulo_mod by lia.
  pose proof (Z.mod_pos_bound x c). apply toInt32_small. lia.
Qed.

Lemma computeVoxelOffset_eq w x y z : wfWorld w →
  computeVoxelOffset w x y z =
    (y `mod` cellSize w) * (cellSize w * cellSize w)
    + (z `mod` cellSize w) * cellSize w + x `mod` cellSize w.
Proof.
  intros [Hp Hi _]. unfold computeVoxelOffset, cellSliceSize.
  rewrite !local_range by lia. reflexivity.
Qed.

Lemma computeVoxelOffset_range w x y z : wfWorld w →
  0 <= computeVoxelOffset w x y z < cellSize w * cellSize w * cellSize w.
Proof.
  intros Hw. rewrite computeVoxelOffset_eq by done. destruct Hw as [Hp _ _].
  pose proof (Z.mod_pos_bound x (cellSize w) Hp).
  pose proof (Z.mod_pos_bound y (cellSize w) Hp).
  pose proof (Z.mod_pos_bound z (cellSize w) Hp).
  nia.
Qed.

Lemma digits_inj c a b d a' b' d' :
  0 <= a < c → 0 <= b < c → 0 <= a' < c → 0 <= b' < c →
  d * (c * c) + b * c + a = d' * (c * c) + b' * c + a' →
  a = a' ∧ b = b' ∧ d = d'.
Proof.
  intros Ha Hb Ha' Hb' Heq.
  assert (a = a').
  { assert (E : (d * (c * c) + b * c + a) `mod` c = (d' * (c * c) + b' * c + a') `mod` c)
      by (by rewrite Heq).
    replace (d * (c * c) + b * c + a) with (a + (d * c + b) * c) in E by ring.
    replace (d' * (c * c) + b' * c + a') with (a' + (d' * c + b') * c) in E by ring.
    rewrite !Z.mod_add, !Z.mod_small in E by lia. done. }
  subst a'. assert (E : (d * c + b) * c = (d' * c + b') * c) by lia.
  apply Z.mul_cancel_r in E; [|lia].
  assert (b = b').
  { assert (E' : (b + d * c) `mod` c = (b' + d' * c) `mod` c)
      by (f_equal; lia).
    rewrite !Z.mod_add, !Z.mod_small in E' by lia. done. }
  subst b'. split; [done|]. split; [done|].
  assert (E' : d * c = d' * c) by lia.
  apply Z.mul_cancel_r in E'; lia.
Qed.

Lemma div_mod_inj c x x' : 0 < c →
  x / c = x' / c → x `mod` c = x' `mod` c → x = x'.
Proof.
  intros Hc Hd Hm.
  rewrite (Z.div_mod x c), (Z.div_mod x' c) by lia. by rewrite Hd, Hm.
Qed.

(** Two voxels share cell and offset only if they are the same voxel. *)
Lemma voxel_address_inj w x y z x' y' z' : wfWorld w →
  computeCellID w x y z = computeCellID w x' y' z' →
  computeVoxelOffset w x y z = computeVoxelOffset w x' y' z' →
  x = x' ∧ y = y' ∧ z = z'.
Proof.
  intros Hw Hid Hoff.
  apply computeCellID_inj in Hid as (Hx & Hy & Hz).
  rewrite !computeVoxelOffset_eq in Hoff by done.
  destruct Hw as [Hp _ _].
  apply digits_inj in Hoff as (Hx' & Hz' & Hy');
    try (apply Z.mod_pos_bound; lia).
  repeat split; eapply div_mod_inj; eauto.
Qed.

Lemma cellSize_withCells w m : cellSize (withCells w m) = cellSize w.
Proof. reflexivity. Qed.

(** An update in place of an entry that is there. *)
Lemma alter_present {A} (f : A → A) (m : gmap string A) k a :
  m !! k = Some a → alter f k m = <[k := f a]> m.
Proof.
  intros E. apply map_eq. intros j. destruct (decide (k = j)) as [<-|Hne].
  - by rewrite lookup_alter_eq, lookup_insert_eq, E.
  - by rewrite lookup_alter_ne, lookup_insert_ne.
Qed.

Lemma cellSize_setVoxel w x y z v b : cellSize (setVoxel w x y z v b) = cellSize w.
Proof.
  unfold setVoxel, addCellForVoxel, getCellForVoxel.
  destruct (cells w !! computeCellID w x y z) eqn:E; [done|].
  by destruct b.
Qed.

(** What [setVoxel] leaves in [cells]: the cell of the voxel, created if asked
    for and missing, with the byte written at the voxel's offset. *)
Lemma cells_setVoxel w x y z v b :
  cells (setVoxel w x y z v b) =
    match cells w !! computeCellID w x y z with
    | Some cell =>
        <[computeCellID w x y z :=
            JS.typedSet cell (computeVoxelOffset w x y z) v]> (cells w)
    | None =>
        if b then
          <[computeCellID w x y z :=
              JS.typedSet (JS.newUint8Array (cellSize w * cellSize w * cellSize w))
                (computeVoxelOffset w x y z) v]> (cells w)
        else cells w
    end.
Proof.
  unfold setVoxel, addCellForVoxel, getCellForVoxel, writeVoxel.
  destruct (cells w !! computeCellID w x y z) eqn:E.
  - simpl.
    by apply (alter_present (fun cell => JS.typedSet cell (computeVoxelOffset w x y z) v)).
  - destruct b; simpl; [|done].
    rewrite (alter_present (fun cell => JS.typedSet cell (computeVoxelOffset w x y z) v)
               _ _ (JS.newUint8Array (cellSize w * cellSize w * cellSize w)))
      by apply lookup_insert_eq.
    by rewrite insert_insert_eq.
Qed.

Lemma world_eq w1 w2 :
  cellSize w1 = cellSize w2 → tileSize w1 = tileSize w2 →
  tileTextureWidth w1 = tileTextureWidth w2 →
  tileTextureHeight w1 = tileTextureHeight w2 →
  cells w1 = cells w2 → w1 = w2.
Proof. destruct w1, w2; simpl; congruence. Qed.

Lemma params_setVoxel w x y z v b :
  tileSize (setVoxel w x y z v b) = tileSize w
  ∧ tileTextureWidth (setVoxel w x y z v b) = tileTextureWidth w
  ∧ tileTextureHeight (setVoxel w x y z v b) = tileTextureHeight w.
Proof.
  unfold setVoxel, addCellForVoxel, getCellForVoxel.
  destruct (cells w !! computeCellID w x y z) eqn:E; [done|].
  by destruct b.
Qed.

Lemma newUint8Array_length n : 0 <= n → Z.of_nat (length (JS.newUint8Array n)) = n.
Proof. intros Hn. unfold JS.newUint8Array. rewrite length_replicate. lia. Qed.

Lemma wf_setVoxel w x y z v b : wfWorld w → wfWorld (setVoxel w x y z v b).
Proof.
  intros Hw. pose proof Hw as [Hp Hi Hc]. split.
  - by rewrite cellSize_setVoxel.
  - by rewrite cellSize_setVoxel.
  - intros k cell. rewrite cellSize_setVoxel, cells_setVoxel.
    destruct (cells w !! computeCellID w x y z) as [c0|] eqn:E.
    + rewrite lookup_insert. case_decide.
      * intros [= <-]. rewrite typedSet_length. eauto.
      * eauto.
    + destruct b; [|eauto]. rewrite lookup_insert. case_decide.
      * intros [= <-]. rewrite typedSet_length, newUint8Array_length; nia.
      * eauto.
Qed.

(** ** Reading back what was written *)

Lemma computeCellID_setVoxel w x y z v b x' y' z' :
  computeCellID (setVoxel w x y z v b) x' y' z' = computeCellID w x' y' z'.
Proof. unfold computeCellID. by rewrite cellSize_setVoxel. Qed.

Lemma computeVoxelOffset_setVoxel w x y z v b x' y' z' :
  computeVoxelOffset (setVoxel w x y z v b) x' y' z' = computeVoxelOffset w x' y' z'.
Proof. unfold computeVoxelOffset, cellSliceSize. by rewrite cellSize_setVoxel. Qed.

Lemma getVoxel_setVoxel_eq w x y z v : wfWorld w →
  getVoxel (setVoxel w x y z v true) x y z = JS.toUint8 v.
Proof.
  intros Hw. unfold getVoxel, getCellForVoxel.
  rewrite computeCellID_setVoxel, computeVoxelOffset_setVoxel, cells_setVoxel.
  pose proof (computeVoxelOffset_range w x y z Hw) as Hr.
  destruct (cells w !! computeCellID w x y z) as [cell|] eqn:E;
    rewrite lookup_insert_eq; apply typedGet_typedSet_eq.
  - apply (wf_cells w Hw) in E. lia.
  - rewrite newUint8Array_length; lia.
Qed.

Lemma getVoxel_missing w x y z :
  cells w !! computeCellID w x y z = None → getVoxel w x y z = 0.
Proof. intros E. unfold getVoxel, getCellForVoxel. by rewrite E. Qed.

Lemma getVoxel_setVoxel_ne w x y z v b x' y' z' : wfWorld w →
  (x, y, z) ≠ (x', y', z') →
  getVoxel (setVoxel w x y z v b) x' y' z' = getVoxel w x' y' z'.
Proof.
  intros Hw Hne. unfold getVoxel, getCellForVoxel.
  rewrite computeCellID_setVoxel, computeVoxelOffset_setVoxel, cells_setVoxel.
  pose proof (computeVoxelOffset_range w x y z Hw) as Hr.
  pose proof (computeVoxelOffset_range w x' y' z' Hw) as Hr'.
  destruct (decide (computeCellID w x y z = computeCellID w x' y' z')) as [Hid|Hid].
  - assert (Hoff : computeVoxelOffset w x y z ≠ computeVoxelOffset w x' y' z').
    { intros Hoff. destruct (voxel_address_inj w x y z x' y' z' Hw Hid Hoff)
        as (-> & -> & ->). done. }
    rewrite <- Hid.
    destruct (cells w !! computeCellID w x y z) as [cell|] eqn:E.
    + rewrite lookup_insert_eq. apply typedGet_typedSet_ne; lia.
    + destruct b; [|by rewrite E].
      rewrite lookup_insert_eq, typedGet_typedSet_ne by lia.
      apply typedGet_new.
  - destruct (cells w !! computeCellID w x y z) as [cell|] eqn:E.
    + by rewrite lookup_insert_ne.
    + destruct b; [|done]. by rewrite lookup_insert_ne.
Qed.

Lemma setVoxel_idempotent w x y z v b :
  setVoxel (setVoxel w x y z v b) x y z v b = setVoxel w x y z v b.
Proof.
  destruct (params_setVoxel (setVoxel w x y z v b) x y z v b) as (? & ? & ?).
  apply world_eq; try done; [apply cellSize_setVoxel|].
  rewrite (cells_setVoxel (setVoxel w x y z v b)).
  rewrite computeCellID_setVoxel, computeVoxelOffset_setVoxel, cellSize_setVoxel.
  rewrite cells_setVoxel.
  destruct (cells w !! computeCellID w x y z) as [cell|] eqn:E.
  - by rewrite lookup_insert_eq, typedSet_typedSet, insert_insert_eq.
  - destruct b.
    + by rewrite lookup_insert_eq, typedSet_typedSet, insert_insert_eq.
    + by rewrite E.
Qed.

Lemma setVoxel_repeat w x y z v b n :
  Nat.iter (S n) (fun w' => setVoxel w' x y z v b) w = setVoxel w x y z v b.
Proof.
  induction n as [|n IH]; [done|].
  change (Nat.iter (S (S n)) (fun w' => setVoxel w' x y z v b) w)
    with (setVoxel (Nat.iter (S n) (fun w' => setVoxel w' x y z v b) w) x y z v b).
  rewrite IH. apply setVoxel_idempotent.
Qed.

(** ** The store holds exactly the cells that were written *)

Lemma cellSize_runOps ops w : cellSize (runOps w ops) = cellSize w.
Proof.
  revert w. induction ops as [|o ops IH]; intros w; [done|].
  unfold runOps in *. simpl. rewrite IH.
  destruct o; simpl; try done. apply cellSize_setVoxel.
Qed.

Lemma computeCellID_cellSize w w' x y z :
  cellSize w = cellSize w' → computeCellID w x y z = computeCellID w' x y z.
Proof. unfold computeCellID. by intros ->. Qed.

Lemma present_setVoxel w x y z v b k :
  is_Some (cells (setVoxel w x y z v b) !! k) ↔
  is_Some (cells w !! k) ∨ (b = true ∧ computeCellID w x y z = k).
Proof.
  rewrite cells_setVoxel.
  destruct (cells w !! computeCellID w x y z) as [cell|] eqn:E.
  - rewrite lookup_insert. case_decide as Hk.
    + subst k. rewrite E. split; [left|]; eauto.
    + split; [by left|]. by intros [?|[_ ?]].
  - destruct b.
    + rewrite lookup_insert. case_decide as Hk.
      * split; [by right|]. eauto.
      * split; [by left|]. by intros [?|[_ ?]].
    + split; [by left|]. by intros [?|[? _]].
Qed.

Lemma present_runOps ops w k :
  is_Some (cells (runOps w ops) !! k) ↔
  is_Some (cells w !! k)
  ∨ ∃ x y z v, OpSetVoxel x y z v true ∈ ops ∧ computeCellID w x y z = k.
Proof.
  revert w. induction ops as [|o ops IH]; intros w.
  - simpl. split; [by left|]. intros [?|(x & y & z & v & Hin & _)]; [done|].
    by apply elem_of_nil in Hin.
  - change (runOps w (o :: ops)) with (runOps (applyOp w o) ops).
    rewrite IH. destruct o as [x y z v b| | |]; simpl.
    + rewrite present_setVoxel. split.
      * intros [[?|[-> Hk]]|(x' & y' & z' & v' & Hin & Hk)].
        -- by left.
        -- right. exists x, y, z, v. split; [left|done].
        -- right. exists x', y', z', v'. split; [by right|].
           by rewrite computeCellID_setVoxel in Hk.
      * intros [?|(x' & y' & z' & v' & Hin & Hk)]; [by left; left|].
        apply elem_of_cons in Hin as [[= <- <- <- <- <-]|Hin].
        -- left. right. done.
        -- right. exists x', y', z', v'. split; [done|].
           by rewrite computeCellID_setVoxel.
    + split; (intros [?|(x' & y' & z' & v' & Hin & Hk)]; [by left|]);
        right; exists x', y', z', v'; (split; [|done]).
      * by right.
      * by apply elem_of_cons in Hin as [?|?].
    + split; (intros [?|(x' & y' & z' & v' & Hin & Hk)]; [by left|]);
        right; exists x', y', z', v'; (split; [|done]).
      * by right.
      * by apply elem_of_cons in Hin as [?|?].
    + split; (intros [?|(x' & y' & z' & v' & Hin & Hk)]; [by left|]);
        right; exists x', y', z', v'; (split; [|done]).
      * by right.
      * by apply elem_of_cons in Hin as [?|?].
Qed.

(** ** The single-cell world *)

Lemma wf_newSingle c : 0 < c <= 2 ^ 31 → wfSingle (SingleCell.newVoxelWorld c).
Proof.
  intros Hc. split; simpl; try lia. rewrite newUint8Array_length; nia.
Qed.

Lemma single_getCell w x y z : 0 < SingleCell.cellSize w →
  SingleCell.getCellForVoxel w x y z =
    if decide (0 <= x < SingleCell.cellSize w ∧ 0 <= y < SingleCell.cellSize w
               ∧ 0 <= z < SingleCell.cellSize w)
    then Some (SingleCell.cell w) else None.
Proof.
  intros Hc. unfold SingleCell.getCellForVoxel, JS.floorDiv.
  pose proof (Z.div_small_iff x (SingleCell.cellSize w)) as Hx.
  pose proof (Z.div_small_iff y (SingleCell.cellSize w)) as Hy.
  pose proof (Z.div_small_iff z (SingleCell.cellSize w)) as Hz.
  destruct (Z.eqb_spec (x / SingleCell.cellSize w) 0),
    (Z.eqb_spec (y / SingleCell.cellSize w) 0),
    (Z.eqb_spec (z / SingleCell.cellSize w) 0); simpl;
    case_decide; try done; lia.
Qed.

Lemma single_offset_range w x y z : wfSingle w →
  0 <= SingleCell.computeVoxelOffset w x y z
    < SingleCell.cellSize w * SingleCell.cellSize w * SingleCell.cellSize w.
Proof.
  intros [Hp Hi _]. unfold SingleCell.computeVoxelOffset, SingleCell.cellSliceSize.
  rewrite !local_range by lia.
  pose proof (Z.mod_pos_bound x _ Hp).
  pose proof (Z.mod_pos_bound y _ Hp).
  pose proof (Z.mod_pos_bound z _ Hp).
  nia.
Qed.

Lemma single_setVoxel_cellSize w x y z v :
  SingleCell.cellSize (SingleCell.setVoxel w x y z v) = SingleCell.cellSize w.
Proof.
  unfold SingleCell.setVoxel. by destruct (SingleCell.getCellForVoxel w x y z).
Qed.

Lemma single_getVoxel_setVoxel_eq w x y z v : wfSingle w →
  0 <= x < SingleCell.cellSize w → 0 <= y < SingleCell.cellSize w →
  0 <= z < SingleCell.cellSize w →
  SingleCell.getVoxel (SingleCell.setVoxel w x y z v) x y z = JS.toUint8 v.
Proof.
  intros Hw Hx Hy Hz. pose proof Hw as [Hp Hi Hl].
  pose proof (single_offset_range w x y z Hw) as Hr.
  unfold SingleCell.getVoxel, SingleCell.setVoxel.
  rewrite (single_getCell w) by done. rewrite decide_True by done.
  rewrite single_getCell by done. simpl. rewrite decide_True by done.
  unfold SingleCell.computeVoxelOffset, SingleCell.cellSliceSize in *. simpl.
  apply typedGet_typedSet_eq. lia.
Qed.

(** ** The store: results *)

(** C1 (as amended).  For every well-formed world whose cells can be
    allocated, every coordinate triple and every voxel type from 1 to 255,
    [setVoxel (x,y,z,type)] followed by [getVoxel (x,y,z)] returns [type]; and
    making the identical [setVoxel] call any number of times more leaves the
    same store, and the same value read back, as making it once. *)
Theorem setVoxel_getVoxel_roundtrip (w : VoxelWorld) (x y z v : Z) :
  wfWorld w → allocatableWorld w → 1 <= v <= 255 →
  getVoxel (setVoxel w x y z v true) x y z = v
  ∧ ∀ n : nat,
      Nat.iter (S n) (fun w' => setVoxel w' x y z v true) w
        = setVoxel w x y z v true
      ∧ getVoxel (Nat.iter (S n) (fun w' => setVoxel w' x y z v true) w) x y z = v.
Proof.
  intros Hw _ Hv.
  assert (Hget : getVoxel (setVoxel w x y z v true) x y z = v).
  { rewrite getVoxel_setVoxel_eq by done. apply toUint8_byte. lia. }
  split; [done|]. intros n. rewrite setVoxel_repeat. done.
Qed.

Lemma setVoxel_getVoxel_roundtrip_witness :
  wfWorld (newVoxelWorld 32 16 256 64)
  ∧ allocatableWorld (newVoxelWorld 32 16 256 64) ∧ 1 <= 7 <= 255
  ∧ getVoxel (setVoxel (newVoxelWorld 32 16 256 64) (-1) 5 40 7 true) (-1) 5 40 = 7.
Proof.
  assert (Hw : wfWorld (newVoxelWorld 32 16 256 64))
    by (apply wf_newVoxelWorld; lia).
  assert (Ha : allocatableWorld (newVoxelWorld 32 16 256 64))
    by (refine (bool_decide_unpack _ _); vm_compute; exact I).
  assert (Hv : 1 <= 7 <= 255) by lia.
  split; [exact Hw|]. split; [exact Ha|]. split; [exact Hv|].
  exact (proj1 (setVoxel_getVoxel_roundtrip
                  (newVoxelWorld 32 16 256 64) (-1) 5 40 7 Hw Ha Hv)).
Defined.

(** C1 as stated fails: type 256 is not 0, and reads back as 0. *)
Lemma setVoxel_getVoxel_type_256 :
  wfWorld (newVoxelWorld 32 16 256 64) ∧ 256 ≠ 0
  ∧ getVoxel (setVoxel (newVoxelWorld 32 16 256 64) 0 0 0 256 true) 0 0 0 ≠ 256.
Proof.
  split; [apply wf_newVoxelWorld; lia|]. split; [lia|].
  vm_compute. discriminate.
Qed.

(** C2.  After any history of calls on a new world whose cells can be
    allocated, with safe integers as coordinates, a cell is present in
    [cells] exactly if some [setVoxel] call with [addCell = true] targeted a
    voxel of it; and for every safe coordinate (negative ones included) in a
    cell that no such call targeted, [getVoxel] returns 0, the cell is still
    absent, and the read leaves the store as it was. *)
Theorem cell_present_iff_written (c : Z) (ts tw th : float) (ops : list Op) :
  0 < c → JS.allocatable (c * c * c) → Forall safeOp ops →
  let w := runOps (newVoxelWorld c ts tw th) ops in
  (∀ x y z, safeVoxel x y z →
     (is_Some (getCellForVoxel w x y z) ↔
      ∃ x' y' z' v, OpSetVoxel x' y' z' v true ∈ ops
        ∧ x' / c = x / c ∧ y' / c = y / c ∧ z' / c = z / c))
  ∧ (∀ x y z, safeVoxel x y z →
       (∀ x' y' z' v, OpSetVoxel x' y' z' v true ∈ ops →
          ¬ (x' / c = x / c ∧ y' / c = y / c ∧ z' / c = z / c)) →
       getVoxel w x y z = 0
       ∧ getCellForVoxel w x y z = None
       ∧ applyOp w (OpGetVoxel x y z) = w).
Proof.
  intros Hc _ _ w.
  assert (Hsz : cellSize w = c) by apply cellSize_runOps.
  assert (Hpres : ∀ x y z, is_Some (getCellForVoxel w x y z) ↔
     ∃ x' y' z' v, OpSetVoxel x' y' z' v true ∈ ops
       ∧ x' / c = x / c ∧ y' / c = y / c ∧ z' / c = z / c).
  { intros x y z. unfold getCellForVoxel, w. rewrite present_runOps.
    fold w. simpl. rewrite lookup_empty. split.
    - intros [[? [=]]|(x' & y' & z' & v & Hin & Hk)].
      exists x', y', z', v. split; [done|].
      rewrite (computeCellID_cellSize w (newVoxelWorld c ts tw th)) in Hk by done.
      apply computeCellID_inj in Hk. done.
    - intros (x' & y' & z' & v & Hin & Hk). right.
      exists x', y', z', v. split; [done|].
      rewrite (computeCellID_cellSize w (newVoxelWorld c ts tw th)) by done.
      apply computeCellID_inj. done. }
  split; [by intros x y z _|]. intros x y z _ Hnone.
  assert (E : getCellForVoxel w x y z = None).
  { apply eq_None_not_Some. rewrite Hpres.
    intros (x' & y' & z' & v & Hin & Hk). by eapply Hnone. }
  split; [|done]. by apply getVoxel_missing.
Qed.

Lemma cell_present_iff_written_witness :
  0 < 32 ∧ JS.allocatable (32 * 32 * 32)
  ∧ Forall safeOp [OpSetVoxel 1 2 3 9 true; OpGetVoxel (-1) (-1) (-1)]
  ∧ safeVoxel (-1) (-1) (-1)
  ∧ getVoxel (runOps (newVoxelWorld 32 16 256 64)
                [OpSetVoxel 1 2 3 9 true; OpGetVoxel (-1) (-1) (-1)])
      (-1) (-1) (-1) = 0.
Proof.
  assert (Hc : 0 < 32) by lia.
  assert (Ha : JS.allocatable (32 * 32 * 32))
    by (refine (bool_decide_unpack _ _); vm_compute; exact I).
  assert (Hops : Forall safeOp [OpSetVoxel 1 2 3 9 true; OpGetVoxel (-1) (-1) (-1)])
    by (refine (bool_decide_unpack _ _); vm_compute; exact I).
  assert (Hq : safeVoxel (-1) (-1) (-1))
    by (refine (bool_decide_unpack _ _); vm_compute; exact I).
  split; [exact Hc|]. split; [exact Ha|]. split; [exact Hops|]. split; [exact Hq|].
  refine (proj1 (proj2 (cell_present_iff_written 32 16 256 64
    [OpSetVoxel 1 2 3 9 true; OpGetVoxel (-1) (-1) (-1)] Hc Ha Hops)
    (-1) (-1) (-1) Hq _)).
  intros x' y' z' v Hin (Hx & _).
  apply elem_of_cons in Hin as [Hin|Hin].
  - injection Hin as -> _ _ _. vm_compute in Hx. discriminate.
  - apply elem_of_cons in Hin as [Hin|Hin]; [discriminate|].
    by apply elem_of_nil in Hin.
Defined.

(** C3.  With cell size 32 the cell coordinate is the floor quotient of each
    axis, and the offset is built from the non-negative remainders:
    [x = 32 * cx + lx] with [0 <= lx < 32] (and likewise for y and z), the key
    is ["cx,cy,cz"] and the offset [ly * 32² + lz * 32 + lx].  In particular
    (-1,0,0) lies in cell (-1,0,0), at offset 31. *)
Theorem cell_coordinates_floor (w : VoxelWorld) (x y z : Z) :
  cellSize w = 32 →
  (∃ cx cy cz lx ly lz,
     x = 32 * cx + lx ∧ 0 <= lx < 32
     ∧ y = 32 * cy + ly ∧ 0 <= ly < 32
     ∧ z = 32 * cz + lz ∧ 0 <= lz < 32
     ∧ computeCellID w x y z =
         JS.numberToString cx +:+ "," +:+ JS.numberToString cy +:+ ","
           +:+ JS.numberToString cz
     ∧ computeVoxelOffset w x y z = ly * (32 * 32) + lz * 32 + lx)
  ∧ computeCellID w (-1) 0 0 = "-1,0,0"
  ∧ computeVoxelOffset w (-1) 0 0 = 31.
Proof.
  intros Hc. split.
  - exists (x / 32), (y / 32), (z / 32), (x `mod` 32), (y `mod` 32), (z `mod` 32).
    pose proof (Z.div_mod x 32). pose proof (Z.mod_pos_bound x 32).
    pose proof (Z.div_mod y 32). pose proof (Z.mod_pos_bound y 32).
    pose proof (Z.div_mod z 32). pose proof (Z.mod_pos_bound z 32).
    repeat (split; [lia|]). split.
    + unfold computeCellID, JS.floorDiv. by rewrite Hc.
    + unfold computeVoxelOffset, cellSliceSize. rewrite Hc.
      rewrite !local_range by lia. reflexivity.
  - unfold computeCellID, computeVoxelOffset, cellSliceSize. rewrite Hc.
    split; reflexivity.
Qed.

Lemma cell_coordinates_floor_witness :
  cellSize (newVoxelWorld 32 16 256 64) = 32
  ∧ computeCellID (newVoxelWorld 32 16 256 64) (-1) 0 0 = "-1,0,0"
  ∧ computeVoxelOffset (newVoxelWorld 32 16 256 64) (-1) 0 0 = 31.
Proof.
  split; [reflexivity|].
  exact (proj2 (cell_coordinates_floor (newVoxelWorld 32 16 256 64) (-1) 0 0 eq_refl)).
Defined.

(** C9.  A [setVoxel] call with [addCell = false] on a voxel whose cell is
    absent is dropped: the call returns normally, the world (so the whole
    store) is the one it was given, no cell was inserted, and [getVoxel] still
    returns 0 there.  The single-cell world, which never adds a cell, drops a
    write outside its cell in the same way. *)
Theorem setVoxel_without_addCell_dropped
    (w : VoxelWorld) (x y z v : Z)
    (sw : SingleCell.VoxelWorld) (x' y' z' v' : Z) :
  getCellForVoxel w x y z = None →
  SingleCell.getCellForVoxel sw x' y' z' = None →
  (setVoxel w x y z v false = w
   ∧ getCellForVoxel (setVoxel w x y z v false) x y z = None
   ∧ getVoxel (setVoxel w x y z v false) x y z = 0)
  ∧ (SingleCell.setVoxel sw x' y' z' v' = sw
     ∧ SingleCell.getVoxel (SingleCell.setVoxel sw x' y' z' v') x' y' z' = 0).
Proof.
  intros Hw Hsw. split.
  - assert (E : setVoxel w x y z v false = w).
    { unfold setVoxel. by rewrite Hw. }
    rewrite E. split; [done|]. split; [done|].
    unfold getVoxel. by rewrite Hw.
  - assert (E : SingleCell.setVoxel sw x' y' z' v' = sw).
    { unfold SingleCell.setVoxel. by rewrite Hsw. }
    rewrite E. split; [done|].
    unfold SingleCell.getVoxel. by rewrite Hsw.
Qed.

Lemma setVoxel_without_addCell_dropped_witness :
  getCellForVoxel (setVoxel (newVoxelWorld 32 16 256 64) 0 0 0 3 true) 32 0 0 = None
  ∧ SingleCell.getCellForVoxel (SingleCell.newVoxelWorld 32) (-1) 0 0 = None
  ∧ setVoxel (setVoxel (newVoxelWorld 32 16 256 64) 0 0 0 3 true) 32 0 0 4 false
    = setVoxel (newVoxelWorld 32 16 256 64) 0 0 0 3 true
  ∧ SingleCell.setVoxel (SingleCell.newVoxelWorld 32) (-1) 0 0 4
    = SingleCell.newVoxelWorld 32.
Proof.
  assert (H1 : getCellForVoxel (setVoxel (newVoxelWorld 32 16 256 64) 0 0 0 3 true)
                 32 0 0 = None) by (vm_compute; reflexivity).
  assert (H2 : SingleCell.getCellForVoxel (SingleCell.newVoxelWorld 32) (-1) 0 0 = None)
    by reflexivity.
  split; [exact H1|]. split; [exact H2|].
  pose proof (setVoxel_without_addCell_dropped
    (setVoxel (newVoxelWorld 32 16 256 64) 0 0 0 3 true) 32 0 0 4
    (SingleCell.newVoxelWorld 32) (-1) 0 0 4 H1 H2) as [[E _] [E' _]].
  split; [exact E|exact E'].
Defined.

(** C10.  A cell is a byte array: whatever integer type is written (in a
    world whose cells can be allocated), the value read back is the type
    modulo 256 (256 reads back as 0, empty), so the value read back is the
    value written exactly for the types 0 to 255.  The single-cell world
    stores its voxels in the same kind of array. *)
Theorem voxel_types_stored_mod_256
    (w : VoxelWorld) (x y z v : Z) (sw : SingleCell.VoxelWorld) (x' y' z' : Z) :
  wfWorld w → allocatableWorld w → wfSingle sw →
  0 <= x' < SingleCell.cellSize sw → 0 <= y' < SingleCell.cellSize sw →
  0 <= z' < SingleCell.cellSize sw →
  getVoxel (setVoxel w x y z v true) x y z = v `mod` 256
  ∧ getVoxel (setVoxel w x y z 256 true) x y z = 0
  ∧ (getVoxel (setVoxel w x y z v true) x y z = v ↔ 0 <= v <= 255)
  ∧ SingleCell.getVoxel (SingleCell.setVoxel sw x' y' z' v) x' y' z' = v `mod` 256.
Proof.
  intros Hw _ Hsw Hx Hy Hz.
  rewrite !getVoxel_setVoxel_eq by done.
  rewrite single_getVoxel_setVoxel_eq by done.
  unfold JS.toUint8. split; [done|]. split; [done|]. split; [|done].
  pose proof (Z.mod_pos_bound v 256). split.
  - intros E. lia.
  - intros Hv. apply Z.mod_small. lia.
Qed.

Lemma voxel_types_stored_mod_256_witness :
  wfWorld (newVoxelWorld 32 16 256 64)
  ∧ allocatableWorld (newVoxelWorld 32 16 256 64)
  ∧ wfSingle (SingleCell.newVoxelWorld 32)
  ∧ getVoxel (setVoxel (newVoxelWorld 32 16 256 64) (-5) 70 3 300 true) (-5) 70 3
    = 300 `mod` 256
  ∧ SingleCell.getVoxel
      (SingleCell.setVoxel (SingleCell.newVoxelWorld 32) 1 2 3 300) 1 2 3
    = 300 `mod` 256.
Proof.
  assert (Hw : wfWorld (newVoxelWorld 32 16 256 64))
    by (apply wf_newVoxelWorld; lia).
  assert (Ha : allocatableWorld (newVoxelWorld 32 16 256 64))
    by (refine (bool_decide_unpack _ _); vm_compute; exact I).
  assert (Hsw : wfSingle (SingleCell.newVoxelWorld 32))
    by (apply wf_newSingle; lia).
  split; [exact Hw|]. split; [exact Ha|]. split; [exact Hsw|].
  assert (H1 : 0 <= 1 < SingleCell.cellSize (SingleCell.newVoxelWorld 32)) by (simpl; lia).
  assert (H2 : 0 <= 2 < SingleCell.cellSize (SingleCell.newVoxelWorld 32)) by (simpl; lia).
  assert (H3 : 0 <= 3 < SingleCell.cellSize (SingleCell.newVoxelWorld 32)) by (simpl; lia).
  pose proof (voxel_types_stored_mod_256 (newVoxelWorld 32 16 256 64) (-5) 70 3 300
    (SingleCell.newVoxelWorld 32) 1 2 3 Hw Ha Hsw H1 H2 H3) as (E & _ & _ & E').
  split; [exact E|exact E'].
Defined.

(** ** Mesh extraction: the loop emits the visible faces, in order *)

Lemma pushCorner_fold w f uvVoxel x y z cs g :
  foldl (pushCorner w f uvVoxel x y z) g cs =
    mkGeometry
      (positions g ++ (c ← cs; [(pos c).1.1 + x; (pos c).1.2 + y; (pos c).2 + z]))
      (normals g ++ (c ← cs; [(dir f).1.1; (dir f).1.2; (dir f).2]))
      (uvs g ++ (c ← cs;
         [ (JS.ofZ (uvVoxel + (uv c).1) * tileSize w / tileTextureWidth w)%float;
           (1 - JS.ofZ (uvRow f + 1 - (uv c).2) * tileSize w / tileTextureHeight w)%float ]))
      (indices g).
Proof.
  revert g. induction cs as [|c cs IH]; intros g.
  - simpl. rewrite !app_nil_r. by destruct g.
  - simpl. rewrite IH. unfold pushCorner.
    destruct c as [[[p0 p1] p2] [u0 u1]], f as [r [[d0 d1] d2] cs']. simpl.
    rewrite <- !app_assoc. reflexivity.
Qed.

Lemma emitFace_eq w uvVoxel x y z g f :
  emitFace w uvVoxel x y z g f =
    mkGeometry (positions g ++ facePositions f x y z)
      (normals g ++ faceNormals f)
      (uvs g ++ faceUvs w f uvVoxel)
      (indices g ++ quadIndices (Z.of_nat (length (positions g)) / 3)).
Proof. unfold emitFace. rewrite pushCorner_fold. reflexivity. Qed.

Lemma renderQuads_app w g l1 l2 :
  renderQuads w g (l1 ++ l2) = renderQuads w (renderQuads w g l1) l2.
Proof. apply foldl_app. Qed.

Lemma renderQuads_bind {A} w (F : A → list Quad) l g :
  foldl (fun g a => renderQuads w g (F a)) g l = renderQuads w g (l ≫= F).
Proof.
  revert g. induction l as [|a l IH]; intros g; [done|].
  rewrite bind_cons, renderQuads_app. cbn [foldl]. apply IH.
Qed.

Lemma visitFace_fold w voxelX voxelY voxelZ uvVoxel x y z fs g :
  foldl (visitFace w voxelX voxelY voxelZ uvVoxel x y z) g fs =
    renderQuads w g
      ((fun f => (x, y, z, uvVoxel, f)) <$> filter (faceVisible w voxelX voxelY voxelZ) fs).
Proof.
  revert g. induction fs as [|f fs IH]; intros g; [done|].
  cbn [foldl]. rewrite IH. unfold visitFace.
  destruct (dir f) as [[d0 d1] d2] eqn:Ed.
  destruct (JS.truthy (getVoxel w (voxelX + d0) (voxelY + d1) (voxelZ + d2))) eqn:Et.
  - rewrite filter_cons_False; [done|].
    unfold faceVisible. rewrite Ed. simpl. by rewrite Et.
  - rewrite filter_cons_True; [done|].
    unfold faceVisible. rewrite Ed. simpl. by rewrite Et.
Qed.

Lemma visitVoxel_eq w startX startY startZ x y z g :
  visitVoxel w startX (startY + y) (startZ + z) y z g x =
    renderQuads w g (voxelQuads w startX startY startZ x y z).
Proof.
  unfold visitVoxel, voxelQuads.
  destruct (JS.truthy (getVoxel w (startX + x) (startY + y) (startZ + z))); [|done].
  apply visitFace_fold.
Qed.

Lemma foldl_ext {A B} (f h : A → B → A) (l : list B) (a : A) :
  (∀ a b, f a b = h a b) → foldl f a l = foldl h a l.
Proof.
  intros Hfh. revert a. induction l as [|b l IH]; intros a; [done|].
  simpl. by rewrite Hfh, IH.
Qed.

(** The nested loops produce the quads of [cellQuads], rendered in order. *)
Lemma generate_as_quads w cellX cellY cellZ :
  generateGeometryDataForCell w cellX cellY cellZ =
    renderQuads w emptyGeometry (cellQuads w cellX cellY cellZ).
Proof.
  unfold generateGeometryDataForCell, cellQuads.
  rewrite <- renderQuads_bind. apply foldl_ext. intros g y.
  rewrite <- renderQuads_bind. apply foldl_ext. intros g' z.
  rewrite <- renderQuads_bind. apply foldl_ext. intros g'' x.
  apply visitVoxel_eq.
Qed.

(** ** The output arrays, quad by quad *)

(** Case analysis on membership in the face table. *)
Ltac face_cases H :=
  unfold faces in H;
  repeat (apply elem_of_cons in H as [->|H]);
  [..|by apply elem_of_nil in H].

Lemma face_corners f : f ∈ faces → length (corners f) = 4%nat.
Proof. intros Hf. face_cases Hf; reflexivity. Qed.

Lemma facePositions_length f x y z :
  f ∈ faces → length (facePositions f x y z) = 12%nat.
Proof. intros Hf. face_cases Hf; reflexivity. Qed.

Lemma faceNormals_length f : f ∈ faces → length (faceNormals f) = 12%nat.
Proof. intros Hf. face_cases Hf; reflexivity. Qed.

Lemma faceUvs_length w f uvVoxel : f ∈ faces → length (faceUvs w f uvVoxel) = 8%nat.
Proof. intros Hf. face_cases Hf; reflexivity. Qed.

(** A face of the table is known by its normal. *)
Lemma faceNormals_inj f f' :
  f ∈ faces → f' ∈ faces → faceNormals f = faceNormals f' → f = f'.
Proof.
  intros Hf Hf'. face_cases Hf; face_cases Hf'; intros E;
    first [reflexivity | discriminate E].
Qed.

(** The vertices of a face tell where its voxel is. *)
Lemma facePositions_inj f x y z x' y' z' :
  f ∈ faces → facePositions f x y z = facePositions f x' y' z' →
  x = x' ∧ y = y' ∧ z = z'.
Proof.
  intros Hf. face_cases Hf; intros E; injection E; intros; lia.
Qed.

Lemma renderQuads_cons w g q l :
  renderQuads w g (q :: l) =
    renderQuads w (emitFace w q.1.2 q.1.1.1.1 q.1.1.1.2 q.1.1.2 g q.2) l.
Proof. by destruct q as [[[[x y] z] u] f]. Qed.

Lemma renderQuads_positions w l g :
  positions (renderQuads w g l) =
    positions g ++ (q ← l; facePositions q.2 q.1.1.1.1 q.1.1.1.2 q.1.1.2).
Proof.
  revert g. induction l as [|q l IH]; intros g.
  - simpl. by rewrite app_nil_r.
  - rewrite renderQuads_cons, IH, emitFace_eq, bind_cons. simpl.
    by rewrite <- app_assoc.
Qed.

Lemma renderQuads_normals w l g :
  normals (renderQuads w g l) = normals g ++ (q ← l; faceNormals q.2).
Proof.
  revert g. induction l as [|q l IH]; intros g.
  - simpl. by rewrite app_nil_r.
  - rewrite renderQuads_cons, IH, emitFace_eq, bind_cons. simpl.
    by rewrite <- app_assoc.
Qed.

Lemma renderQuads_uvs w l g :
  uvs (renderQuads w g l) = uvs g ++ (q ← l; faceUvs w q.2 q.1.2).
Proof.
  revert g. induction l as [|q l IH]; intros g.
  - simpl. by rewrite app_nil_r.
  - rewrite renderQuads_cons, IH, emitFace_eq, bind_cons. simpl.
    by rewrite <- app_assoc.
Qed.

Lemma renderQuads_indices w l g n :
  Forall tableQuad l → Z.of_nat (length (positions g)) = 3 * n →
  indices (renderQuads w g l) = indices g ++ indicesFrom n l.
Proof.
  revert g n. induction l as [|q l IH]; intros g n Hl Hg.
  - simpl. by rewrite app_nil_r.
  - inversion_clear Hl as [|? ? Hq Hl'].
    rewrite renderQuads_cons, (IH _ (n + 4)), emitFace_eq; [|done|].
    + simpl. rewrite <- app_assoc. do 3 f_equal.
      rewrite Hg, Z.mul_comm, Z.div_mul by lia. reflexivity.
    + rewrite emitFace_eq. simpl.
      rewrite length_app, facePositions_length by done. lia.
Qed.

Lemma bind_length_const {A B} (F : A → list B) (n : nat) (l : list A) :
  Forall (fun a => length (F a) = n) l → length (l ≫= F) = (n * length l)%nat.
Proof.
  induction 1 as [|a l Ha Hl IH]; [simpl; lia|].
  rewrite bind_cons, length_app, Ha, IH. simpl. lia.
Qed.

Lemma indicesFrom_length n l : length (indicesFrom n l) = (6 * length l)%nat.
Proof.
  revert n. induction l as [|q l IH]; intros n; [done|].
  simpl. rewrite IH. lia.
Qed.

(** The sizes of the four arrays after [l] quads. *)
Lemma renderQuads_sizes w l :
  Forall tableQuad l →
  let g := renderQuads w emptyGeometry l in
  length (positions g) = (12 * length l)%nat
  ∧ length (normals g) = (12 * length l)%nat
  ∧ length (uvs g) = (8 * length l)%nat
  ∧ length (indices g) = (6 * length l)%nat.
Proof.
  intros Hl g. unfold g.
  rewrite renderQuads_positions, renderQuads_normals, renderQuads_uvs.
  rewrite (renderQuads_indices w l emptyGeometry 0) by done.
  unfold emptyGeometry. cbn [positions normals uvs indices app].
  rewrite indicesFrom_length. repeat split; try done.
  - apply bind_length_const, list.Forall_forall. intros q Hq.
    apply facePositions_length. by apply (proj1 (list.Forall_forall _ _) Hl).
  - apply bind_length_const, list.Forall_forall. intros q Hq.
    apply faceNormals_length. by apply (proj1 (list.Forall_forall _ _) Hl).
  - apply bind_length_const, list.Forall_forall. intros q Hq.
    apply faceUvs_length. by apply (proj1 (list.Forall_forall _ _) Hl).
Qed.

Lemma take_drop_bind {A B} (F : A → list B) (n : nat) (l : list A) (k : nat) :
  Forall (fun a => length (F a) = n) l →
  take n (drop (n * k) (l ≫= F)) = from_option F [] (l !! k).
Proof.
  intros Hl. revert k. induction Hl as [|a l Ha Hl IH]; intros k.
  - change ([] ≫= F) with (@nil B). by rewrite drop_nil, take_nil.
  - rewrite bind_cons. destruct k as [|k].
    + rewrite Nat.mul_0_r, drop_0. cbn [lookup list_lookup from_option].
      by apply take_app_length'.
    + replace (n * S k)%nat with (n + n * k)%nat by lia.
      rewrite drop_app_add' by done. apply IH.
Qed.

Lemma indicesFrom_block n l k :
  take 6 (drop (6 * k) (indicesFrom n l)) =
    if decide (k < length l)%nat then quadIndices (n + 4 * Z.of_nat k) else [].
Proof.
  revert n k. induction l as [|q l IH]; intros n k.
  - cbn [indicesFrom]. rewrite drop_nil, take_nil.
    by rewrite decide_False by (simpl; lia).
  - cbn [indicesFrom]. destruct k as [|k].
    + rewrite Nat.mul_0_r, drop_0. rewrite decide_True by (simpl; lia).
      rewrite take_app_length' by done. by rewrite Z.add_0_r.
    + replace (6 * S k)%nat with (6 + 6 * k)%nat by lia.
      rewrite drop_app_add' by done. rewrite IH.
      destruct (decide (k < length l)%nat).
      * rewrite decide_True by (simpl; lia). f_equal. lia.
      * by rewrite decide_False by (simpl; lia).
Qed.

(** The [k]-th quad of the arrays is the [k]-th quad rendered. *)
Lemma quadAt_render w l k x y z f :
  Forall tableQuad l → f ∈ faces →
  quadAt (renderQuads w emptyGeometry l) k x y z f ↔
  ∃ u, l !! k = Some (x, y, z, u, f).
Proof.
  intros Hl Hf. unfold quadAt.
  rewrite renderQuads_positions, renderQuads_normals.
  rewrite (renderQuads_indices w l emptyGeometry 0) by done.
  unfold emptyGeometry. cbn [positions normals indices app].
  rewrite (take_drop_bind _ 12), (take_drop_bind _ 12), indicesFrom_block.
  2:{ apply list.Forall_forall. intros q Hq.
      apply faceNormals_length. by apply (proj1 (list.Forall_forall _ _) Hl). }
  2:{ apply list.Forall_forall. intros q Hq.
      apply facePositions_length. by apply (proj1 (list.Forall_forall _ _) Hl). }
  destruct (l !! k) as [[[[[x' y'] z'] u'] f']|] eqn:E; simpl.
  - assert (Hf' : f' ∈ faces).
    { apply (proj1 (list.Forall_forall tableQuad l) Hl (x', y', z', u', f')).
      apply list_elem_of_lookup. eauto. }
    split.
    + intros (Hp & Hn & _). apply faceNormals_inj in Hn; [|done..]. subst f'.
      apply facePositions_inj in Hp as (-> & -> & ->); [|done]. eauto.
    + intros [u [= -> -> -> -> ->]]. split; [done|]. split; [done|].
      apply lookup_lt_Some in E. by rewrite decide_True by done.
  - split; [|by intros [? [=]]]. intros (Hp & _).
    pose proof (facePositions_length f x y z Hf) as Hlen.
    rewrite <- Hp in Hlen. done.
Qed.

Lemma emitsQuad_render w l x y z f :
  Forall tableQuad l → f ∈ faces →
  emitsQuad (renderQuads w emptyGeometry l) x y z f ↔
  ∃ u, (x, y, z, u, f) ∈ l.
Proof.
  intros Hl Hf. unfold emitsQuad. split.
  - intros [k Hk]. apply quadAt_render in Hk as [u Hu]; [|done..].
    exists u. apply list_elem_of_lookup. eauto.
  - intros [u Hu]. apply list_elem_of_lookup in Hu as [k Hk].
    exists k. apply quadAt_render; eauto.
Qed.

Lemma elem_of_upTo n k : k ∈ upTo n ↔ 0 <= k < n.
Proof. unfold upTo. rewrite elem_of_seqZ. lia. Qed.

(** Which quads a cell has. *)
Lemma elem_of_cellQuads w cellX cellY cellZ x y z u f :
  (x, y, z, u, f) ∈ cellQuads w cellX cellY cellZ ↔
  (0 <= x < cellSize w ∧ 0 <= y < cellSize w ∧ 0 <= z < cellSize w)
  ∧ f ∈ faces
  ∧ getVoxel w (cellX * cellSize w + x) (cellY * cellSize w + y)
      (cellZ * cellSize w + z) ≠ 0
  ∧ u = getVoxel w (cellX * cellSize w + x) (cellY * cellSize w + y)
          (cellZ * cellSize w + z) - 1
  ∧ faceVisible w (cellX * cellSize w + x) (cellY * cellSize w + y)
      (cellZ * cellSize w + z) f.
Proof.
  unfold cellQuads. rewrite list_elem_of_bind. split.
  - intros (y' & Hin & Hy). apply list_elem_of_bind in Hin as (z' & Hin & Hz).
    apply list_elem_of_bind in Hin as (x' & Hin & Hx).
    apply elem_of_upTo in Hx, Hy, Hz. unfold voxelQuads in Hin.
    destruct (JS.truthy (getVoxel w _ _ _)) eqn:Et; [|by apply elem_of_nil in Hin].
    apply list_elem_of_fmap in Hin as (f' & [= -> -> -> -> ->] & Hf').
    apply list_elem_of_filter in Hf' as [Hvis Hf'].
    apply truthy_true in Et. done.
  - intros ((Hx & Hy & Hz) & Hf & Hv & -> & Hvis).
    exists y. split; [|by apply elem_of_upTo].
    apply list_elem_of_bind. exists z. split; [|by apply elem_of_upTo].
    apply list_elem_of_bind. exists x. split; [|by apply elem_of_upTo].
    unfold voxelQuads. apply truthy_true in Hv. rewrite Hv.
    apply list_elem_of_fmap. exists f. split; [done|].
    apply list_elem_of_filter. done.
Qed.

Lemma cellQuads_table w cellX cellY cellZ :
  Forall tableQuad (cellQuads w cellX cellY cellZ).
Proof.
  apply list.Forall_forall. intros [[[[x y] z] u] f] Hq.
  apply elem_of_cellQuads in Hq. unfold tableQuad. simpl. tauto.
Qed.

(** A face of a voxel is in the output exactly if the voxel is in the cell
    and non-empty and its neighbor through the face is empty. *)
Lemma emitsQuad_generate w cellX cellY cellZ x y z f :
  f ∈ faces →
  emitsQuad (generateGeometryDataForCell w cellX cellY cellZ) x y z f ↔
  (0 <= x < cellSize w ∧ 0 <= y < cellSize w ∧ 0 <= z < cellSize w)
  ∧ getVoxel w (cellX * cellSize w + x) (cellY * cellSize w + y)
      (cellZ * cellSize w + z) ≠ 0
  ∧ getVoxel w (cellX * cellSize w + x + (dir f).1.1)
      (cellY * cellSize w + y + (dir f).1.2)
      (cellZ * cellSize w + z + (dir f).2) = 0.
Proof.
  intros Hf. rewrite generate_as_quads.
  rewrite emitsQuad_render by auto using cellQuads_table.
  unfold faceVisible. setoid_rewrite elem_of_cellQuads.
  setoid_rewrite truthy_false. split.
  - intros (u & ? & ? & ? & ? & ?). done.
  - intros (? & ? & ?). eexists. repeat split; try done; lia.
Qed.

(** ** A cell with a single solid voxel *)

Lemma bind_all_nil {A B} (F : A → list B) (l : list A) :
  (∀ a, a ∈ l → F a = []) → l ≫= F = [].
Proof.
  induction l as [|a l IH]; intros HF; [done|].
  rewrite bind_cons, HF by left.
  rewrite IH; [done|].
  intros b Hb. apply HF. by right.
Qed.

Lemma upTo_split n k : 0 <= k < n →
  upTo n = seqZ 0 k ++ k :: seqZ (k + 1) (n - k - 1).
Proof.
  intros Hk. unfold upTo.
  replace n with (k + (n - k)) at 1 by lia.
  rewrite seqZ_app by lia. f_equal.
  rewrite seqZ_cons by lia. repeat f_equal; lia.
Qed.

(** A loop in which only the iteration [k] emits anything. *)
Lemma bind_upTo_single {B} (F : Z → list B) n k :
  0 <= k < n → (∀ i, 0 <= i < n → i ≠ k → F i = []) →
  upTo n ≫= F = F k.
Proof.
  intros Hk HF. rewrite (upTo_split n k) by done.
  rewrite bind_app, bind_cons.
  rewrite !bind_all_nil.
  - by rewrite app_nil_r.
  - intros i Hi. apply elem_of_seqZ in Hi. apply HF; lia.
  - intros i Hi. apply elem_of_seqZ in Hi. apply HF; lia.
Qed.

Lemma filter_all {A} (P : A → Prop) `{∀ a, Decision (P a)} (l : list A) :
  (∀ a, a ∈ l → P a) → filter P l = l.
Proof.
  induction l as [|a l IH]; intros HP; [done|].
  rewrite filter_cons_True by (apply HP; left).
  f_equal. apply IH. intros b Hb. apply HP. by right.
Qed.

Lemma face_dir_unit f : f ∈ faces →
  Z.abs (dir f).1.1 + Z.abs (dir f).1.2 + Z.abs (dir f).2 = 1.
Proof. intros Hf. face_cases Hf; reflexivity. Qed.

Lemma voxelQuads_empty w startX startY startZ x y z :
  getVoxel w (startX + x) (startY + y) (startZ + z) = 0 →
  voxelQuads w startX startY startZ x y z = [].
Proof. intros E. unfold voxelQuads. by rewrite E. Qed.

(** The quads of a cell whose only solid voxel is at [(x,y,z)] and touches no
    solid voxel: the six faces of that voxel, in table order. *)
Lemma cellQuads_single w cellX cellY cellZ x y z :
  (0 <= x < cellSize w ∧ 0 <= y < cellSize w ∧ 0 <= z < cellSize w) →
  getVoxel w (cellX * cellSize w + x) (cellY * cellSize w + y)
    (cellZ * cellSize w + z) ≠ 0 →
  (∀ x' y' z',
     0 <= x' < cellSize w → 0 <= y' < cellSize w → 0 <= z' < cellSize w →
     (x', y', z') ≠ (x, y, z) →
     getVoxel w (cellX * cellSize w + x') (cellY * cellSize w + y')
       (cellZ * cellSize w + z') = 0) →
  (∀ dx dy dz, Z.abs dx + Z.abs dy + Z.abs dz = 1 →
     getVoxel w (cellX * cellSize w + x + dx) (cellY * cellSize w + y + dy)
       (cellZ * cellSize w + z + dz) = 0) →
  cellQuads w cellX cellY cellZ =
    (fun f => (x, y, z,
               getVoxel w (cellX * cellSize w + x) (cellY * cellSize w + y)
                 (cellZ * cellSize w + z) - 1, f)) <$> faces.
Proof.
  intros (Hx & Hy & Hz) Hv Hothers Hnb. unfold cellQuads.
  rewrite (bind_upTo_single _ _ y) by
    (try done; intros y' Hy' Hne; apply bind_all_nil; intros z' Hz';
     apply elem_of_upTo in Hz'; apply bind_all_nil; intros x' Hx';
     apply elem_of_upTo in Hx'; apply voxelQuads_empty, Hothers;
     try done; congruence).
  rewrite (bind_upTo_single _ _ z) by
    (try done; intros z' Hz' Hne; apply bind_all_nil; intros x' Hx';
     apply elem_of_upTo in Hx'; apply voxelQuads_empty, Hothers;
     try done; congruence).
  rewrite (bind_upTo_single _ _ x) by
    (try done; intros x' Hx' Hne; apply voxelQuads_empty, Hothers;
     try done; congruence).
  unfold voxelQuads. apply truthy_true in Hv. rewrite Hv.
  rewrite filter_all; [done|].
  intros f Hf. unfold faceVisible. apply truthy_false, Hnb.
  by apply face_dir_unit.
Qed.

(** ** The single-cell extraction is the chunked one without textures *)

Lemma single_faces : SingleCell.faces = asSingleFace <$> faces.
Proof. reflexivity. Qed.

Lemma asChunked_getVoxel sw x y z : 0 < SingleCell.cellSize sw →
  getVoxel (asChunked sw) x y z = SingleCell.getVoxel sw x y z.
Proof.
  intros Hc. unfold getVoxel, SingleCell.getVoxel, getCellForVoxel.
  rewrite single_getCell by done.
  change (cells (asChunked sw)) with ({[ "0,0,0" := SingleCell.cell sw ]} : gmap string (list Z)).
  rewrite lookup_singleton. case_decide as Hk.
  - change "0,0,0" with (computeCellID (asChunked sw) 0 0 0) in Hk.
    apply computeCellID_inj in Hk. simpl in Hk.
    rewrite Z.div_0_l in Hk by lia. destruct Hk as (Hx & Hy & Hz).
    symmetry in Hx, Hy, Hz. apply Z.div_small_iff in Hx, Hy, Hz; try lia.
    rewrite decide_True by lia. reflexivity.
  - rewrite decide_False; [done|]. intros (Hx & Hy & Hz). apply Hk.
    change "0,0,0" with (computeCellID (asChunked sw) 0 0 0).
    apply computeCellID_inj. simpl.
    rewrite Z.div_0_l, !Z.div_small by lia. done.
Qed.

Lemma foldl_sim {A A' B B'} (R : A → A' → Prop) (f : A → B → A)
    (f' : A' → B' → A') (h : B → B') (l : list B) a a' :
  R a a' → (∀ a a' b, R a a' → R (f a b) (f' a' (h b))) →
  R (foldl f a l) (foldl f' a' (h <$> l)).
Proof.
  intros Ha Hstep. revert a a' Ha.
  induction l as [|b l IH]; intros a a' Ha; [done|].
  simpl. apply IH. by apply Hstep.
Qed.

Lemma foldl_sim_same {A A' B} (R : A → A' → Prop) (f : A → B → A)
    (f' : A' → B → A') (l : list B) a a' :
  R a a' → (∀ a a' b, R a a' → R (f a b) (f' a' b)) →
  R (foldl f a l) (foldl f' a' l).
Proof.
  intros Ha Hstep. rewrite <- (list_fmap_id l) at 2. by apply foldl_sim.
Qed.

Lemma sameMesh_emitFace w uvVoxel x y z sg g f :
  sameMesh sg g →
  sameMesh (SingleCell.emitFace x y z sg (asSingleFace f))
    (emitFace w uvVoxel x y z g f).
Proof.
  intros Hg. unfold SingleCell.emitFace, emitFace.
  assert (Hc : sameMesh
    (foldl (SingleCell.pushVertex (asSingleFace f) x y z) sg
       (pos <$> corners f))
    (foldl (pushCorner w f uvVoxel x y z) g (corners f))).
  { apply (foldl_sim (fun g sg => sameMesh sg g)
             (pushCorner w f uvVoxel x y z)
             (SingleCell.pushVertex (asSingleFace f) x y z) pos); [done|].
    intros g1 sg1 c (Hp & Hn & Hi).
    unfold SingleCell.pushVertex, pushCorner, sameMesh. simpl.
    destruct (pos c) as [[p0 p1] p2], (dir f) as [[d0 d1] d2], (uv c) as [u0 u1].
    simpl. by rewrite Hp, Hn, Hi. }
  destruct Hg as (Hp & Hn & Hi), Hc as (Hp' & Hn' & Hi').
  unfold sameMesh. simpl. by rewrite Hp, Hp', Hn', Hi'.
Qed.

Lemma sameMesh_generate sw cellX cellY cellZ :
  0 < SingleCell.cellSize sw →
  sameMesh (SingleCell.generateGeometryDataForCell sw cellX cellY cellZ)
    (generateGeometryDataForCell (asChunked sw) cellX cellY cellZ).
Proof.
  intros Hc.
  unfold SingleCell.generateGeometryDataForCell, generateGeometryDataForCell.
  change (cellSize (asChunked sw)) with (SingleCell.cellSize sw).
  set (c := SingleCell.cellSize sw).
  apply (foldl_sim_same (fun g sg => sameMesh sg g)); [done|].
  intros g1 sg1 y H1.
  apply (foldl_sim_same (fun g sg => sameMesh sg g)); [done|].
  intros g2 sg2 z H2.
  apply (foldl_sim_same (fun g sg => sameMesh sg g)); [done|].
  intros g3 sg3 x H3. simpl.
  unfold SingleCell.visitVoxel, visitVoxel.
  rewrite asChunked_getVoxel by done.
  destruct (JS.truthy (SingleCell.getVoxel sw _ _ _)); [|done].
  rewrite single_faces.
  apply (foldl_sim (fun g sg => sameMesh sg g)); [done|].
  intros g4 sg4 f H4.
  unfold SingleCell.visitFace, visitFace. simpl.
  destruct (dir f) as [[d0 d1] d2] eqn:Ed.
  rewrite asChunked_getVoxel by done.
  destruct (JS.truthy (SingleCell.getVoxel sw _ _ _)); [done|].
  by apply sameMesh_emitFace.
Qed.

Lemma lone_voxel_sizes w cellX cellY cellZ x y z :
  loneVoxel (getVoxel w) (cellSize w) cellX cellY cellZ x y z →
  let g := generateGeometryDataForCell w cellX cellY cellZ in
  length (positions g) = 72%nat ∧ length (normals g) = 72%nat
  ∧ length (uvs g) = 48%nat ∧ length (indices g) = 36%nat.
Proof.
  intros (Hr & Hv & Hothers & Hnb) g. unfold g.
  rewrite generate_as_quads.
  pose proof (cellQuads_table w cellX cellY cellZ) as Ht.
  rewrite (cellQuads_single w cellX cellY cellZ x y z) in * by done.
  exact (renderQuads_sizes w _ Ht).
Qed.

(** C4.  When a cell holds exactly one solid voxel and the six neighbors of
    that voxel are empty (whether they lie in the cell, in another cell, or
    in a cell that was never created), extraction of that cell emits exactly
    six quads: 24 vertices (72 position numbers, 72 normal numbers, 48
    texture coordinates) and 36 indices.  The single-cell world emits the
    same 72 position numbers, 72 normal numbers and 36 indices.  The cell is
    one whose coordinates, from one voxel below it to one voxel above it, are
    safe integers. *)
Theorem lone_voxel_six_quads
    (w : VoxelWorld) (cellX cellY cellZ x y z : Z)
    (sw : SingleCell.VoxelWorld) (cellX' cellY' cellZ' x' y' z' : Z) :
  safeCell (cellSize w) cellX cellY cellZ →
  safeCell (SingleCell.cellSize sw) cellX' cellY' cellZ' →
  loneVoxel (getVoxel w) (cellSize w) cellX cellY cellZ x y z →
  loneVoxel (SingleCell.getVoxel sw) (SingleCell.cellSize sw)
    cellX' cellY' cellZ' x' y' z' →
  (let g := generateGeometryDataForCell w cellX cellY cellZ in
   length (positions g) = 72%nat ∧ length (normals g) = 72%nat
   ∧ length (uvs g) = 48%nat ∧ length (indices g) = 36%nat
   ∧ quadCount g = 6
   ∧ ∀ f, f ∈ faces → emitsQuad g x y z f)
  ∧ (let sg := SingleCell.generateGeometryDataForCell sw cellX' cellY' cellZ' in
     length (SingleCell.positions sg) = 72%nat
     ∧ length (SingleCell.normals sg) = 72%nat
     ∧ length (SingleCell.indices sg) = 36%nat).
Proof.
  intros _ _ Hw Hsw. split.
  - destruct (lone_voxel_sizes w cellX cellY cellZ x y z Hw) as (Hp & Hn & Hu & Hi).
    intros g. fold g in Hp, Hn, Hu, Hi.
    repeat (split; [done|]). split.
    + unfold quadCount. by rewrite Hi.
    + intros f Hf. apply emitsQuad_generate; [done|].
      destruct Hw as (Hr & Hv & _ & Hnb). split; [done|]. split; [done|].
      apply Hnb. by apply face_dir_unit.
  - assert (Hc : 0 < SingleCell.cellSize sw) by (destruct Hsw as ((? & _) & _); lia).
    assert (Hw' : loneVoxel (getVoxel (asChunked sw)) (cellSize (asChunked sw))
                    cellX' cellY' cellZ' x' y' z').
    { destruct Hsw as (Hr & Hv & Hothers & Hnb). unfold loneVoxel.
      setoid_rewrite asChunked_getVoxel; done. }
    destruct (lone_voxel_sizes _ _ _ _ _ _ _ Hw') as (Hp & Hn & _ & Hi).
    destruct (sameMesh_generate sw cellX' cellY' cellZ' Hc) as (Ep & En & Ei).
    intros sg. unfold sg. by rewrite Ep, En, Ei.
Qed.

Lemma unit_step_cases dx dy dz : Z.abs dx + Z.abs dy + Z.abs dz = 1 →
  (dx, dy, dz) ∈ [(-1, 0, 0); (1, 0, 0); (0, -1, 0); (0, 1, 0); (0, 0, -1); (0, 0, 1)].
Proof.
  intros H.
  assert (dx = -1 ∧ dy = 0 ∧ dz = 0 ∨ dx = 1 ∧ dy = 0 ∧ dz = 0
          ∨ dx = 0 ∧ dy = -1 ∧ dz = 0 ∨ dx = 0 ∧ dy = 1 ∧ dz = 0
          ∨ dx = 0 ∧ dy = 0 ∧ dz = -1 ∨ dx = 0 ∧ dy = 0 ∧ dz = 1)
    as [C|[C|[C|[C|[C|C]]]]] by lia;
    destruct C as (-> & -> & ->); set_solver.
Qed.

Lemma below_two_cases k : 0 <= k < 2 → k = 0 ∨ k = 1.
Proof. lia. Qed.

Lemma cornerWorld_lone :
  loneVoxel (getVoxel cornerWorld) (cellSize cornerWorld) 0 0 0 1 1 1.
Proof.
  unfold loneVoxel. change (cellSize cornerWorld) with 2.
  split; [lia|]. split; [by vm_compute|]. split.
  - intros x' y' z' Hx Hy Hz Hne.
    apply below_two_cases in Hx as [-> | ->], Hy as [-> | ->], Hz as [-> | ->];
      first [by vm_compute | done].
  - intros dx dy dz Hd. apply unit_step_cases in Hd.
    repeat (apply elem_of_cons in Hd as [[= -> -> ->]|Hd]; [by vm_compute|]).
    by apply elem_of_nil in Hd.
Qed.

Lemma cornerSingle_lone :
  loneVoxel (SingleCell.getVoxel cornerSingle) (SingleCell.cellSize cornerSingle)
    0 0 0 1 1 1.
Proof.
  unfold loneVoxel. change (SingleCell.cellSize cornerSingle) with 2.
  split; [lia|]. split; [by vm_compute|]. split.
  - intros x' y' z' Hx Hy Hz Hne.
    apply below_two_cases in Hx as [-> | ->], Hy as [-> | ->], Hz as [-> | ->];
      first [by vm_compute | done].
  - intros dx dy dz Hd. apply unit_step_cases in Hd.
    repeat (apply elem_of_cons in Hd as [[= -> -> ->]|Hd]; [by vm_compute|]).
    by apply elem_of_nil in Hd.
Qed.

Lemma lone_voxel_six_quads_witness :
  safeCell (cellSize cornerWorld) 0 0 0
  ∧ safeCell (SingleCell.cellSize cornerSingle) 0 0 0
  ∧ loneVoxel (getVoxel cornerWorld) (cellSize cornerWorld) 0 0 0 1 1 1
  ∧ loneVoxel (SingleCell.getVoxel cornerSingle) (SingleCell.cellSize cornerSingle)
      0 0 0 1 1 1
  ∧ length (positions (generateGeometryDataForCell cornerWorld 0 0 0)) = 72%nat
  ∧ length (indices (generateGeometryDataForCell cornerWorld 0 0 0)) = 36%nat
  ∧ length (SingleCell.positions
              (SingleCell.generateGeometryDataForCell cornerSingle 0 0 0)) = 72%nat
  ∧ length (SingleCell.indices
              (SingleCell.generateGeometryDataForCell cornerSingle 0 0 0)) = 36%nat.
Proof.
  assert (Hs : safeCell (cellSize cornerWorld) 0 0 0)
    by (refine (bool_decide_unpack _ _); vm_compute; exact I).
  assert (Hs' : safeCell (SingleCell.cellSize cornerSingle) 0 0 0)
    by (refine (bool_decide_unpack _ _); vm_compute; exact I).
  split; [exact Hs|]. split; [exact Hs'|].
  split; [exact cornerWorld_lone|]. split; [exact cornerSingle_lone|].
  destruct (lone_voxel_six_quads cornerWorld 0 0 0 1 1 1 cornerSingle 0 0 0 1 1 1
              Hs Hs' cornerWorld_lone cornerSingle_lone)
    as [(Hp & _ & _ & Hi & _) (Hp' & _ & Hi')].
  repeat split; assumption.
Defined.

(** ** Two solid voxels side by side *)

Lemma face_dir_inj f f' : f ∈ faces → f' ∈ faces → dir f = dir f' → f = f'.
Proof.
  intros Hf Hf'. face_cases Hf; face_cases Hf'; intros E;
    first [reflexivity | discriminate E].
Qed.

Lemma cell_local c p : 0 < c → p / c * c + p `mod` c = p.
Proof. intros Hc. rewrite (Z.div_mod p c) at 3 by lia. lia. Qed.

(** *** No face is emitted twice *)

Lemma NoDup_faces : NoDup faces.
Proof. refine (bool_decide_unpack _ _). by vm_compute. Qed.

Lemma NoDup_voxelQuads w startX startY startZ x y z :
  NoDup (voxelQuads w startX startY startZ x y z).
Proof.
  unfold voxelQuads. destruct (JS.truthy _); [|apply NoDup_nil_2].
  apply NoDup_fmap_2; [by intros f f' [=]|].
  apply list.NoDup_filter, NoDup_faces.
Qed.

Lemma elem_of_voxelQuads w startX startY startZ x y z q :
  q ∈ voxelQuads w startX startY startZ x y z →
  q.1.1.1.1 = x ∧ q.1.1.1.2 = y ∧ q.1.1.2 = z.
Proof.
  unfold voxelQuads. destruct (JS.truthy _); [|by intros ?%elem_of_nil].
  intros (f & -> & _)%list_elem_of_fmap. done.
Qed.

Lemma NoDup_cellQuads w cellX cellY cellZ : NoDup (cellQuads w cellX cellY cellZ).
Proof.
  unfold cellQuads, upTo.
  apply NoDup_bind; [| |apply NoDup_seqZ].
  { intros y1 y2 q _ _ (z1 & (x1 & H1 & _)%list_elem_of_bind & _)%list_elem_of_bind
      (z2 & (x2 & H2 & _)%list_elem_of_bind & _)%list_elem_of_bind.
    apply elem_of_voxelQuads in H1, H2. destruct H1 as (_ & <- & _). tauto. }
  intros y _. apply NoDup_bind; [| |apply NoDup_seqZ].
  { intros z1 z2 q _ _ (x1 & H1 & _)%list_elem_of_bind (x2 & H2 & _)%list_elem_of_bind.
    apply elem_of_voxelQuads in H1, H2. destruct H1 as (_ & _ & <-). tauto. }
  intros z _. apply NoDup_bind; [| |apply NoDup_seqZ].
  { intros x1 x2 q _ _ H1 H2.
    apply elem_of_voxelQuads in H1, H2. destruct H1 as (<- & _ & _). tauto. }
  intros x _. apply NoDup_voxelQuads.
Qed.

Lemma quadCount_generate w cellX cellY cellZ :
  quadCount (generateGeometryDataForCell w cellX cellY cellZ) =
    Z.of_nat (length (cellQuads w cellX cellY cellZ)).
Proof.
  unfold quadCount. rewrite generate_as_quads.
  destruct (renderQuads_sizes w _ (cellQuads_table w cellX cellY cellZ))
    as (_ & _ & _ & ->).
  rewrite Nat2Z.inj_mul, Z.mul_comm, Z.div_mul by lia. done.
Qed.

(** *** The quads of a world with two solid voxels side by side *)

Lemma cell_local_unique c cx x p :
  0 < c → 0 <= x < c → cx * c + x = p ↔ cx = p / c ∧ x = p `mod` c.
Proof.
  intros Hc Hx. split.
  - intros <-. split.
    + apply (Z.div_unique_pos _ _ cx x); lia.
    + apply (Z.mod_unique_pos _ _ cx x); lia.
  - intros [-> ->]. by apply cell_local.
Qed.

Section TwoVoxels.
Context (w2 : VoxelWorld) (px py pz v : Z) (f0 : Face).
Context (Hf0 : f0 ∈ faces) (Hc : 0 < cellSize w2) (Hv : v ≠ 0).
Context (Hw2 : twoVoxels w2 px py pz f0 v).

Let c := cellSize w2.
Let qx := px + (dir f0).1.1.
Let qy := py + (dir f0).1.2.
Let qz := pz + (dir f0).2.

Lemma two_p_visible f : f ∈ faces →
  getVoxel w2 (px + (dir f).1.1) (py + (dir f).1.2) (pz + (dir f).2) = 0 ↔ f ≠ f0.
Proof.
  intros Hf. pose proof (face_dir_unit f Hf) as Hd. rewrite Hw2. split.
  - intros E ->. rewrite decide_True in E by (by right). done.
  - intros Hne. rewrite decide_False; [done|].
    intros [[=]|[= E1 E2 E3]]; [lia|].
    apply Hne, face_dir_inj; try done.
    destruct (dir f) as [[? ?] ?], (dir f0) as [[? ?] ?]. simpl in *.
    f_equal; [f_equal|]; lia.
Qed.

Lemma two_q_visible f : f ∈ faces →
  getVoxel w2 (qx + (dir f).1.1) (qy + (dir f).1.2) (qz + (dir f).2) = 0
  ↔ dir f ≠ opposite (dir f0).
Proof.
  intros Hf. pose proof (face_dir_unit f Hf) as Hd.
  pose proof (face_dir_unit f0 Hf0) as Hd0. rewrite Hw2.
  unfold opposite, qx, qy, qz.
  destruct (dir f) as [[d1 d2] d3], (dir f0) as [[e1 e2] e3]. simpl in *. split.
  - intros E [= -> -> ->]. rewrite decide_True in E; [done|].
    left. f_equal; [f_equal|]; lia.
  - intros Hne. rewrite decide_False; [done|].
    intros [[= E1 E2 E3]|[= E1 E2 E3]]; [|lia].
    apply Hne. f_equal; [f_equal|]; lia.
Qed.

Lemma two_p_ne_q : (px, py, pz) ≠ (qx, qy, qz).
Proof.
  pose proof (face_dir_unit f0 Hf0). unfold qx, qy, qz. intros [=]. lia.
Qed.

Lemma elem_of_quadsOfP cx cy cz x y z u f :
  (x, y, z, u, f) ∈ quadsOfP c px py pz v f0 cx cy cz ↔
  (px / c, py / c, pz / c) = (cx, cy, cz)
  ∧ (x, y, z) = (px `mod` c, py `mod` c, pz `mod` c)
  ∧ u = v - 1 ∧ f ≠ f0 ∧ f ∈ faces.
Proof.
  unfold quadsOfP. case_decide as Hcell.
  - rewrite list_elem_of_fmap. setoid_rewrite list_elem_of_filter. split.
    + intros (f' & [= -> -> -> -> ->] & ? & ?). done.
    + intros (_ & [= -> -> ->] & -> & ? & ?). by exists f.
  - split; [by intros ?%elem_of_nil|]. by intros (? & _).
Qed.

Lemma elem_of_quadsOfQ cx cy cz x y z u f :
  (x, y, z, u, f) ∈ quadsOfQ c qx qy qz v f0 cx cy cz ↔
  (qx / c, qy / c, qz / c) = (cx, cy, cz)
  ∧ (x, y, z) = (qx `mod` c, qy `mod` c, qz `mod` c)
  ∧ u = v - 1 ∧ dir f ≠ opposite (dir f0) ∧ f ∈ faces.
Proof.
  unfold quadsOfQ. case_decide as Hcell.
  - rewrite list_elem_of_fmap. setoid_rewrite list_elem_of_filter. split.
    + intros (f' & [= -> -> -> -> ->] & ? & ?). done.
    + intros (_ & [= -> -> ->] & -> & ? & ?). by exists f.
  - split; [by intros ?%elem_of_nil|]. by intros (? & _).
Qed.

Lemma voxel_is_p cx cy cz x y z :
  0 <= x < c → 0 <= y < c → 0 <= z < c →
  (cx * c + x, cy * c + y, cz * c + z) = (px, py, pz) ↔
  (px / c, py / c, pz / c) = (cx, cy, cz)
  ∧ (x, y, z) = (px `mod` c, py `mod` c, pz `mod` c).
Proof.
  intros Hx Hy Hz. split.
  - intros [= E1 E2 E3].
    apply (cell_local_unique c cx x px Hc Hx) in E1 as [-> ->].
    apply (cell_local_unique c cy y py Hc Hy) in E2 as [-> ->].
    apply (cell_local_unique c cz z pz Hc Hz) in E3 as [-> ->]. done.
  - intros [[= <- <- <-] [= -> -> ->]]. by rewrite !cell_local.
Qed.

Lemma voxel_is_q cx cy cz x y z :
  0 <= x < c → 0 <= y < c → 0 <= z < c →
  (cx * c + x, cy * c + y, cz * c + z) = (qx, qy, qz) ↔
  (qx / c, qy / c, qz / c) = (cx, cy, cz)
  ∧ (x, y, z) = (qx `mod` c, qy `mod` c, qz `mod` c).
Proof.
  intros Hx Hy Hz. split.
  - intros [= E1 E2 E3].
    apply (cell_local_unique c cx x qx Hc Hx) in E1 as [-> ->].
    apply (cell_local_unique c cy y qy Hc Hy) in E2 as [-> ->].
    apply (cell_local_unique c cz z qz Hc Hz) in E3 as [-> ->]. done.
  - intros [[= <- <- <-] [= -> -> ->]]. by rewrite !cell_local.
Qed.

Lemma NoDup_quadsOfP cx cy cz : NoDup (quadsOfP c px py pz v f0 cx cy cz).
Proof.
  unfold quadsOfP. case_decide; [|apply NoDup_nil_2].
  apply NoDup_fmap_2; [by intros f f' [=]|].
  apply list.NoDup_filter, NoDup_faces.
Qed.

Lemma NoDup_quadsOfQ cx cy cz : NoDup (quadsOfQ c qx qy qz v f0 cx cy cz).
Proof.
  unfold quadsOfQ. case_decide; [|apply NoDup_nil_2].
  apply NoDup_fmap_2; [by intros f f' [=]|].
  apply list.NoDup_filter, NoDup_faces.
Qed.

Lemma getVoxel_p : getVoxel w2 px py pz = v.
Proof. rewrite Hw2. by rewrite decide_True by (by left). Qed.

Lemma getVoxel_q : getVoxel w2 qx qy qz = v.
Proof. rewrite Hw2. by rewrite decide_True by (by right). Qed.

(** The quads of a cell are those of [p] and those of [q] that lie in it. *)
Lemma cellQuads_two_voxels cx cy cz :
  cellQuads w2 cx cy cz ≡ₚ
    quadsOfP c px py pz v f0 cx cy cz ++ quadsOfQ c qx qy qz v f0 cx cy cz.
Proof.
  apply NoDup_Permutation.
  - apply NoDup_cellQuads.
  - apply list.NoDup_app. split; [apply NoDup_quadsOfP|].
    split; [|apply NoDup_quadsOfQ].
    intros [[[[x y] z] u] f] Hp Hq.
    apply elem_of_quadsOfP in Hp as ([= Hx Hy Hz] & [= -> -> ->] & _).
    apply elem_of_quadsOfQ in Hq as ([= Hx' Hy' Hz'] & [= Ex Ey Ez] & _).
    apply two_p_ne_q. fold c in Hc.
    f_equal; [f_equal|]; eapply (div_mod_inj c); eauto; congruence.
  - intros [[[[x y] z] u] f].
    rewrite elem_of_cellQuads, elem_of_app, elem_of_quadsOfP, elem_of_quadsOfQ.
    fold c. unfold faceVisible. rewrite truthy_false. split.
    + intros ((Hx & Hy & Hz) & Hf & Hne & -> & Hvis).
      rewrite Hw2 in Hne. case_decide as Hpq; [|done]. destruct Hpq as [Hp|Hq].
      * left. pose proof Hp as [= E1 E2 E3].
        apply voxel_is_p in Hp as [Hcell Hloc]; try done.
        rewrite E1, E2, E3 in *.
        rewrite getVoxel_p. repeat (split; [done|]). split; [|done].
        by apply two_p_visible.
      * right. pose proof Hq as [= E1 E2 E3].
        apply voxel_is_q in Hq as [Hcell Hloc]; try done.
        rewrite E1, E2, E3 in *.
        fold qx qy qz. rewrite getVoxel_q. repeat (split; [done|]). split; [|done].
        by apply two_q_visible.
    + pose proof (Z.mod_pos_bound px c Hc). pose proof (Z.mod_pos_bound py c Hc).
      pose proof (Z.mod_pos_bound pz c Hc). pose proof (Z.mod_pos_bound qx c Hc).
      pose proof (Z.mod_pos_bound qy c Hc). pose proof (Z.mod_pos_bound qz c Hc).
      intros [(Hcell & Hloc & -> & Hne & Hf)|(Hcell & Hloc & -> & Hne & Hf)].
      * injection Hloc as -> -> ->.
        assert (Hp : (cx * c + px `mod` c, cy * c + py `mod` c, cz * c + pz `mod` c)
                     = (px, py, pz)) by (by apply voxel_is_p).
        injection Hp as -> -> ->. rewrite getVoxel_p.
        repeat (split; [done|]). by apply two_p_visible.
      * injection Hloc as -> -> ->.
        assert (Hq : (cx * c + qx `mod` c, cy * c + qy `mod` c, cz * c + qz `mod` c)
                     = (qx, qy, qz)) by (by apply voxel_is_q).
        injection Hq as -> -> ->. rewrite getVoxel_q.
        repeat (split; [done|]). by apply two_q_visible.
Qed.

Lemma quadsOfP_length cx cy cz :
  length (quadsOfP c px py pz v f0 cx cy cz) =
    if decide ((px / c, py / c, pz / c) = (cx, cy, cz)) then 5%nat else 0%nat.
Proof.
  unfold quadsOfP. case_decide; [|done]. rewrite length_fmap.
  clear Hw2. face_cases Hf0; reflexivity.
Qed.

Lemma quadsOfQ_length cx cy cz :
  length (quadsOfQ c qx qy qz v f0 cx cy cz) =
    if decide ((qx / c, qy / c, qz / c) = (cx, cy, cz)) then 5%nat else 0%nat.
Proof.
  unfold quadsOfQ. case_decide; [|done]. rewrite length_fmap.
  clear Hw2. subst qx qy qz. face_cases Hf0; reflexivity.
Qed.

(** Five quads for [p] in its cell and five for [q] in its cell: ten if the
    cell is the same. *)
Lemma quadCount_two_voxels cx cy cz :
  quadCount (generateGeometryDataForCell w2 cx cy cz) =
    (if decide ((px / c, py / c, pz / c) = (cx, cy, cz)) then 5 else 0)
    + (if decide ((qx / c, qy / c, qz / c) = (cx, cy, cz)) then 5 else 0).
Proof.
  rewrite quadCount_generate, (Permutation_length (cellQuads_two_voxels cx cy cz)).
  rewrite length_app, quadsOfP_length, quadsOfQ_length.
  by repeat case_decide.
Qed.

End TwoVoxels.

(** C5.  In general, the quad of a face of the table is in the output of a
    cell exactly if its voxel lies in the cell and is non-empty and the
    neighbor at voxel position + face normal, read through [getVoxel] (0 for a
    missing cell), is empty.  So when the only solid voxels of a world are two
    neighbors [p] and [q = p + normal of f0] of one type, the cell of [p]
    has the quad of every face of [p] but [f0], the cell of [q] has the quad
    of every face of [q] but the one opposite to [f0], no cell has a quad of
    any other voxel, and the quads number five in the cell of [p] and five in
    the cell of [q]: ten in all, none on the shared side.  The cells are
    ones whose coordinates, from one voxel below to one voxel above, are safe
    integers. *)
Theorem face_emitted_iff_visible
    (w : VoxelWorld) (cellX cellY cellZ x y z : Z) (f : Face)
    (w2 : VoxelWorld) (px py pz v : Z) (f0 : Face) :
  f ∈ faces → f0 ∈ faces → 0 < cellSize w2 → v ≠ 0 →
  twoVoxels w2 px py pz f0 v →
  safeCell (cellSize w) cellX cellY cellZ →
  let c := cellSize w2 in
  let qx := px + (dir f0).1.1 in
  let qy := py + (dir f0).1.2 in
  let qz := pz + (dir f0).2 in
  safeCell c (px / c) (py / c) (pz / c) →
  safeCell c (qx / c) (qy / c) (qz / c) →
  (emitsQuad (generateGeometryDataForCell w cellX cellY cellZ) x y z f ↔
     (0 <= x < cellSize w ∧ 0 <= y < cellSize w ∧ 0 <= z < cellSize w)
     ∧ getVoxel w (cellX * cellSize w + x) (cellY * cellSize w + y)
         (cellZ * cellSize w + z) ≠ 0
     ∧ getVoxel w (cellX * cellSize w + x + (dir f).1.1)
         (cellY * cellSize w + y + (dir f).1.2)
         (cellZ * cellSize w + z + (dir f).2) = 0)
  ∧ (emitsQuad (generateGeometryDataForCell w2 (px / c) (py / c) (pz / c))
       (px `mod` c) (py `mod` c) (pz `mod` c) f ↔ f ≠ f0)
  ∧ (emitsQuad (generateGeometryDataForCell w2 (qx / c) (qy / c) (qz / c))
       (qx `mod` c) (qy `mod` c) (qz `mod` c) f ↔ dir f ≠ opposite (dir f0))
  ∧ (∀ cx cy cz lx ly lz, safeCell c cx cy cz →
       emitsQuad (generateGeometryDataForCell w2 cx cy cz) lx ly lz f →
       (cx * c + lx, cy * c + ly, cz * c + lz) = (px, py, pz)
       ∨ (cx * c + lx, cy * c + ly, cz * c + lz) = (qx, qy, qz))
  ∧ (∀ cx cy cz, safeCell c cx cy cz →
       quadCount (generateGeometryDataForCell w2 cx cy cz) =
         (if decide ((px / c, py / c, pz / c) = (cx, cy, cz)) then 5 else 0)
         + (if decide ((qx / c, qy / c, qz / c) = (cx, cy, cz)) then 5 else 0)).
Proof.
  intros Hf Hf0 Hc Hv Hw2 _ c qx qy qz _ _.
  split; [by apply emitsQuad_generate|].
  assert (Hd : Z.abs (dir f).1.1 + Z.abs (dir f).1.2 + Z.abs (dir f).2 = 1)
    by (by apply face_dir_unit).
  assert (Hd0 : Z.abs (dir f0).1.1 + Z.abs (dir f0).1.2 + Z.abs (dir f0).2 = 1)
    by (by apply face_dir_unit).
  split; [|split; [|split]];
    [| | |by intros cx cy cz _; apply (quadCount_two_voxels w2 px py pz v f0)].
  - rewrite emitsQuad_generate by done. fold c.
    rewrite !cell_local by done. rewrite !Hw2.
    rewrite decide_True by (by left).
    pose proof (Z.mod_pos_bound px c Hc). pose proof (Z.mod_pos_bound py c Hc).
    pose proof (Z.mod_pos_bound pz c Hc).
    split.
    + intros (_ & _ & E) ->. rewrite decide_True in E by (by right). done.
    + intros Hne. split; [lia|]. split; [done|].
      rewrite decide_False; [done|]. intros [[=]|[= E1 E2 E3]]; [lia|].
      apply Hne, face_dir_inj; try done.
      destruct (dir f) as [[? ?] ?], (dir f0) as [[? ?] ?]. simpl in *.
      f_equal; [f_equal|]; lia.
  - rewrite emitsQuad_generate by done. fold c.
    rewrite !cell_local by done. rewrite !Hw2.
    rewrite (decide_True (P := _ ∨ (qx, qy, qz) = _)) by (by right).
    pose proof (Z.mod_pos_bound qx c Hc). pose proof (Z.mod_pos_bound qy c Hc).
    pose proof (Z.mod_pos_bound qz c Hc).
    unfold opposite, qx, qy, qz in *.
    destruct (dir f) as [[d1 d2] d3], (dir f0) as [[e1 e2] e3]. simpl in *.
    split.
    + intros (_ & _ & E) [= -> -> ->]. rewrite decide_True in E; [done|].
      left. f_equal; [f_equal|]; lia.
    + intros Hne. split; [lia|]. split; [done|].
      rewrite decide_False; [done|]. intros [[= E1 E2 E3]|[= E1 E2 E3]]; [|lia].
      apply Hne. f_equal; [f_equal|]; lia.
  - intros cx cy cz lx ly lz _ He.
    apply emitsQuad_generate in He as (_ & Hne & _); [|done].
    fold c in Hne. rewrite Hw2 in Hne. case_decide; [done|]. done.
Qed.

Lemma getVoxel_new c ts tw th x y z : getVoxel (newVoxelWorld c ts tw th) x y z = 0.
Proof. apply getVoxel_missing. apply lookup_empty. Qed.

Lemma rightFace_in_table : rightFace ∈ faces.
Proof. unfold faces, rightFace. set_solver. Qed.

Lemma pairWorld_twoVoxels : twoVoxels pairWorld 1 0 0 rightFace 4.
Proof.
  assert (Hw0 : wfWorld (newVoxelWorld 2 16 256 64))
    by (apply wf_newVoxelWorld; lia).
  assert (Hw1 : wfWorld (setVoxel (newVoxelWorld 2 16 256 64) 1 0 0 4 true))
    by (by apply wf_setVoxel).
  intros x y z. unfold pairWorld. simpl.
  destruct (decide ((x, y, z) = (2, 0, 0))) as [[= -> -> ->]|Hq].
  - rewrite getVoxel_setVoxel_eq by done. by rewrite decide_True by (by right).
  - rewrite getVoxel_setVoxel_ne by done.
    destruct (decide ((x, y, z) = (1, 0, 0))) as [[= -> -> ->]|Hp].
    + rewrite getVoxel_setVoxel_eq by done. by rewrite decide_True by (by left).
    + rewrite getVoxel_setVoxel_ne by done. rewrite getVoxel_new.
      rewrite decide_False; [done|]. by intros [?|?].
Qed.

Lemma face_emitted_iff_visible_witness :
  rightFace ∈ faces ∧ 0 < cellSize pairWorld ∧ 4 ≠ 0
  ∧ twoVoxels pairWorld 1 0 0 rightFace 4
  ∧ safeCell (cellSize pairWorld) 0 0 0 ∧ safeCell (cellSize pairWorld) 1 0 0
  ∧ ¬ emitsQuad (generateGeometryDataForCell pairWorld 0 0 0) 1 0 0 rightFace
  ∧ quadCount (generateGeometryDataForCell pairWorld 0 0 0) = 5
  ∧ quadCount (generateGeometryDataForCell pairWorld 1 0 0) = 5.
Proof.
  assert (Hc : 0 < cellSize pairWorld) by (change (cellSize pairWorld) with 2; lia).
  assert (Hv : 4 ≠ 0) by lia.
  split; [exact rightFace_in_table|]. split; [exact Hc|]. split; [exact Hv|].
  split; [exact pairWorld_twoVoxels|].
  assert (H0 : safeCell (cellSize pairWorld) 0 0 0)
    by (refine (bool_decide_unpack _ _); vm_compute; exact I).
  assert (H1 : safeCell (cellSize pairWorld) 1 0 0)
    by (refine (bool_decide_unpack _ _); vm_compute; exact I).
  split; [exact H0|]. split; [exact H1|].
  destruct (face_emitted_iff_visible pairWorld 0 0 0 1 0 0 rightFace
              pairWorld 1 0 0 4 rightFace rightFace_in_table rightFace_in_table
              Hc Hv pairWorld_twoVoxels H0 H0 H1) as (_ & Hp & _ & _ & Hn).
  split; [intros He; by apply Hp in He|].
  split; [exact (Hn 0 0 0 H0)|exact (Hn 1 0 0 H1)].
Defined.

(** ** Ray casting: one turn of the loop *)


Lemma rayLoop_empty {R} `{RayNum R} {T : Type} n lookup (hit : RayState R → Z → T) p s :
  rn_le (rt s) (len p) = true → lookup (ix s) (iy s) (iz s) = 0 →
  rayLoop (S n) lookup hit p s = rayLoop n lookup hit p (advanceRay p s).
Proof. intros E Hv. simpl. by rewrite E, Hv. Qed.

Lemma rayLoop_hit {R} `{RayNum R} {T : Type} n lookup (hit : RayState R → Z → T) p s :
  rn_le (rt s) (len p) = true → lookup (ix s) (iy s) (iz s) ≠ 0 →
  rayLoop (S n) lookup hit p s = Some (Some (hit s (lookup (ix s) (iy s) (iz s)))).
Proof. intros E Hv. simpl. rewrite E. apply truthy_true in Hv. by rewrite Hv. Qed.

(** More fuel does not change a result. *)
Lemma rayLoop_more_fuel {R} `{RayNum R} {T : Type} lookup (hit : RayState R → Z → T)
    p n m s r :
  rayLoop n lookup hit p s = Some r → (n <= m)%nat →
  rayLoop m lookup hit p s = Some r.
Proof.
  revert m s. induction n as [|n IH]; intros m s Hr Hm; [done|].
  destruct m as [|m]; [lia|]. simpl in *.
  destruct (rn_le (rt s) (len p)); [|done].
  destruct (JS.truthy (lookup (ix s) (iy s) (iz s))); [done|].
  apply IH; [done|lia].
Qed.

(** Doubles that compare equal do not compare less. *)
Lemma float_eqb_not_ltb (a b : float) :
  (a =? b)%float = true → (a <? b)%float = false.
Proof.
  rewrite FloatAxioms.eqb_spec, FloatAxioms.ltb_spec.
  unfold SpecFloat.SFeqb, SpecFloat.SFltb.
  by destruct (SpecFloat.SFcompare _ _) as [[]|].
Qed.

(** ** The loop inside [intersectRay] *)

Lemma intersectRay_rayLoop fuel w start end_ :
  intersectRay fuel w start end_ =
    rayLoop fuel (getVoxel w) (rayHit start end_) (rayParams start end_)
      (rayStart start end_).
Proof.
  unfold intersectRay, rayHit, rayParams, rayStart.
  by destruct (raySetup start end_) as [[[[dx dy] dz] p] s].
Qed.

Lemma rayStateAfter_succ {R} `{RayNum R} (p : RayParams R) s k :
  rayStateAfter p s (S k) = rayStateAfter p (advanceRay p s) k.
Proof.
  unfold rayStateAfter. induction k as [|k IH]; [done|].
  simpl in *. by rewrite IH.
Qed.

Lemma rayStateAfter_S {R} `{RayNum R} (p : RayParams R) s n :
  rayStateAfter p s (S n) = advanceRay p (rayStateAfter p s n).
Proof. reflexivity. Qed.

(** Turns over empty voxels use up fuel and nothing else. *)
Lemma rayLoop_skip {R} `{RayNum R} {T : Type} lookup (hit : RayState R → Z → T)
    p n :
  ∀ s k,
    (∀ m, (m <= n)%nat →
       rn_le (rt (rayStateAfter p s m)) (len p) = true
       ∧ lookup (ix (rayStateAfter p s m)) (iy (rayStateAfter p s m))
           (iz (rayStateAfter p s m)) = 0) →
    rayLoop (S n + k) lookup hit p s
    = rayLoop k lookup hit p (rayStateAfter p s (S n)).
Proof.
  induction n as [|n IH]; intros s k Hemp;
    (destruct (Hemp 0%nat) as [Et Ev]; [lia|]); cbn in Et, Ev.
  - change (1 + k)%nat with (S k). by rewrite rayLoop_empty.
  - change (S (S n) + k)%nat with (S (S n + k)).
    rewrite rayLoop_empty by done. rewrite IH.
    + by rewrite <- rayStateAfter_succ.
    + intros m Hm. rewrite <- rayStateAfter_succ. apply Hemp. lia.
Qed.

(** The set-up gives steps of one voxel, and starts at the voxel of the
    start point. *)
Lemma raySetup_steps start end_ :
  (stepX (rayParams start end_) = 1 ∨ stepX (rayParams start end_) = -1)
  ∧ (stepY (rayParams start end_) = 1 ∨ stepY (rayParams start end_) = -1)
  ∧ (stepZ (rayParams start end_) = 1 ∨ stepZ (rayParams start end_) = -1).
Proof.
  unfold rayParams, raySetup. cbn [fst snd stepX stepY stepZ].
  repeat split; match goal with |- context [if ?b then 1 else -1] =>
    destruct b; auto end.
Qed.

Lemma rayStart_eq start end_ :
  cellOf (rayStart start end_)
  = (JS.floor (vx start), JS.floor (vy start), JS.floor (vz start))
  ∧ steppedIndex (rayStart start end_) = -1.
Proof. split; reflexivity. Qed.

(** A turn moves one index, by one voxel. *)
Lemma path_within {R} `{RayNum R} (p : RayParams R) s m :
  (stepX p = 1 ∨ stepX p = -1) → (stepY p = 1 ∨ stepY p = -1) →
  (stepZ p = 1 ∨ stepZ p = -1) →
  Z.abs (ix (rayStateAfter p s m) - ix s) <= Z.of_nat m
  ∧ Z.abs (iy (rayStateAfter p s m) - iy s) <= Z.of_nat m
  ∧ Z.abs (iz (rayStateAfter p s m) - iz s) <= Z.of_nat m.
Proof.
  intros Hx Hy Hz. induction m as [|m (Ix & Iy & Iz)]; [cbn; lia|].
  rewrite rayStateAfter_S. unfold advanceRay.
  destruct (chooseAxis (rayStateAfter p s m)); cbn [stepAxis ix iy iz]; lia.
Qed.

(** So the indices of the first [k] states of a ray with [safeStart] are safe
    integers. *)
Lemma safeStart_path start end_ k m :
  safeStart start k → (m <= k)%nat →
  safeVoxel (ix (rayStateAfter (rayParams start end_) (rayStart start end_) m))
    (iy (rayStateAfter (rayParams start end_) (rayStart start end_) m))
    (iz (rayStateAfter (rayParams start end_) (rayStart start end_) m)).
Proof.
  intros [(Lx & Ly & Lz) (Ux & Uy & Uz)] Hm.
  destruct (raySetup_steps start end_) as (Hx & Hy & Hz).
  destruct (path_within (rayParams start end_) (rayStart start end_) m Hx Hy Hz)
    as (Ix & Iy & Iz).
  assert (Ex : ix (rayStart start end_) = JS.floor (vx start)) by reflexivity.
  assert (Ey : iy (rayStart start end_) = JS.floor (vy start)) by reflexivity.
  assert (Ez : iz (rayStart start end_) = JS.floor (vz start)) by reflexivity.
  rewrite Ex in Ix. rewrite Ey in Iy. rewrite Ez in Iz.
  unfold safeVoxel, JS.safeInteger in *. lia.
Qed.

(** C6.  Take a world of positive cell size, a ray from a finite start
    point, in a region of safe integers, and a turn [n] of the loop of
    [intersectRay] for it: the states before turn [n], and the state [s] of
    turn [n], are within the length of the ray and at empty voxels.  Then
    [intersectRay] goes on from the state that turn [n] leaves, and the axis
    that turn advances is chosen by comparing [txMax] with [tyMax] first and
    the smaller of the two with [tzMax]:
    X if [txMax < tyMax] and [txMax < tzMax]; Z if [txMax < tyMax] but not
    [txMax < tzMax]; Y if not [txMax < tyMax] and [tyMax < tzMax]; Z
    otherwise.  The axis chosen has its index moved by its step, [t] set to
    its [tMax], its [tMax] increased by its [tDelta], and is recorded in
    [steppedIndex]; the indices stay safe integers.  When [txMax], [tyMax]
    and [tzMax] are equal, it is Z. *)
Theorem ray_step_axis_choice (w : VoxelWorld) (start end_ : Vector3)
    (n fuel : nat) :
  let p := rayParams start end_ in
  let s := rayStateAfter p (rayStart start end_) n in
  let stepsX := mkRayState (txMax s) (ix s + stepX p) (iy s) (iz s)
                  (txMax s + txDelta p)%float (tyMax s) (tzMax s) 0 in
  let stepsY := mkRayState (tyMax s) (ix s) (iy s + stepY p) (iz s)
                  (txMax s) (tyMax s + tyDelta p)%float (tzMax s) 1 in
  let stepsZ := mkRayState (tzMax s) (ix s) (iy s) (iz s + stepZ p)
                  (txMax s) (tyMax s) (tzMax s + tzDelta p)%float 2 in
  0 < cellSize w → finiteStart start → safeStart start (S n) →
  (∀ m, (m <= n)%nat →
     (rt (rayStateAfter p (rayStart start end_) m) <=? len p)%float = true
     ∧ getVoxel w (ix (rayStateAfter p (rayStart start end_) m))
         (iy (rayStateAfter p (rayStart start end_) m))
         (iz (rayStateAfter p (rayStart start end_) m)) = 0) →
  intersectRay (S n + fuel) w start end_
    = rayLoop fuel (getVoxel w) (rayHit start end_) p (advanceRay p s)
  ∧ advanceRay p s =
      (if (txMax s <? tyMax s)%float then
         if (txMax s <? tzMax s)%float then stepsX else stepsZ
       else
         if (tyMax s <? tzMax s)%float then stepsY else stepsZ)
  ∧ ((txMax s =? tyMax s)%float = true → (tyMax s =? tzMax s)%float = true →
     advanceRay p s = stepsZ)
  ∧ safeVoxel (ix s) (iy s) (iz s)
  ∧ safeVoxel (ix (advanceRay p s)) (iy (advanceRay p s)) (iz (advanceRay p s)).
Proof.
  intros p s stepsX stepsY stepsZ _ _ Hsafe Hemp.
  split; [|split; [|split; [|split]]].
  - rewrite intersectRay_rayLoop. fold p.
    rewrite (rayLoop_skip (getVoxel w) (rayHit start end_) p n) by exact Hemp.
    by rewrite rayStateAfter_S.
  - unfold advanceRay, chooseAxis. simpl.
    by destruct (txMax s <? tyMax s)%float, (txMax s <? tzMax s)%float,
      (tyMax s <? tzMax s)%float.
  - intros Exy Eyz. unfold advanceRay, chooseAxis. simpl.
    rewrite (float_eqb_not_ltb _ _ Exy), (float_eqb_not_ltb _ _ Eyz). done.
  - apply (safeStart_path start end_ (S n) n); [done|lia].
  - change (advanceRay p s) with (rayStateAfter p (rayStart start end_) (S n)).
    by apply (safeStart_path start end_ (S n) (S n)).
Qed.

Lemma diag_first_turn m :
  (m <= 0)%nat →
  (rt (rayStateAfter (rayParams diagStart diagEnd) (rayStart diagStart diagEnd) m)
     <=? len (rayParams diagStart diagEnd))%float = true
  ∧ getVoxel emptyWorld
      (ix (rayStateAfter (rayParams diagStart diagEnd) (rayStart diagStart diagEnd) m))
      (iy (rayStateAfter (rayParams diagStart diagEnd) (rayStart diagStart diagEnd) m))
      (iz (rayStateAfter (rayParams diagStart diagEnd) (rayStart diagStart diagEnd) m))
    = 0.
Proof.
  intros Hm. assert (m = 0%nat) as -> by lia.
  split; [by vm_compute|apply getVoxel_new].
Qed.

Lemma ray_step_axis_choice_witness :
  0 < cellSize emptyWorld ∧ finiteStart diagStart ∧ safeStart diagStart 1
  ∧ (txMax (rayStart diagStart diagEnd) =? tyMax (rayStart diagStart diagEnd))%float
    = true
  ∧ (tyMax (rayStart diagStart diagEnd) =? tzMax (rayStart diagStart diagEnd))%float
    = true
  ∧ steppedIndex
      (advanceRay (rayParams diagStart diagEnd) (rayStart diagStart diagEnd)) = 2.
Proof.
  assert (Hf : finiteStart diagStart)
    by (refine (bool_decide_unpack _ _); vm_compute; exact I).
  assert (Hs : safeStart diagStart 1)
    by (refine (bool_decide_unpack _ _); vm_compute; exact I).
  assert (Exy : (txMax (rayStart diagStart diagEnd)
                 =? tyMax (rayStart diagStart diagEnd))%float = true)
    by (vm_compute; reflexivity).
  assert (Eyz : (tyMax (rayStart diagStart diagEnd)
                 =? tzMax (rayStart diagStart diagEnd))%float = true)
    by (vm_compute; reflexivity).
  assert (Hc : 0 < cellSize emptyWorld) by (simpl; lia).
  split; [exact Hc|].
  split; [exact Hf|]. split; [exact Hs|]. split; [exact Exy|]. split; [exact Eyz|].
  exact (f_equal steppedIndex
           (proj1 (proj2 (proj2 (ray_step_axis_choice emptyWorld diagStart diagEnd
                                   0 0 Hc Hf Hs diag_first_turn))) Exy Eyz)).
Defined.

(** ** The picking example *)

(** One turn of the loop over an empty voxel, with the state after it
    computed. *)
Ltac ray_turn Hw :=
  rewrite rayLoop_empty; [|reflexivity|rewrite Hw; reflexivity];
  match goal with
  | |- context [advanceRay ?p ?s] =>
      let s' := eval vm_compute in (advanceRay p s) in
      change (advanceRay p s) with s'
  end.

(** C7.  In a world whose only solid voxel is the one at grid cell (0,0,0),
    of type [v], the ray from (0.5, 10, 0.5) to (0.5, -1, 0.5) returns, within
    eleven evaluations of the loop test, a hit at the point (0.5, 1, 0.5) with
    normal (0,1,0) and voxel type [v]. *)
Theorem downward_ray_hits_top_face (w : VoxelWorld) (v : Z) (fuel : nat) :
  v ≠ 0 →
  (∀ x y z, getVoxel w x y z = if decide ((x, y, z) = (0, 0, 0)) then v else 0) →
  (11 <= fuel)%nat →
  intersectRay fuel w downStart downEnd =
    Some (Some (mkIntersection (0.5%float, 1%float, 0.5%float) (0, 1, 0) v)).
Proof.
  intros Hv Hw Hfuel. unfold intersectRay.
  set (r := raySetup downStart downEnd). vm_compute in r. subst r. cbv beta iota.
  apply (rayLoop_more_fuel _ _ _ 11); [|done].
  do 10 ray_turn Hw.
  rewrite rayLoop_hit; [|reflexivity|by rewrite Hw].
  cbn [ix iy iz]. rewrite Hw. reflexivity.
Qed.

Lemma originWorld_only_voxel x y z :
  getVoxel originWorld x y z = if decide ((x, y, z) = (0, 0, 0)) then 5 else 0.
Proof.
  assert (Hw0 : wfWorld (newVoxelWorld 32 16 256 64))
    by (apply wf_newVoxelWorld; lia).
  unfold originWorld. case_decide as Hp.
  - injection Hp as -> -> ->. by rewrite getVoxel_setVoxel_eq.
  - rewrite getVoxel_setVoxel_ne by done. apply getVoxel_new.
Qed.

Lemma downward_ray_hits_top_face_witness :
  5 ≠ 0 ∧ (11 <= 11)%nat
  ∧ intersectRay 11 originWorld downStart downEnd =
      Some (Some (mkIntersection (0.5%float, 1%float, 0.5%float) (0, 1, 0) 5)).
Proof.
  assert (Hv : 5 ≠ 0) by lia.
  assert (Hf : (11 <= 11)%nat) by lia.
  split; [exact Hv|]. split; [exact Hf|].
  exact (downward_ray_hits_top_face originWorld 5 11 Hv originWorld_only_voxel Hf).
Defined.

(** ** Rays the loop does not handle as C8 says *)



(** ** Termination of the loop *)





(** * Further properties of the code *)

(** ** The store: reading after writing, addresses, composition *)

Lemma cells_setVoxel_true w x y z v :
  cells (setVoxel w x y z v true) =
    <[computeCellID w x y z :=
        JS.typedSet (cellOrNew w (computeCellID w x y z))
          (computeVoxelOffset w x y z) v]> (cells w).
Proof.
  rewrite cells_setVoxel. unfold cellOrNew.
  by destruct (cells w !! computeCellID w x y z).
Qed.

Lemma cellOrNew_length w k : wfWorld w →
  Z.of_nat (length (cellOrNew w k)) = cellSize w * cellSize w * cellSize w.
Proof.
  intros Hw. unfold cellOrNew. destruct (cells w !! k) as [cell|] eqn:E; simpl.
  - by apply (wf_cells w Hw k).
  - destruct Hw as [Hp _ _]. rewrite newUint8Array_length; nia.
Qed.

(** X1.  The complete law of a read after a write, in a well-formed world
    whose cells can be allocated, for voxels at safe integers: [getVoxel] at
    the voxel written returns the type kept as a byte, provided the write
    took place (the cell existed, or [addCell] was true); at every other
    voxel, in the same cell, in another cell or in a cell the write created,
    it returns what it returned before. *)
Theorem getVoxel_after_setVoxel (w : VoxelWorld) (x y z v : Z) (addCell : bool)
    (x' y' z' : Z) :
  wfWorld w → allocatableWorld w → safeVoxel x y z → safeVoxel x' y' z' →
  getVoxel (setVoxel w x y z v addCell) x' y' z' =
    if decide ((x', y', z') = (x, y, z)
               ∧ (addCell = true ∨ is_Some (getCellForVoxel w x y z)))
    then v `mod` 256
    else getVoxel w x' y' z'.
Proof.
  intros Hw _ _ _. case_decide as Hd.
  - destruct Hd as [[= -> -> ->] Hdone].
    destruct (getCellForVoxel w x y z) as [cell|] eqn:E.
    + assert (setVoxel w x y z v addCell = setVoxel w x y z v true) as ->.
      { unfold setVoxel. by rewrite E. }
      by apply getVoxel_setVoxel_eq.
    + destruct Hdone as [->|[? [=]]]. by apply getVoxel_setVoxel_eq.
  - destruct (decide ((x, y, z) = (x', y', z'))) as [[= <- <- <-]|Hne].
    + assert (E : getCellForVoxel w x y z = None ∧ addCell = false).
      { destruct (getCellForVoxel w x y z) eqn:E, addCell; try done;
          exfalso; apply Hd; eauto. }
      destruct E as [E ->]. unfold setVoxel. by rewrite E.
    + by apply getVoxel_setVoxel_ne.
Qed.

Lemma getVoxel_after_setVoxel_witness :
  wfWorld (newVoxelWorld 32 16 256 64)
  ∧ allocatableWorld (newVoxelWorld 32 16 256 64)
  ∧ safeVoxel 3 4 5 ∧ safeVoxel 3 4 6
  ∧ getVoxel (setVoxel (newVoxelWorld 32 16 256 64) 3 4 5 7 true) 3 4 6 =
      getVoxel (newVoxelWorld 32 16 256 64) 3 4 6.
Proof.
  assert (Hw : wfWorld (newVoxelWorld 32 16 256 64))
    by (apply wf_newVoxelWorld; lia).
  assert (Ha : allocatableWorld (newVoxelWorld 32 16 256 64))
    by (refine (bool_decide_unpack _ _); vm_compute; exact I).
  assert (H1 : safeVoxel 3 4 5)
    by (refine (bool_decide_unpack _ _); vm_compute; exact I).
  assert (H2 : safeVoxel 3 4 6)
    by (refine (bool_decide_unpack _ _); vm_compute; exact I).
  split; [exact Hw|]. split; [exact Ha|]. split; [exact H1|]. split; [exact H2|].
  exact (getVoxel_after_setVoxel (newVoxelWorld 32 16 256 64) 3 4 5 7 true 3 4 6
           Hw Ha H1 H2).
Defined.



Lemma setVoxel_true_eq w x y z v :
  setVoxel w x y z v true =
    withCells w
      (<[computeCellID w x y z :=
           JS.typedSet (cellOrNew w (computeCellID w x y z))
             (computeVoxelOffset w x y z) v]> (cells w)).
Proof.
  destruct (params_setVoxel w x y z v true) as (? & ? & ?).
  apply world_eq; simpl;
    [apply cellSize_setVoxel|done|done|done|apply cells_setVoxel_true].
Qed.

Lemma cellOrNew_withCells w k v k' :
  cellOrNew (withCells w (<[k := v]> (cells w))) k' =
    if decide (k = k') then v else cellOrNew w k'.
Proof.
  unfold cellOrNew. simpl. rewrite lookup_insert. by case_decide.
Qed.

Lemma typedSet_commute a i j v u : 0 <= i → 0 <= j → i ≠ j →
  JS.typedSet (JS.typedSet a i v) j u = JS.typedSet (JS.typedSet a j u) i v.
Proof.
  intros Hi Hj Hne. unfold JS.typedSet.
  rewrite !decide_True by done. apply list_insert_insert_ne. lia.
Qed.

Lemma typedSet_overwrite a i v u :
  JS.typedSet (JS.typedSet a i v) i u = JS.typedSet a i u.
Proof.
  unfold JS.typedSet. case_decide; [|done]. apply list_insert_insert_eq.
Qed.

(** X3.  Writes compose as writes to an array of voxels do: of two writes to
    one voxel the later one stands, and two writes to different voxels give
    the same world in either order, whether they fall into the same cell or
    not and whether the cells existed or not. *)
Theorem setVoxel_compose (w : VoxelWorld) (x y z v x' y' z' u : Z) :
  wfWorld w →
  setVoxel (setVoxel w x y z v true) x y z u true = setVoxel w x y z u true
  ∧ ((x, y, z) ≠ (x', y', z') →
     setVoxel (setVoxel w x y z v true) x' y' z' u true
     = setVoxel (setVoxel w x' y' z' u true) x y z v true).
Proof.
  intros Hw. split.
  - rewrite (setVoxel_true_eq (setVoxel w x y z v true)).
    rewrite computeCellID_setVoxel, computeVoxelOffset_setVoxel.
    rewrite !setVoxel_true_eq. rewrite cellOrNew_withCells, decide_True by done.
    unfold withCells. simpl. by rewrite typedSet_overwrite, insert_insert_eq.
  - intros Hne.
    pose proof (computeVoxelOffset_range w x y z Hw) as Hr.
    pose proof (computeVoxelOffset_range w x' y' z' Hw) as Hr'.
    rewrite (setVoxel_true_eq (setVoxel w x y z v true)).
    rewrite (setVoxel_true_eq (setVoxel w x' y' z' u true)).
    rewrite !computeCellID_setVoxel, !computeVoxelOffset_setVoxel.
    rewrite !setVoxel_true_eq. rewrite !cellOrNew_withCells.
    unfold withCells. simpl. f_equal.
    destruct (decide (computeCellID w x y z = computeCellID w x' y' z')) as [Hid|Hid].
    + assert (Hoff : computeVoxelOffset w x y z ≠ computeVoxelOffset w x' y' z').
      { intros Hoff. destruct (voxel_address_inj w x y z x' y' z' Hw Hid Hoff)
          as (-> & -> & ->). done. }
      rewrite decide_True by done. rewrite <- Hid.
      rewrite !insert_insert_eq. f_equal. apply typedSet_commute; lia.
    + rewrite decide_False by done. by apply insert_insert_ne.
Qed.

Lemma setVoxel_compose_witness :
  wfWorld (newVoxelWorld 32 16 256 64)
  ∧ setVoxel (setVoxel (newVoxelWorld 32 16 256 64) 1 2 3 7 true) 1 2 3 9 true
    = setVoxel (newVoxelWorld 32 16 256 64) 1 2 3 9 true.
Proof.
  assert (Hw : wfWorld (newVoxelWorld 32 16 256 64))
    by (apply wf_newVoxelWorld; lia).
  split; [exact Hw|].
  exact (proj1 (setVoxel_compose (newVoxelWorld 32 16 256 64) 1 2 3 7 0 0 0 9 Hw)).
Defined.

(** ** The store: what every reachable world satisfies *)

Lemma bytes_typedSet a i v :
  Forall (fun b => 0 <= b < 256) a →
  Forall (fun b => 0 <= b < 256) (JS.typedSet a i v).
Proof.
  intros Ha. unfold JS.typedSet. case_decide; [|done].
  apply Forall_insert; [done|]. apply toUint8_range.
Qed.

Lemma bytes_newUint8Array n : Forall (fun b => 0 <= b < 256) (JS.newUint8Array n).
Proof. unfold JS.newUint8Array. apply Forall_replicate. lia. Qed.

Lemma bytes_setVoxel w x y z v b : bytesWorld w → bytesWorld (setVoxel w x y z v b).
Proof.
  intros Hw k cell. rewrite cells_setVoxel.
  destruct (cells w !! computeCellID w x y z) as [c0|] eqn:E.
  - rewrite lookup_insert. case_decide; [|by apply Hw].
    intros [= <-]. apply bytes_typedSet. by eapply Hw.
  - destruct b; [|by apply Hw]. rewrite lookup_insert. case_decide; [|by apply Hw].
    intros [= <-]. apply bytes_typedSet, bytes_newUint8Array.
Qed.

Lemma bytes_getVoxel w x y z : bytesWorld w → 0 <= getVoxel w x y z <= 255.
Proof.
  intros Hw. unfold getVoxel, getCellForVoxel.
  destruct (cells w !! computeCellID w x y z) as [cell|] eqn:E; [|lia].
  unfold JS.typedGet. case_decide; [|lia].
  destruct (cell !! Z.to_nat (computeVoxelOffset w x y z)) as [b|] eqn:Eb; simpl; [|lia].
  pose proof (proj1 (Forall_lookup _ _) (Hw _ _ E) _ _ Eb). simpl in *. lia.
Qed.

Lemma reachable_invariants c ts tw th ops : 0 < c <= 2 ^ 31 →
  wfWorld (runOps (newVoxelWorld c ts tw th) ops)
  ∧ bytesWorld (runOps (newVoxelWorld c ts tw th) ops).
Proof.
  intros Hc.
  assert (H0 : wfWorld (newVoxelWorld c ts tw th) ∧ bytesWorld (newVoxelWorld c ts tw th)).
  { split; [by apply wf_newVoxelWorld|]. intros k cell Hk.
    simpl in Hk. by rewrite lookup_empty in Hk. }
  revert H0. generalize (newVoxelWorld c ts tw th).
  induction ops as [|o ops IH]; intros w [Hw Hb]; [done|].
  change (runOps w (o :: ops)) with (runOps (applyOp w o) ops).
  apply IH. destruct o; simpl; try done.
  split; [by apply wf_setVoxel|by apply bytes_setVoxel].
Qed.

(** X4.  Whatever calls were made on a world since its construction with a
    cell size between 1 and 2^31: the cell size is the one given; every
    stored cell has [cellSize³] entries, each a byte; [getVoxel] returns a
    number from 0 to 255 at every coordinate; and no call removes a cell
    (a cell that is present stays present under any further call). *)
Theorem reachable_world_invariants (c : Z) (ts tw th : float) (ops : list Op) :
  0 < c <= 2 ^ 31 →
  let w := runOps (newVoxelWorld c ts tw th) ops in
  cellSize w = c
  ∧ (∀ k cell, cells w !! k = Some cell →
       Z.of_nat (length cell) = c * c * c ∧ Forall (fun b => 0 <= b < 256) cell)
  ∧ (∀ x y z, 0 <= getVoxel w x y z <= 255)
  ∧ (∀ o k, is_Some (cells w !! k) → is_Some (cells (applyOp w o) !! k)).
Proof.
  intros Hc w.
  destruct (reachable_invariants c ts tw th ops Hc) as [Hw Hb]. fold w in Hw, Hb.
  assert (Hsz : cellSize w = c) by apply cellSize_runOps.
  split; [done|]. split; [|split].
  - intros k cell Hk. split; [|by eapply Hb].
    rewrite <- Hsz. by apply (wf_cells w Hw k).
  - intros x y z. by apply bytes_getVoxel.
  - intros o k Hk. destruct o; simpl; try done.
    apply present_setVoxel. by left.
Qed.

Lemma reachable_world_invariants_witness :
  0 < 32 <= 2 ^ 31
  ∧ 0 <= getVoxel (runOps (newVoxelWorld 32 16 256 64)
                      [OpSetVoxel 1 2 3 300 true; OpSetVoxel 40 2 3 (-1) true])
           40 2 3 <= 255.
Proof.
  assert (Hc : 0 < 32 <= 2 ^ 31) by lia.
  split; [exact Hc|].
  exact (proj1 (proj2 (proj2 (reachable_world_invariants 32 16 256 64
    [OpSetVoxel 1 2 3 300 true; OpSetVoxel 40 2 3 (-1) true] Hc))) 40 2 3).
Defined.

(** X5.  The [addCell] flag matters only for a missing cell: on a voxel (at
    safe integers) whose cell exists, a write with [addCell = false] is the
    write with [addCell = true].  And the default flag allocates even when
    there is nothing to store: in a world whose cells can be allocated,
    writing type 0 (empty) to a voxel of a missing cell inserts the cell,
    while every voxel at safe integers reads as it did. *)
Theorem setVoxel_addCell_flag (w : VoxelWorld) (x y z v : Z) :
  wfWorld w → allocatableWorld w → safeVoxel x y z →
  (is_Some (getCellForVoxel w x y z) →
   setVoxel w x y z v false = setVoxel w x y z v true)
  ∧ (getCellForVoxel w x y z = None →
     is_Some (getCellForVoxel (setVoxel w x y z 0 true) x y z)
     ∧ ∀ x' y' z', safeVoxel x' y' z' →
         getVoxel (setVoxel w x y z 0 true) x' y' z' = getVoxel w x' y' z').
Proof.
  intros Hw _ _. split.
  - intros [cell E]. unfold setVoxel. by rewrite E.
  - intros E. split.
    + unfold getCellForVoxel. rewrite computeCellID_setVoxel.
      apply present_setVoxel. by right.
    + intros x' y' z' _.
      destruct (decide ((x, y, z) = (x', y', z'))) as [[= <- <- <-]|Hne].
      * rewrite getVoxel_setVoxel_eq by done. unfold getVoxel. by rewrite E.
      * by apply getVoxel_setVoxel_ne.
Qed.

Lemma setVoxel_addCell_flag_witness :
  wfWorld (newVoxelWorld 32 16 256 64)
  ∧ allocatableWorld (newVoxelWorld 32 16 256 64)
  ∧ safeVoxel 5 5 5
  ∧ is_Some (getCellForVoxel
               (setVoxel (newVoxelWorld 32 16 256 64) 5 5 5 0 true) 5 5 5).
Proof.
  assert (Hw : wfWorld (newVoxelWorld 32 16 256 64))
    by (apply wf_newVoxelWorld; lia).
  assert (Ha : allocatableWorld (newVoxelWorld 32 16 256 64))
    by (refine (bool_decide_unpack _ _); vm_compute; exact I).
  assert (Hs : safeVoxel 5 5 5)
    by (refine (bool_decide_unpack _ _); vm_compute; exact I).
  split; [exact Hw|]. split; [exact Ha|]. split; [exact Hs|].
  exact (proj1 (proj2 (setVoxel_addCell_flag (newVoxelWorld 32 16 256 64) 5 5 5 0
                         Hw Ha Hs)
                  eq_refl)).
Defined.


(** ** Mesh extraction: the shape of the output *)

Lemma elem_of_indicesFrom n l i :
  i ∈ indicesFrom n l → n <= i < n + 4 * Z.of_nat (length l).
Proof.
  revert n. induction l as [|q l IH]; intros n; [by intros ?%elem_of_nil|].
  cbn [indicesFrom]. rewrite elem_of_app. intros [Hi|Hi].
  - unfold quadIndices in Hi. simpl length.
    repeat (apply elem_of_cons in Hi as [->|Hi]; [lia|]).
    by apply elem_of_nil in Hi.
  - apply IH in Hi. simpl length. lia.
Qed.

Lemma elem_of_facePositions f x y z a :
  f ∈ faces → a ∈ facePositions f x y z →
  a = x ∨ a = x + 1 ∨ a = y ∨ a = y + 1 ∨ a = z ∨ a = z + 1.
Proof.
  intros Hf. face_cases Hf; unfold facePositions; simpl; intros Ha;
    repeat (apply elem_of_cons in Ha as [->|Ha]; [lia|]);
    by apply elem_of_nil in Ha.
Qed.

Lemma elem_of_faceNormals f a : f ∈ faces → a ∈ faceNormals f → -1 <= a <= 1.
Proof.
  intros Hf. face_cases Hf; unfold faceNormals; simpl; intros Ha;
    repeat (apply elem_of_cons in Ha as [->|Ha]; [lia|]);
    by apply elem_of_nil in Ha.
Qed.

(** X6.  The arrays returned for any cell of any world fit together: for the
    number [n] of quads, there are [12 n] position numbers, [12 n] normal
    numbers, [8 n] texture coordinates and [6 n] indices; the indices of the
    [k]-th quad are [4k, 4k+1, 4k+2, 4k+2, 4k+1, 4k+3], so every index
    refers to one of the [4 n] vertices; every position number lies between 0
    and the cell size (vertices are relative to the cell), and every normal
    number is -1, 0 or 1. *)
Theorem mesh_arrays_well_formed (w : VoxelWorld) (cellX cellY cellZ : Z) :
  let g := generateGeometryDataForCell w cellX cellY cellZ in
  ∃ n : nat,
    length (positions g) = (12 * n)%nat
    ∧ length (normals g) = (12 * n)%nat
    ∧ length (uvs g) = (8 * n)%nat
    ∧ length (indices g) = (6 * n)%nat
    ∧ (∀ k, (k < n)%nat →
         take 6 (drop (6 * k) (indices g)) = quadIndices (4 * Z.of_nat k))
    ∧ (∀ i, i ∈ indices g → 0 <= i < 4 * Z.of_nat n)
    ∧ (∀ a, a ∈ positions g → 0 <= a <= cellSize w)
    ∧ (∀ a, a ∈ normals g → -1 <= a <= 1).
Proof.
  intros g. unfold g. rewrite generate_as_quads.
  pose proof (cellQuads_table w cellX cellY cellZ) as Ht.
  set (l := cellQuads w cellX cellY cellZ) in *.
  destruct (renderQuads_sizes w l Ht) as (Hp & Hn & Hu & Hi).
  exists (length l). repeat (split; [done|]).
  rewrite (renderQuads_indices w l emptyGeometry 0) by done.
  rewrite renderQuads_positions, renderQuads_normals.
  unfold emptyGeometry. cbn [positions normals indices app].
  split; [|split; [|split]].
  - intros k Hk. rewrite indicesFrom_block. by rewrite decide_True by done.
  - intros i Hin. apply elem_of_indicesFrom in Hin. lia.
  - intros a (q & Ha & Hq)%list_elem_of_bind.
    destruct q as [[[[x y] z] u] f]. unfold l in Hq.
    apply elem_of_cellQuads in Hq as ((Hx & Hy & Hz) & Hf & _).
    apply elem_of_facePositions in Ha; [|done]. simpl in Ha. lia.
  - intros a (q & Ha & Hq)%list_elem_of_bind.
    apply elem_of_faceNormals in Ha; [done|].
    by apply (proj1 (list.Forall_forall _ _) Ht).
Qed.

(** ** Mesh extraction: cells without geometry *)

Lemma renderQuads_nil_iff w l :
  Forall tableQuad l → renderQuads w emptyGeometry l = emptyGeometry ↔ l = [].
Proof.
  intros Ht. split; [|by intros ->].
  intros E. destruct (renderQuads_sizes w l Ht) as (Hp & _).
  rewrite E in Hp. simpl in Hp. destruct l; [done|]. simpl in Hp. lia.
Qed.

Lemma generate_empty_iff w cellX cellY cellZ :
  generateGeometryDataForCell w cellX cellY cellZ = emptyGeometry ↔
  ∀ x y z f,
    0 <= x < cellSize w → 0 <= y < cellSize w → 0 <= z < cellSize w →
    f ∈ faces →
    getVoxel w (cellX * cellSize w + x) (cellY * cellSize w + y)
      (cellZ * cellSize w + z) ≠ 0 →
    getVoxel w (cellX * cellSize w + x + (dir f).1.1)
      (cellY * cellSize w + y + (dir f).1.2)
      (cellZ * cellSize w + z + (dir f).2) ≠ 0.
Proof.
  rewrite generate_as_quads.
  rewrite renderQuads_nil_iff by apply cellQuads_table. split.
  - intros E x y z f Hx Hy Hz Hf Hv Hnb.
    assert (Hin : (x, y, z,
              getVoxel w (cellX * cellSize w + x) (cellY * cellSize w + y)
                (cellZ * cellSize w + z) - 1, f) ∈ cellQuads w cellX cellY cellZ).
    { apply elem_of_cellQuads. repeat (split; [done|]).
      unfold faceVisible. by apply truthy_false. }
    rewrite E in Hin. by apply elem_of_nil in Hin.
  - intros Hno. apply elem_of_nil_inv. intros [[[[x y] z] u] f] Hin.
    apply elem_of_cellQuads in Hin as ((Hx & Hy & Hz) & Hf & Hv & _ & Hvis).
    unfold faceVisible in Hvis. apply truthy_false in Hvis.
    by apply (Hno x y z f).
Qed.

Lemma generate_no_solid w cellX cellY cellZ :
  (∀ x y z,
     0 <= x < cellSize w → 0 <= y < cellSize w → 0 <= z < cellSize w →
     getVoxel w (cellX * cellSize w + x) (cellY * cellSize w + y)
       (cellZ * cellSize w + z) = 0) →
  generateGeometryDataForCell w cellX cellY cellZ = emptyGeometry.
Proof.
  intros Hempty. apply generate_empty_iff. intros x y z f Hx Hy Hz _ Hv.
  by rewrite Hempty in Hv.
Qed.

(** X7.  A cell whose coordinates are safe integers has no geometry at all
    (four empty arrays) exactly if none of its solid voxels touches an empty
    voxel through a face.  So a cell without solid voxels has none, whether
    it is stored or was never created, and neither has a cell buried in
    solid voxels. *)
Theorem mesh_empty_iff_no_visible_face (w : VoxelWorld) (cellX cellY cellZ : Z) :
  safeCell (cellSize w) cellX cellY cellZ →
  (generateGeometryDataForCell w cellX cellY cellZ = emptyGeometry ↔
   ∀ x y z f,
     0 <= x < cellSize w → 0 <= y < cellSize w → 0 <= z < cellSize w →
     f ∈ faces →
     getVoxel w (cellX * cellSize w + x) (cellY * cellSize w + y)
       (cellZ * cellSize w + z) ≠ 0 →
     getVoxel w (cellX * cellSize w + x + (dir f).1.1)
       (cellY * cellSize w + y + (dir f).1.2)
       (cellZ * cellSize w + z + (dir f).2) ≠ 0)
  ∧ ((∀ x y z,
        0 <= x < cellSize w → 0 <= y < cellSize w → 0 <= z < cellSize w →
        getVoxel w (cellX * cellSize w + x) (cellY * cellSize w + y)
          (cellZ * cellSize w + z) = 0) →
     generateGeometryDataForCell w cellX cellY cellZ = emptyGeometry).
Proof.
  intros _. split; [apply generate_empty_iff|apply generate_no_solid].
Qed.

Lemma mesh_empty_iff_no_visible_face_witness :
  safeCell (cellSize emptyWorld) (-1) 0 2
  ∧ generateGeometryDataForCell emptyWorld (-1) 0 2 = emptyGeometry.
Proof.
  assert (Hs : safeCell (cellSize emptyWorld) (-1) 0 2)
    by (refine (bool_decide_unpack _ _); vm_compute; exact I).
  split; [exact Hs|].
  refine (proj2 (mesh_empty_iff_no_visible_face emptyWorld (-1) 0 2 Hs) _).
  intros x y z _ _ _. apply getVoxel_new.
Defined.

(** ** Mesh extraction: what the output depends on *)

Lemma filter_ext_in {A} (P Q : A → Prop) `{∀ a, Decision (P a)}
    `{∀ a, Decision (Q a)} (l : list A) :
  (∀ a, a ∈ l → P a ↔ Q a) → filter P l = filter Q l.
Proof.
  induction l as [|a l IH]; intros HPQ; [done|].
  assert (Hl : filter P l = filter Q l).
  { apply IH. intros b Hb. apply HPQ. by right. }
  destruct (decide (P a)) as [Ha|Ha].
  - rewrite !filter_cons_True; [by rewrite Hl| |done]. apply HPQ; [left|done].
  - rewrite !filter_cons_False; [done| |done]. intros Hq. apply Ha, HPQ; [left|done].
Qed.

Lemma renderQuads_params w w' g l :
  tileSize w = tileSize w' → tileTextureWidth w = tileTextureWidth w' →
  tileTextureHeight w = tileTextureHeight w' →
  renderQuads w g l = renderQuads w' g l.
Proof.
  intros Hs Hw Hh. revert g. induction l as [|q l IH]; intros g; [done|].
  rewrite !renderQuads_cons, IH. f_equal.
  rewrite !emitFace_eq. unfold faceUvs. by rewrite Hs, Hw, Hh.
Qed.

Lemma cellQuads_agree w w' cellX cellY cellZ :
  cellSize w = cellSize w' → agreeAround w w' cellX cellY cellZ →
  cellQuads w cellX cellY cellZ = cellQuads w' cellX cellY cellZ.
Proof.
  intros Hc Hag. unfold cellQuads. rewrite <- Hc.
  apply Forall_bind_ext, list.Forall_forall. intros y Hy%elem_of_upTo.
  apply Forall_bind_ext, list.Forall_forall. intros z Hz%elem_of_upTo.
  apply Forall_bind_ext, list.Forall_forall. intros x Hx%elem_of_upTo.
  unfold voxelQuads.
  pose proof (Hag x y z 0 0 0 Hx Hy Hz) as H0. rewrite !Z.add_0_r in H0.
  rewrite <- H0 by (simpl; lia).
  destruct (JS.truthy _); [|done]. f_equal.
  apply filter_ext_in. intros f Hf. unfold faceVisible.
  rewrite (Hag x y z _ _ _ Hx Hy Hz); [done|].
  pose proof (face_dir_unit f Hf). lia.
Qed.

(** X8.  The mesh of a cell whose coordinates are safe integers depends on
    nothing but the cell size, the three texture parameters, the voxels of
    the cell and the voxels that touch the cell through a face: two worlds
    that agree on these return the same four arrays for the cell, whatever
    else they store. *)
Theorem mesh_depends_on_cell_and_border (w w' : VoxelWorld) (cellX cellY cellZ : Z) :
  safeCell (cellSize w) cellX cellY cellZ →
  cellSize w = cellSize w' →
  tileSize w = tileSize w' → tileTextureWidth w = tileTextureWidth w' →
  tileTextureHeight w = tileTextureHeight w' →
  agreeAround w w' cellX cellY cellZ →
  generateGeometryDataForCell w cellX cellY cellZ
  = generateGeometryDataForCell w' cellX cellY cellZ.
Proof.
  intros _ Hc Hs Hw Hh Hag. rewrite !generate_as_quads.
  rewrite (cellQuads_agree w w' cellX cellY cellZ Hc Hag).
  by apply renderQuads_params.
Qed.


Lemma smallWorld_far_write :
  agreeAround smallWorld (setVoxel smallWorld 5 5 5 3 true) 0 0 0.
Proof.
  assert (Hw : wfWorld smallWorld) by (apply wf_newVoxelWorld; lia).
  intros x y z dx dy dz. change (cellSize smallWorld) with 2.
  intros Hx Hy Hz Hd. symmetry. apply getVoxel_setVoxel_ne; [done|].
  intros [= Ex Ey Ez]. lia.
Qed.

Lemma mesh_depends_on_cell_and_border_witness :
  safeCell (cellSize smallWorld) 0 0 0
  ∧ agreeAround smallWorld (setVoxel smallWorld 5 5 5 3 true) 0 0 0
  ∧ generateGeometryDataForCell smallWorld 0 0 0
    = generateGeometryDataForCell (setVoxel smallWorld 5 5 5 3 true) 0 0 0.
Proof.
  assert (Hs : safeCell (cellSize smallWorld) 0 0 0)
    by (refine (bool_decide_unpack _ _); vm_compute; exact I).
  split; [exact Hs|]. split; [exact smallWorld_far_write|].
  exact (mesh_depends_on_cell_and_border smallWorld
           (setVoxel smallWorld 5 5 5 3 true) 0 0 0
           Hs eq_refl eq_refl eq_refl eq_refl smallWorld_far_write).
Defined.

(** ** The face table *)

(** X9.  Every face of the table is a side of the unit cube with outward
    winding: its four corners are distinct corners of the cube and lie on the
    side the direction points to; its texture corners are the four corners of
    the unit square; and both triangles that the six indices of a quad form
    have, by the right-hand rule, the direction of the face as their normal.
    The table of the single-cell variant holds the same faces. *)
Theorem face_table_outward_winding (f : Face) :
  f ∈ faces →
  Forall (fun c => (0 <= (pos c).1.1 <= 1 ∧ 0 <= (pos c).1.2 <= 1
                    ∧ 0 <= (pos c).2 <= 1)
                   ∧ dot (pos c) (dir f) = Z.max 0 (dot (1, 1, 1) (dir f))
                   ∧ 0 <= (uv c).1 <= 1 ∧ 0 <= (uv c).2 <= 1) (corners f)
  ∧ NoDup (pos <$> corners f)
  ∧ NoDup (uv <$> corners f)
  ∧ match quadIndices 0 with
    | [i0; i1; i2; i3; i4; i5] =>
        triangleNormal f i0 i1 i2 = dir f ∧ triangleNormal f i3 i4 i5 = dir f
    | _ => False
    end
  ∧ asSingleFace f ∈ SingleCell.faces.
Proof.
  intros Hf. rewrite single_faces.
  split; [|split; [|split; [|split]]].
  - face_cases Hf; repeat constructor; simpl; lia.
  - face_cases Hf; refine (bool_decide_unpack _ _); vm_compute; exact I.
  - face_cases Hf; refine (bool_decide_unpack _ _); vm_compute; exact I.
  - face_cases Hf; vm_compute; done.
  - by apply list_elem_of_fmap_2.
Qed.

Lemma face_table_outward_winding_witness :
  rightFace ∈ faces
  ∧ triangleNormal rightFace 0 1 2 = (1, 0, 0)
  ∧ triangleNormal rightFace 2 1 3 = (1, 0, 0).
Proof.
  assert (Hf : rightFace ∈ faces) by apply rightFace_in_table.
  split; [exact Hf|].
  exact (proj1 (proj2 (proj2 (proj2 (face_table_outward_winding rightFace Hf))))).
Defined.

(** ** The single-cell world of [src/unnamed/part_000] against the chunked world *)

Lemma asChunked_key sw x y z : 0 < SingleCell.cellSize sw →
  computeCellID (asChunked sw) x y z = "0,0,0" ↔ inCell sw x y z.
Proof.
  intros Hc. change "0,0,0" with (computeCellID (asChunked sw) 0 0 0).
  rewrite computeCellID_inj. simpl. rewrite Z.div_0_l by lia.
  unfold inCell.
  pose proof (Z.div_small_iff x (SingleCell.cellSize sw)).
  pose proof (Z.div_small_iff y (SingleCell.cellSize sw)).
  pose proof (Z.div_small_iff z (SingleCell.cellSize sw)).
  split; intros (Hx & Hy & Hz).
  - assert (x / SingleCell.cellSize sw = 0 ∧ y / SingleCell.cellSize sw = 0
            ∧ z / SingleCell.cellSize sw = 0) as (Hx' & Hy' & Hz') by lia.
    lia.
  - assert (x / SingleCell.cellSize sw = 0 ∧ y / SingleCell.cellSize sw = 0
            ∧ z / SingleCell.cellSize sw = 0) as (Hx' & Hy' & Hz') by lia.
    lia.
Qed.

Lemma asChunked_setVoxel sw x y z v : 0 < SingleCell.cellSize sw →
  asChunked (SingleCell.setVoxel sw x y z v) = setVoxel (asChunked sw) x y z v false.
Proof.
  intros Hc. unfold SingleCell.setVoxel, setVoxel, getCellForVoxel.
  rewrite single_getCell by done.
  change (cells (asChunked sw))
    with ({[ "0,0,0" := SingleCell.cell sw ]} : gmap string (list Z)).
  pose proof (asChunked_key sw x y z Hc) as Hk. unfold inCell in Hk.
  case_decide as Hin.
  - rewrite (proj2 Hk Hin), lookup_singleton_eq.
    unfold writeVoxel, withCells, asChunked. simpl.
    change (cells (asChunked sw))
      with ({[ "0,0,0" := SingleCell.cell sw ]} : gmap string (list Z)).
    fold (asChunked sw). rewrite (proj2 Hk Hin).
    rewrite (alter_present
               (fun cell => JS.typedSet cell (computeVoxelOffset (asChunked sw) x y z) v)
               _ _ (SingleCell.cell sw)) by apply lookup_singleton_eq.
    rewrite insert_singleton_eq. reflexivity.
  - rewrite lookup_singleton_ne; [done|]. intros E. symmetry in E. tauto.
Qed.

Lemma wf_asChunked sw : wfSingle sw → wfWorld (asChunked sw).
Proof.
  intros [Hp Hi Hl]. split; simpl; try done.
  intros k cell Hk. apply lookup_singleton_Some in Hk as [_ <-]. done.
Qed.

(** X10.  The program of [src/unnamed/part_000] behaves as the chunked
    world of [src/main.js] that holds nothing but cell (0,0,0) and is never
    asked to create a cell: a write in the one is the write with [addCell]
    false in the other, every read returns the same type, and every cell
    has the same vertices, normals and triangles. *)
Theorem single_cell_refines_chunked (sw : SingleCell.VoxelWorld) :
  0 < SingleCell.cellSize sw →
  (∀ x y z v,
     asChunked (SingleCell.setVoxel sw x y z v)
     = setVoxel (asChunked sw) x y z v false)
  ∧ (∀ x y z, SingleCell.getVoxel sw x y z = getVoxel (asChunked sw) x y z)
  ∧ (∀ cellX cellY cellZ,
       sameMesh (SingleCell.generateGeometryDataForCell sw cellX cellY cellZ)
         (generateGeometryDataForCell (asChunked sw) cellX cellY cellZ)).
Proof.
  intros Hc. split; [|split].
  - intros x y z v. by apply asChunked_setVoxel.
  - intros x y z. symmetry. by apply asChunked_getVoxel.
  - intros cellX cellY cellZ. by apply sameMesh_generate.
Qed.

Lemma single_cell_refines_chunked_witness :
  0 < SingleCell.cellSize cornerSingle
  ∧ asChunked (SingleCell.setVoxel cornerSingle 1 2 3 4)
    = setVoxel (asChunked cornerSingle) 1 2 3 4 false.
Proof.
  assert (Hc : 0 < SingleCell.cellSize cornerSingle) by (vm_compute; reflexivity).
  split; [exact Hc|].
  exact (proj1 (single_cell_refines_chunked cornerSingle Hc) 1 2 3 4).
Defined.

(** X11.  In the single-cell world a write outside the cell changes
    nothing and a read outside the cell returns 0; a write inside the cell is
    read back as a byte at the voxel written and leaves every other voxel as
    it was. *)
Theorem single_getVoxel_after_setVoxel (sw : SingleCell.VoxelWorld)
    (x y z v x' y' z' : Z) :
  wfSingle sw →
  (¬ inCell sw x y z →
     SingleCell.setVoxel sw x y z v = sw ∧ SingleCell.getVoxel sw x y z = 0)
  ∧ SingleCell.getVoxel (SingleCell.setVoxel sw x y z v) x' y' z' =
      if decide ((x', y', z') = (x, y, z) ∧ inCell sw x y z)
      then v `mod` 256
      else SingleCell.getVoxel sw x' y' z'.
Proof.
  intros Hw. pose proof Hw as [Hp Hi Hl]. split.
  - intros Hout. unfold SingleCell.setVoxel, SingleCell.getVoxel.
    rewrite single_getCell by done. unfold inCell in Hout.
    by rewrite decide_False by done.
  - assert (Hc : SingleCell.cellSize (SingleCell.setVoxel sw x y z v)
                 = SingleCell.cellSize sw).
    { unfold SingleCell.setVoxel. by destruct (SingleCell.getCellForVoxel _ _ _ _). }
    rewrite <- !asChunked_getVoxel by (rewrite ?Hc; done).
    rewrite asChunked_setVoxel by done.
    pose proof (wf_asChunked sw Hw) as Hcw.
    pose proof (asChunked_key sw x y z Hp) as Hk.
    case_decide as Hd.
    + destruct Hd as [[= -> -> ->] Hin].
      assert (setVoxel (asChunked sw) x y z v false
              = setVoxel (asChunked sw) x y z v true) as ->.
      { unfold setVoxel, getCellForVoxel. rewrite (proj2 Hk Hin).
        change (cells (asChunked sw))
          with ({[ "0,0,0" := SingleCell.cell sw ]} : gmap string (list Z)).
        by rewrite lookup_singleton_eq. }
      by apply getVoxel_setVoxel_eq.
    + destruct (decide ((x, y, z) = (x', y', z'))) as [[= <- <- <-]|Hne].
      * assert (Hout : ¬ inCell sw x y z) by tauto.
        unfold setVoxel, getCellForVoxel.
        change (cells (asChunked sw))
          with ({[ "0,0,0" := SingleCell.cell sw ]} : gmap string (list Z)).
        rewrite lookup_singleton_ne; [done|]. intros E. symmetry in E. tauto.
      * by apply getVoxel_setVoxel_ne.
Qed.

Lemma single_getVoxel_after_setVoxel_witness :
  wfSingle (SingleCell.newVoxelWorld 32)
  ∧ SingleCell.getVoxel
      (SingleCell.setVoxel (SingleCell.newVoxelWorld 32) 1 2 3 300) 1 2 3 = 44.
Proof.
  assert (Hw : wfSingle (SingleCell.newVoxelWorld 32))
    by (apply wf_newSingle; lia).
  split; [exact Hw|].
  exact (proj2 (single_getVoxel_after_setVoxel (SingleCell.newVoxelWorld 32)
                  1 2 3 300 1 2 3 Hw)).
Defined.


(** ** The meshes of the page *)

Lemma updateCellGeometry_lookup w s x y z :
  cellIDToMesh (updateCellGeometry w s x y z) !! computeCellID w x y z =
    Some (let g := generateGeometryDataForCell w (x / cellSize w)
                     (y / cellSize w) (z / cellSize w) in
          match cellIDToMesh s !! computeCellID w x y z with
          | Some mesh => mkMesh (meshName mesh) g (meshPosition mesh)
          | None => mkMesh (computeCellID w x y z) g
                      (x / cellSize w * cellSize w, y / cellSize w * cellSize w,
                       z / cellSize w * cellSize w)
          end).
Proof.
  unfold updateCellGeometry, JS.floorDiv.
  destruct (cellIDToMesh s !! computeCellID w x y z); simpl;
    by rewrite lookup_insert_eq.
Qed.

Lemma updateCellGeometry_lookup_ne w s x y z k :
  k ≠ computeCellID w x y z →
  cellIDToMesh (updateCellGeometry w s x y z) !! k = cellIDToMesh s !! k.
Proof.
  intros Hk. unfold updateCellGeometry.
  destruct (cellIDToMesh s !! computeCellID w x y z); simpl;
    by rewrite lookup_insert_ne.
Qed.

(** Only the cell of the voxel matters. *)
Lemma updateCellGeometry_cell w s x y z x' y' z' :
  computeCellID w x y z = computeCellID w x' y' z' →
  updateCellGeometry w s x y z = updateCellGeometry w s x' y' z'.
Proof.
  intros Hk. unfold updateCellGeometry, JS.floorDiv. rewrite Hk.
  apply computeCellID_inj in Hk as (-> & -> & ->). done.
Qed.

Lemma updateCellGeometry_lookup_ext w s s' x y z :
  cellIDToMesh s !! computeCellID w x y z = cellIDToMesh s' !! computeCellID w x y z →
  cellIDToMesh (updateCellGeometry w s x y z) !! computeCellID w x y z
  = cellIDToMesh (updateCellGeometry w s' x y z) !! computeCellID w x y z.
Proof. intros E. by rewrite !updateCellGeometry_lookup, E. Qed.

(** The mesh of a cell after the loop of [updateVoxelGeometry]: refreshed
    from the state the loop started in, if one of the offsets leads to the
    cell and the cell had not been marked; as before otherwise. *)
Lemma refreshCell_lookup w x y z offs u s x' y' z' :
  cellIDToMesh ((foldl (refreshCell w x y z) (u, s) offs).2)
    !! computeCellID w x' y' z' =
    if decide ((computeCellID w x' y' z' ∉ u)
               ∧ Exists (fun o => computeCellID w (x + o.1.1) (y + o.1.2) (z + o.2)
                                  = computeCellID w x' y' z') offs)
    then cellIDToMesh (updateCellGeometry w s x' y' z') !! computeCellID w x' y' z'
    else cellIDToMesh s !! computeCellID w x' y' z'.
Proof.
  revert u s. induction offs as [|o offs IH]; intros u s.
  - simpl. rewrite decide_False; [done|]. intros [_ He]. by apply Exists_nil in He.
  - cbn [foldl]. unfold refreshCell at 2. cbn [fst snd].
    destruct (decide (computeCellID w (x + o.1.1) (y + o.1.2) (z + o.2) ∈ u))
      as [Hin|Hnin].
    + rewrite IH. apply decide_ext. rewrite Exists_cons.
      split; [tauto|]. intros (Hk & [E|He]); [|tauto].
      exfalso. apply Hk. by rewrite <- E.
    + rewrite IH.
      destruct (decide (computeCellID w (x + o.1.1) (y + o.1.2) (z + o.2)
                        = computeCellID w x' y' z')) as [E|Hne].
      * rewrite decide_False.
        2:{ intros [Hk _]. apply Hk, elem_of_union_l, elem_of_singleton.
            by rewrite E. }
        rewrite decide_True.
        2:{ split; [by rewrite <- E|]. apply Exists_cons. by left. }
        by rewrite (updateCellGeometry_cell w s _ _ _ x' y' z' E).
      * rewrite (updateCellGeometry_lookup_ext w _ s x' y' z').
        2:{ apply updateCellGeometry_lookup_ne. intros E'. apply Hne. by symmetry. }
        rewrite (updateCellGeometry_lookup_ne w s (x + o.1.1) (y + o.1.2) (z + o.2)
                   (computeCellID w x' y' z'))
          by (intros E'; apply Hne; by symmetry).
        apply decide_ext. rewrite Exists_cons, not_elem_of_union, elem_of_singleton.
        split; [intros [[? ?] ?]; tauto|]. intros [? [E'|?]]; [by destruct Hne|].
        split; [split; [intros E'; apply Hne; by symmetry|done]|done].
Qed.

Lemma updateVoxelGeometry_lookup w s x y z x' y' z' :
  cellIDToMesh (updateVoxelGeometry w s x y z) !! computeCellID w x' y' z' =
    if decide (nearCell w x y z (computeCellID w x' y' z'))
    then cellIDToMesh (updateCellGeometry w s x' y' z') !! computeCellID w x' y' z'
    else cellIDToMesh s !! computeCellID w x' y' z'.
Proof.
  unfold updateVoxelGeometry. rewrite refreshCell_lookup.
  apply decide_ext. unfold nearCell. split; [tauto|].
  intros He. split; [apply not_elem_of_empty|done].
Qed.

Lemma neighbor_offset_cases dx dy dz :
  Z.abs dx + Z.abs dy + Z.abs dz <= 1 → (- dx, - dy, - dz) ∈ neighborOffsets.
Proof.
  intros H.
  assert (Hx : dx = -1 ∨ dx = 0 ∨ dx = 1) by lia.
  assert (Hy : dy = -1 ∨ dy = 0 ∨ dy = 1) by lia.
  assert (Hz : dz = -1 ∨ dz = 0 ∨ dz = 1) by lia.
  destruct Hx as [-> | [-> | ->]], Hy as [-> | [-> | ->]],
    Hz as [-> | [-> | ->]];
    simpl in H; try lia;
    refine (bool_decide_unpack _ _); vm_compute; exact I.
Qed.

(** The cell of a voxel consists of the voxels with the same key. *)
Lemma computeCellID_local w x y z lx ly lz :
  0 < cellSize w →
  0 <= lx < cellSize w → 0 <= ly < cellSize w → 0 <= lz < cellSize w →
  computeCellID w (x / cellSize w * cellSize w + lx)
    (y / cellSize w * cellSize w + ly) (z / cellSize w * cellSize w + lz)
  = computeCellID w x y z.
Proof.
  intros Hc Hx Hy Hz. apply computeCellID_inj.
  rewrite !(Z.add_comm (_ * cellSize w)), !Z.div_add by lia.
  rewrite (Z.div_small lx), (Z.div_small ly), (Z.div_small lz) by lia.
  done.
Qed.

(** A write to a voxel leaves the geometry of every cell that neither holds
    the voxel nor one of its six neighbors. *)
Lemma generate_setVoxel_far w x y z v b x' y' z' :
  wfWorld w →
  ¬ nearCell w x y z (computeCellID w x' y' z') →
  generateGeometryDataForCell (setVoxel w x y z v b) (x' / cellSize w)
    (y' / cellSize w) (z' / cellSize w)
  = generateGeometryDataForCell w (x' / cellSize w) (y' / cellSize w)
      (z' / cellSize w).
Proof.
  intros Hw Hfar. pose proof Hw as [Hp _ _].
  destruct (params_setVoxel w x y z v b) as (Hs & Htw & Hth).
  rewrite !generate_as_quads.
  rewrite (cellQuads_agree (setVoxel w x y z v b) w).
  - by apply renderQuads_params.
  - apply cellSize_setVoxel.
  - intros lx ly lz dx dy dz. rewrite cellSize_setVoxel.
    intros Hx Hy Hz Hd. apply getVoxel_setVoxel_ne; [done|].
    intros [= Ex Ey Ez]. apply Hfar. unfold nearCell.
    apply list.Exists_exists. exists (- dx, - dy, - dz).
    split; [by apply neighbor_offset_cases|]. cbn [fst snd].
    rewrite <- (computeCellID_local w x' y' z' lx ly lz) by done.
    f_equal; lia.
Qed.

(** X12.  Editing keeps the meshes in step with the world.  Take a world
    whose cells can be allocated and a voxel that is, with its six neighbors,
    at safe integers.  If the mesh of every cell at safe integers shows the
    cell's geometry (and such cells without mesh have none), then after
    [setVoxel] at the voxel followed by [updateVoxelGeometry] at the same
    voxel this holds again: the seven cells looked at are the only ones whose
    geometry the write can change. *)
Theorem edit_keeps_meshes_in_sync (w : VoxelWorld) (s : View) (x y z v : Z)
    (addCell : bool) :
  wfWorld w → allocatableWorld w → safeNeighbors x y z → inSync w s →
  inSync (setVoxel w x y z v addCell)
    (updateVoxelGeometry (setVoxel w x y z v addCell) s x y z).
Proof.
  intros Hw _ _ Hs x' y' z'. cbv zeta.
  rewrite updateVoxelGeometry_lookup.
  specialize (Hs x' y' z'). cbv zeta in Hs. unfold JS.floorDiv in *.
  rewrite cellSize_setVoxel. intros Hsafe. specialize (Hs Hsafe).
  case_decide as Hd.
  - rewrite updateCellGeometry_lookup.
    rewrite computeCellID_setVoxel, cellSize_setVoxel in *.
    destruct (cellIDToMesh s !! computeCellID w x' y' z') as [m|]; simpl.
    + destruct Hs as (_ & Hn & Hpos). done.
    + done.
  - unfold nearCell in Hd.
    assert (Hfar : ¬ nearCell w x y z (computeCellID w x' y' z')).
    { unfold nearCell. intros He. apply Hd.
      apply list.Exists_exists in He as (o & Ho & E).
      apply list.Exists_exists. exists o. split; [done|].
      by rewrite !computeCellID_setVoxel. }
    rewrite computeCellID_setVoxel.
    rewrite (generate_setVoxel_far w x y z v addCell x' y' z' Hw Hfar).
    exact Hs.
Qed.

Lemma inSync_empty c ts tw th : inSync (newVoxelWorld c ts tw th) emptyView.
Proof.
  intros x y z. cbv zeta. intros _. simpl. rewrite lookup_empty.
  apply generate_no_solid. intros. apply getVoxel_new.
Qed.

Lemma edit_keeps_meshes_in_sync_witness :
  wfWorld smallWorld ∧ allocatableWorld smallWorld ∧ safeNeighbors 1 1 1
  ∧ inSync smallWorld emptyView
  ∧ inSync (setVoxel smallWorld 1 1 1 3 true)
      (updateVoxelGeometry (setVoxel smallWorld 1 1 1 3 true) emptyView 1 1 1).
Proof.
  assert (Hw : wfWorld smallWorld) by (apply wf_newVoxelWorld; lia).
  assert (Ha : allocatableWorld smallWorld)
    by (refine (bool_decide_unpack _ _); vm_compute; exact I).
  assert (Hn : safeNeighbors 1 1 1)
    by (refine (bool_decide_unpack _ _); vm_compute; exact I).
  assert (Hs : inSync smallWorld emptyView) by apply inSync_empty.
  split; [exact Hw|]. split; [exact Ha|]. split; [exact Hn|]. split; [exact Hs|].
  exact (edit_keeps_meshes_in_sync smallWorld emptyView 1 1 1 3 true Hw Ha Hn Hs).
Defined.

(** X13.  The first call brings the meshes in step with the world.  Take a
    voxel that is, with its six neighbors, at safe integers.  If every solid
    voxel lies in the cell of that voxel or in the cell of one of its
    neighbors, then after [updateVoxelGeometry] on a page without meshes the
    mesh of every cell at safe integers shows the cell's geometry.  This is
    the state after the page has filled cell (0,0,0) and called
    [updateVoxelGeometry (1, 1, 1)]. *)
Theorem first_update_brings_meshes_in_sync (w : VoxelWorld) (x y z : Z) :
  0 < cellSize w → safeNeighbors x y z →
  (∀ x' y' z', getVoxel w x' y' z' ≠ 0 →
     nearCell w x y z (computeCellID w x' y' z')) →
  inSync w (updateVoxelGeometry w emptyView x y z).
Proof.
  intros Hc _ Hsolid x' y' z'. cbv zeta. unfold JS.floorDiv. intros _.
  rewrite updateVoxelGeometry_lookup. case_decide as Hd.
  - rewrite updateCellGeometry_lookup. simpl. rewrite lookup_empty. done.
  - simpl. rewrite lookup_empty. apply generate_no_solid.
    intros lx ly lz Hx Hy Hz.
    destruct (decide (getVoxel w (x' / cellSize w * cellSize w + lx)
                        (y' / cellSize w * cellSize w + ly)
                        (z' / cellSize w * cellSize w + lz) = 0)) as [|Hne];
      [done|].
    exfalso. apply Hd. apply Hsolid in Hne.
    by rewrite computeCellID_local in Hne.
Qed.

Lemma smallWorld_solid x' y' z' :
  getVoxel (setVoxel smallWorld 1 1 1 3 true) x' y' z' ≠ 0 →
  nearCell (setVoxel smallWorld 1 1 1 3 true) 1 1 1
    (computeCellID (setVoxel smallWorld 1 1 1 3 true) x' y' z').
Proof.
  assert (Hw : wfWorld smallWorld) by (apply wf_newVoxelWorld; lia).
  intros Hne. destruct (decide ((1, 1, 1) = (x', y', z'))) as [[= <- <- <-]|Hd].
  - unfold nearCell, neighborOffsets. apply Exists_cons. by left.
  - rewrite getVoxel_setVoxel_ne in Hne by done.
    exfalso. apply Hne. apply getVoxel_new.
Qed.

Lemma first_update_brings_meshes_in_sync_witness :
  0 < cellSize (setVoxel smallWorld 1 1 1 3 true) ∧ safeNeighbors 1 1 1
  ∧ inSync (setVoxel smallWorld 1 1 1 3 true)
      (updateVoxelGeometry (setVoxel smallWorld 1 1 1 3 true) emptyView 1 1 1).
Proof.
  assert (Hc : 0 < cellSize (setVoxel smallWorld 1 1 1 3 true))
    by (rewrite cellSize_setVoxel; simpl; lia).
  assert (Hn : safeNeighbors 1 1 1)
    by (refine (bool_decide_unpack _ _); vm_compute; exact I).
  split; [exact Hc|]. split; [exact Hn|].
  exact (first_update_brings_meshes_in_sync (setVoxel smallWorld 1 1 1 3 true)
           1 1 1 Hc Hn smallWorld_solid).
Defined.

Lemma updateCellGeometry_scene w s x y z :
  sceneOk s →
  sceneOk (updateCellGeometry w s x y z)
  ∧ (∀ k, is_Some (cellIDToMesh s !! k) →
          is_Some (cellIDToMesh (updateCellGeometry w s x y z) !! k))
  ∧ sceneMeshes s `prefix_of` sceneMeshes (updateCellGeometry w s x y z)
  ∧ (length (sceneMeshes (updateCellGeometry w s x y z))
     <= length (sceneMeshes s) + 1)%nat.
Proof.
  intros [Hnd Hdom]. unfold updateCellGeometry, sceneOk.
  destruct (cellIDToMesh s !! computeCellID w x y z) as [m|] eqn:E;
    cbn [cellIDToMesh sceneMeshes].
  - split; [split; [done|]|split; [|split; [done|lia]]].
    + intros k. rewrite lookup_insert_is_Some, Hdom.
      split; [intros Hk|intros [<-|[_ Hk]]; [by rewrite E|done]].
      destruct (decide (computeCellID w x y z = k)); [by left|by right].
    + intros k Hk. apply lookup_insert_is_Some.
      destruct (decide (computeCellID w x y z = k)); [by left|by right].
  - assert (Hnew : computeCellID w x y z ∉ sceneMeshes s).
    { rewrite Hdom, E. by intros [? [=]]. }
    split; [split|split; [|split]].
    + apply list.NoDup_app. split; [done|]. split; [|apply NoDup_singleton].
      intros k Hk ->%list_elem_of_singleton. done.
    + intros k. rewrite elem_of_app, list_elem_of_singleton.
      rewrite lookup_insert_is_Some, Hdom.
      split; [intros [Hk| ->]|intros [<-|[_ Hk]]]; [|by left|by right|by left].
      destruct (decide (computeCellID w x y z = k)); [by left|by right].
    + intros k Hk. apply lookup_insert_is_Some.
      destruct (decide (computeCellID w x y z = k)); [by left|by right].
    + by apply prefix_app_r.
    + rewrite length_app. simpl. lia.
Qed.

Lemma refreshCell_scene w x y z offs u s :
  sceneOk s →
  sceneOk (foldl (refreshCell w x y z) (u, s) offs).2
  ∧ (∀ k, is_Some (cellIDToMesh s !! k) →
          is_Some (cellIDToMesh ((foldl (refreshCell w x y z) (u, s) offs).2) !! k))
  ∧ sceneMeshes s `prefix_of` sceneMeshes (foldl (refreshCell w x y z) (u, s) offs).2
  ∧ (length (sceneMeshes (foldl (refreshCell w x y z) (u, s) offs).2)
     <= length (sceneMeshes s) + length offs)%nat.
Proof.
  revert u s. induction offs as [|o offs IH]; intros u s Hs.
  - simpl. split; [done|]. split; [done|]. split; [done|lia].
  - cbn [foldl]. unfold refreshCell at 2 4 6 8. cbn [fst snd].
    destruct (decide (computeCellID w (x + o.1.1) (y + o.1.2) (z + o.2) ∈ u)).
    + destruct (IH u s Hs) as (H1 & H2 & H3 & H4).
      split; [done|]. split; [done|]. split; [done|]. simpl. lia.
    + destruct (updateCellGeometry_scene w s (x + o.1.1) (y + o.1.2) (z + o.2) Hs)
        as (G1 & G2 & G3 & G4).
      destruct (IH ({[computeCellID w (x + o.1.1) (y + o.1.2) (z + o.2)]} ∪ u)
                  _ G1) as (H1 & H2 & H3 & H4).
      split; [done|]. split; [by intros k Hk; apply H2, G2|].
      split; [by etrans|]. simpl. lia.
Qed.

(** X14.  [updateVoxelGeometry] reuses meshes: if the scene holds one mesh
    per registered cell and none twice, this is still so after the call; no
    registered mesh is dropped, the meshes already in the scene stay in place
    and at most seven are added. *)
Theorem updateVoxelGeometry_reuses_meshes (w : VoxelWorld) (s : View) (x y z : Z) :
  sceneOk s →
  sceneOk (updateVoxelGeometry w s x y z)
  ∧ (∀ k, is_Some (cellIDToMesh s !! k) →
          is_Some (cellIDToMesh (updateVoxelGeometry w s x y z) !! k))
  ∧ sceneMeshes s `prefix_of` sceneMeshes (updateVoxelGeometry w s x y z)
  ∧ (length (sceneMeshes (updateVoxelGeometry w s x y z))
     <= length (sceneMeshes s) + 7)%nat.
Proof.
  intros Hs. unfold updateVoxelGeometry.
  exact (refreshCell_scene w x y z neighborOffsets ∅ s Hs).
Qed.

Lemma sceneOk_empty : sceneOk emptyView.
Proof.
  split; [apply NoDup_nil_2|]. intros k. simpl. rewrite lookup_empty.
  split; [by intros ?%elem_of_nil|by intros [? [=]]].
Qed.

Lemma updateVoxelGeometry_reuses_meshes_witness :
  sceneOk emptyView
  ∧ sceneOk (updateVoxelGeometry (setVoxel smallWorld 1 1 1 3 true) emptyView 1 1 1).
Proof.
  assert (Hs : sceneOk emptyView) by apply sceneOk_empty.
  split; [exact Hs|].
  exact (proj1 (updateVoxelGeometry_reuses_meshes
                  (setVoxel smallWorld 1 1 1 3 true) emptyView 1 1 1 Hs)).
Defined.

Lemma interior_neighbor c x d :
  0 < x `mod` c < c - 1 → -1 <= d <= 1 → (x + d) / c = x / c.
Proof.
  intros Hx Hd. assert (Hc : 0 < c) by lia.
  symmetry. apply (Z.div_unique_pos (x + d) c (x / c) (x `mod` c + d)); [lia|].
  pose proof (Z.div_mod x c). lia.
Qed.

(** X15.  A voxel that does not touch the boundary of its cell costs one
    cell: if the voxel is, with its six neighbors, at safe integers and each
    of its three local coordinates lies strictly between 0 and
    [cellSize - 1], [updateVoxelGeometry] does what a single
    [updateCellGeometry] of the voxel's cell does. *)
Theorem interior_voxel_updates_one_cell (w : VoxelWorld) (s : View) (x y z : Z) :
  safeNeighbors x y z →
  0 < x `mod` cellSize w < cellSize w - 1 →
  0 < y `mod` cellSize w < cellSize w - 1 →
  0 < z `mod` cellSize w < cellSize w - 1 →
  updateVoxelGeometry w s x y z = updateCellGeometry w s x y z.
Proof.
  intros _ Hx Hy Hz.
  assert (Hk : ∀ o, o ∈ neighborOffsets →
    computeCellID w (x + o.1.1) (y + o.1.2) (z + o.2) = computeCellID w x y z).
  { intros [[dx dy] dz] Ho.
    assert (Hd : (-1 <= dx <= 1) ∧ (-1 <= dy <= 1) ∧ (-1 <= dz <= 1)).
    { unfold neighborOffsets in Ho.
      repeat (apply elem_of_cons in Ho as [Ho|Ho];
              [injection Ho as -> -> ->; lia|]).
      by apply elem_of_nil in Ho. }
    apply computeCellID_inj. cbn [fst snd].
    rewrite (interior_neighbor _ x dx), (interior_neighbor _ y dy),
      (interior_neighbor _ z dz) by tauto.
    done. }
  unfold updateVoxelGeometry.
  assert (Hrest : ∀ offs s', (∀ o, o ∈ offs → o ∈ neighborOffsets) →
    foldl (refreshCell w x y z) ({[computeCellID w x y z]} ∪ ∅, s') offs
    = ({[computeCellID w x y z]} ∪ ∅, s')).
  { induction offs as [|o offs IH]; intros s' Hsub; [done|].
    cbn [foldl]. unfold refreshCell at 2. cbn [fst snd].
    rewrite (Hk o) by (apply Hsub; by left).
    rewrite decide_True by (apply elem_of_union_l; by apply elem_of_singleton).
    apply IH. intros o' Ho'. apply Hsub. by right. }
  assert (Hfirst : refreshCell w x y z (∅, s) (0, 0, 0)
                   = ({[computeCellID w x y z]} ∪ ∅, updateCellGeometry w s x y z)).
  { unfold refreshCell. cbn [fst snd]. rewrite !Z.add_0_r.
    by rewrite decide_False by apply not_elem_of_empty. }
  unfold neighborOffsets at 1.
  assert (Hcons : ∀ (f : gset string * View → Z * Z * Z → gset string * View)
                    a o l, foldl f a (o :: l) = foldl f (f a o) l) by done.
  rewrite Hcons, Hfirst, Hrest; [done|].
  intros o Ho. unfold neighborOffsets. by right.
Qed.

Lemma interior_voxel_updates_one_cell_witness :
  safeNeighbors 5 5 5
  ∧ 0 < 5 `mod` cellSize emptyWorld < cellSize emptyWorld - 1
  ∧ updateVoxelGeometry emptyWorld emptyView 5 5 5
    = updateCellGeometry emptyWorld emptyView 5 5 5.
Proof.
  assert (Hn : safeNeighbors 5 5 5)
    by (refine (bool_decide_unpack _ _); vm_compute; exact I).
  assert (H5 : 0 < 5 `mod` cellSize emptyWorld < cellSize emptyWorld - 1)
    by (vm_compute; split; reflexivity).
  split; [exact Hn|]. split; [exact H5|].
  exact (interior_voxel_updates_one_cell emptyWorld emptyView 5 5 5 Hn H5 H5 H5).
Defined.


(** ** The ray: what a result says *)

(** X16.  The loop returns the first solid voxel on its path, and nothing
    else: it returns a hit exactly if, for some [n] below the fuel, the
    voxels of the first [n] states are empty and within the length, and the
    state after [n] turns is within the length at a solid voxel, the hit
    being built from that state; it returns [null] exactly if the first [n]
    states are such and the state after [n] turns is beyond the length.  This
    holds for doubles as for exact numbers. *)
Theorem ray_returns_first_solid_voxel {R} `{RayNum R} {T : Type}
    (lookup : Z → Z → Z → Z) (hit : RayState R → Z → T) (p : RayParams R)
    (s : RayState R) (fuel : nat) (r : option T) :
  rayLoop fuel lookup hit p s = Some r ↔
  ∃ n, (n < fuel)%nat
    ∧ (∀ m, (m < n)%nat →
         rn_le (rt (rayStateAfter p s m)) (len p) = true
         ∧ lookup (ix (rayStateAfter p s m)) (iy (rayStateAfter p s m))
             (iz (rayStateAfter p s m)) = 0)
    ∧ match r with
      | Some h =>
          rn_le (rt (rayStateAfter p s n)) (len p) = true
          ∧ lookup (ix (rayStateAfter p s n)) (iy (rayStateAfter p s n))
              (iz (rayStateAfter p s n)) ≠ 0
          ∧ h = hit (rayStateAfter p s n)
                  (lookup (ix (rayStateAfter p s n)) (iy (rayStateAfter p s n))
                     (iz (rayStateAfter p s n)))
      | None => rn_le (rt (rayStateAfter p s n)) (len p) = false
      end.
Proof.
  revert s. induction fuel as [|fuel IH]; intros s.
  { split; [done|]. intros (n & Hn & _). lia. }
  cbn [rayLoop].
  destruct (rn_le (rt s) (len p)) eqn:Et.
  - destruct (JS.truthy (lookup (ix s) (iy s) (iz s))) eqn:Ev.
    + apply truthy_true in Ev. split.
      * intros [= <-]. exists 0%nat. split; [lia|]. split; [intros m; lia|].
        by cbn.
      * intros (n & Hn & Hbefore & Hr). destruct n as [|n].
        -- cbn in Hr. destruct r as [h|]; [|congruence].
           destruct Hr as (_ & _ & ->). done.
        -- destruct (Hbefore 0%nat) as [_ E0]; [lia|]. cbn in E0. done.
    + apply truthy_false in Ev. rewrite IH. split.
      * intros (n & Hn & Hbefore & Hr). exists (S n). split; [lia|].
        split.
        -- intros [|m] Hm; [by cbn|]. rewrite rayStateAfter_succ.
           apply Hbefore. lia.
        -- by rewrite rayStateAfter_succ.
      * intros (n & Hn & Hbefore & Hr). destruct n as [|n].
        -- cbn in Hr. destruct r as [h|]; [|congruence].
           destruct Hr as (_ & Hne & _). done.
        -- exists n. split; [lia|]. split.
           ++ intros m Hm. rewrite <- rayStateAfter_succ. apply Hbefore. lia.
           ++ by rewrite <- rayStateAfter_succ.
  - split.
    + intros [= <-]. exists 0%nat. split; [lia|]. split; [intros m; lia|].
      by cbn.
    + intros (n & Hn & Hbefore & Hr). destruct n as [|n].
      * cbn in Hr. destruct r as [h|]; [|done].
        destruct Hr as (Hle & _). congruence.
      * destruct (Hbefore 0%nat) as [E0 _]; [lia|]. cbn in E0. congruence.
Qed.

(** A hit is built from the state that the loop has reached after some
    turns over empty voxels. *)
Lemma rayLoop_hit_at {R} `{RayNum R} {T : Type} (lookup : Z → Z → Z → Z)
    (hit : RayState R → Z → T) (p : RayParams R) fuel :
  ∀ s h, rayLoop fuel lookup hit p s = Some (Some h) →
  ∃ n, (n < fuel)%nat
    ∧ (∀ m, (m < n)%nat →
         lookup (ix (rayStateAfter p s m)) (iy (rayStateAfter p s m))
           (iz (rayStateAfter p s m)) = 0)
    ∧ lookup (ix (rayStateAfter p s n)) (iy (rayStateAfter p s n))
        (iz (rayStateAfter p s n)) ≠ 0
    ∧ h = hit (rayStateAfter p s n)
            (lookup (ix (rayStateAfter p s n)) (iy (rayStateAfter p s n))
               (iz (rayStateAfter p s n))).
Proof.
  induction fuel as [|fuel IH]; intros s h Hr; [done|].
  cbn [rayLoop] in Hr. destruct (rn_le (rt s) (len p)); [|done].
  destruct (JS.truthy (lookup (ix s) (iy s) (iz s))) eqn:Ev.
  - apply truthy_true in Ev. injection Hr as <-. exists 0%nat.
    split; [lia|]. split; [intros m; lia|]. by cbn.
  - apply truthy_false in Ev.
    destruct (IH _ _ Hr) as (n & Hn & Hbefore & Hv & Hh).
    exists (S n). split; [lia|]. rewrite !rayStateAfter_succ.
    split; [|done]. intros [|m] Hm; [by cbn|].
    rewrite rayStateAfter_succ. apply Hbefore. lia.
Qed.

Lemma step_dir_in_table (k : Z) :
  0 <= k <= 2 →
  ∀ sx sy sz,
    (sx = 1 ∨ sx = -1) → (sy = 1 ∨ sy = -1) → (sz = 1 ∨ sz = -1) →
    (if k =? 0 then - sx else 0, if k =? 1 then - sy else 0,
     if k =? 2 then - sz else 0) ∈ dir <$> faces.
Proof.
  intros Hk sx sy sz Hx Hy Hz.
  assert (Hk' : k = 0 ∨ k = 1 ∨ k = 2) by lia.
  destruct Hk' as [-> | [-> | ->]], Hx as [-> | ->], Hy as [-> | ->],
    Hz as [-> | ->]; refine (bool_decide_unpack _ _); vm_compute; exact I.
Qed.

Lemma rayHit_fields start end_ s v :
  voxel (rayHit start end_ s v) = v
  ∧ normal (rayHit start end_ s v) = enteredFrom (rayParams start end_) s.
Proof.
  unfold rayHit, rayParams.
  by destruct (raySetup start end_) as [[[[dx dy] dz] p] s0].
Qed.

(** The state a turn leaves: entered through a face of the table, from the
    voxel the turn started at. *)
Lemma advanceRay_entered (p : RayParams float) (s : RayState float) :
  (stepX p = 1 ∨ stepX p = -1) → (stepY p = 1 ∨ stepY p = -1) →
  (stepZ p = 1 ∨ stepZ p = -1) →
  enteredFrom p (advanceRay p s) ∈ dir <$> faces
  ∧ vadd (cellOf (advanceRay p s)) (enteredFrom p (advanceRay p s)) = cellOf s.
Proof.
  intros Hx Hy Hz. unfold advanceRay, enteredFrom, cellOf, vadd.
  destruct (chooseAxis s);
    cbn [stepAxis steppedIndex ix iy iz fst snd];
    (split; [by apply step_dir_in_table|]);
    cbn [Z.eqb Pos.eqb];
    by rewrite ?Z.add_0_r, <- ?Z.add_assoc, ?Z.add_opp_diag_r, ?Z.add_0_r.
Qed.

(** X17.  A hit names a solid voxel and a face of it that is open.  In a
    world of positive cell size, for a ray from a finite start point, in a
    region of safe integers, a hit returned by [intersectRay] is the record
    built from the state [s] that the loop is in after some number [n] of
    turns: its position is the point
    of the ray at the [t] of that state, its voxel type is the type of the
    voxel of that state and is not 0, and its normal is (0,0,0) if [n] is 0,
    the voxel then being the one that holds the start point; otherwise the
    normal is the direction of a face of the table, the voxel next to the
    hit voxel in that direction is the one the loop came from, and it is
    empty. *)
Theorem hit_reports_open_face (fuel : nat) (w : VoxelWorld)
    (start end_ : Vector3) (r : Intersection) :
  0 < cellSize w → finiteStart start → safeStart start fuel →
  intersectRay fuel w start end_ = Some (Some r) →
  ∃ n, (n < fuel)%nat
    ∧ let s := rayStateAfter (rayParams start end_) (rayStart start end_) n in
      r = rayHit start end_ s (getVoxel w (ix s) (iy s) (iz s))
      ∧ voxel r = getVoxel w (ix s) (iy s) (iz s) ∧ voxel r ≠ 0
      ∧ safeVoxel (ix s) (iy s) (iz s)
      ∧ match n with
        | O =>
            normal r = (0, 0, 0)
            ∧ cellOf s = (JS.floor (vx start), JS.floor (vy start),
                          JS.floor (vz start))
        | S m =>
            normal r ∈ dir <$> faces
            ∧ vadd (cellOf s) (normal r)
              = cellOf (rayStateAfter (rayParams start end_)
                          (rayStart start end_) m)
            ∧ getVoxel w (ix s + (normal r).1.1) (iy s + (normal r).1.2)
                (iz s + (normal r).2) = 0
        end.
Proof.
  intros _ _ Hsafe Hr. rewrite intersectRay_rayLoop in Hr.
  apply rayLoop_hit_at in Hr as (n & Hn & Hbefore & Hv & ->).
  exists n. split; [done|]. cbv zeta.
  set (p := rayParams start end_) in *. set (s0 := rayStart start end_) in *.
  destruct (rayHit_fields start end_ (rayStateAfter p s0 n)
              (getVoxel w (ix (rayStateAfter p s0 n)) (iy (rayStateAfter p s0 n))
                 (iz (rayStateAfter p s0 n)))) as [Evox Enorm].
  fold p in Enorm. rewrite Evox, Enorm.
  split; [done|]. split; [done|]. split; [done|].
  split; [apply (safeStart_path start end_ fuel n); [done|lia]|].
  destruct n as [|m].
  - change (rayStateAfter p s0 0) with s0.
    destruct (rayStart_eq start end_) as [Hc Hi]. fold s0 in Hc, Hi.
    split; [|exact Hc]. unfold enteredFrom. by rewrite Hi.
  - rewrite rayStateAfter_S.
    destruct (raySetup_steps start end_) as (Hx & Hy & Hz). fold p in Hx, Hy, Hz.
    destruct (advanceRay_entered p (rayStateAfter p s0 m) Hx Hy Hz) as [Hin Hback].
    split; [exact Hin|]. split; [exact Hback|].
    set (sm := rayStateAfter p s0 m) in *.
    assert (Ex : ix (advanceRay p sm) + (enteredFrom p (advanceRay p sm)).1.1 = ix sm)
      by exact (f_equal (fun c : Z * Z * Z => c.1.1) Hback).
    assert (Ey : iy (advanceRay p sm) + (enteredFrom p (advanceRay p sm)).1.2 = iy sm)
      by exact (f_equal (fun c : Z * Z * Z => c.1.2) Hback).
    assert (Ez : iz (advanceRay p sm) + (enteredFrom p (advanceRay p sm)).2 = iz sm)
      by exact (f_equal (fun c : Z * Z * Z => c.2) Hback).
    rewrite Ex, Ey, Ez. apply Hbefore. lia.
Qed.

Lemma downward_hit :
  intersectRay 11 originWorld downStart downEnd =
    Some (Some (mkIntersection (0.5%float, 1%float, 0.5%float) (0, 1, 0) 5)).
Proof.
  unfold intersectRay.
  set (r := raySetup downStart downEnd). vm_compute in r. subst r. cbv beta iota.
  do 10 ray_turn originWorld_only_voxel.
  rewrite rayLoop_hit; [|reflexivity|by rewrite originWorld_only_voxel].
  cbn [ix iy iz]. rewrite originWorld_only_voxel. reflexivity.
Qed.

Lemma hit_reports_open_face_witness :
  0 < cellSize originWorld ∧ finiteStart downStart ∧ safeStart downStart 11
  ∧ intersectRay 11 originWorld downStart downEnd =
      Some (Some (mkIntersection (0.5%float, 1%float, 0.5%float) (0, 1, 0) 5))
  ∧ ∃ n, (n < 11)%nat
      ∧ mkIntersection (0.5%float, 1%float, 0.5%float) (0, 1, 0) 5
        = rayHit downStart downEnd
            (rayStateAfter (rayParams downStart downEnd)
               (rayStart downStart downEnd) n)
            (getVoxel originWorld
               (ix (rayStateAfter (rayParams downStart downEnd)
                      (rayStart downStart downEnd) n))
               (iy (rayStateAfter (rayParams downStart downEnd)
                      (rayStart downStart downEnd) n))
               (iz (rayStateAfter (rayParams downStart downEnd)
                      (rayStart downStart downEnd) n))).
Proof.
  assert (Hf : finiteStart downStart)
    by (refine (bool_decide_unpack _ _); vm_compute; exact I).
  assert (Hs : safeStart downStart 11)
    by (refine (bool_decide_unpack _ _); vm_compute; exact I).
  assert (Hc : 0 < cellSize originWorld)
    by (unfold originWorld; rewrite cellSize_setVoxel; simpl; lia).
  split; [exact Hc|].
  split; [exact Hf|]. split; [exact Hs|]. split; [exact downward_hit|].
  destruct (hit_reports_open_face 11 originWorld downStart downEnd _ Hc Hf Hs
              downward_hit) as (n & Hn & Hr & _).
  exists n. split; [exact Hn|exact Hr].
Defined.

(** ** The ray: a ray without length *)

Lemma float_add_nan (x : float) : (x + nan)%float = nan.
Proof.
  apply Prim2SF_inj. rewrite add_spec.
  change (Prim2SF nan) with SpecFloat.S754_nan.
  unfold SF64add, SpecFloat.SFadd. by destruct (Prim2SF x) as [[]|[]| |[]].
Qed.

(** X19.  A ray whose end point is its start point (the three differences
    are 0) has a direction that is not a number.  The loop then looks at the
    voxel holding the start point and at no other: if that voxel is empty
    the result is [null], after two evaluations of the loop test; if it is
    solid the result is a hit of that voxel with normal (0,0,0) and a position
    that is NaN in all three coordinates. *)
Theorem zero_length_ray (w : VoxelWorld) (start end_ : Vector3) (fuel : nat) :
  (vx end_ - vx start)%float = 0%float →
  (vy end_ - vy start)%float = 0%float →
  (vz end_ - vz start)%float = 0%float →
  (2 <= fuel)%nat →
  intersectRay fuel w start end_ =
    if JS.truthy (getVoxel w (JS.floor (vx start)) (JS.floor (vy start))
                    (JS.floor (vz start)))
    then Some (Some (mkIntersection (nan, nan, nan) (0, 0, 0)
                       (getVoxel w (JS.floor (vx start)) (JS.floor (vy start))
                          (JS.floor (vz start)))))
    else Some None.
Proof.
  intros Hx Hy Hz Hfuel.
  destruct fuel as [|[|fuel]]; [lia|lia|].
  unfold intersectRay, raySetup. rewrite Hx, Hy, Hz. cbv zeta.
  cbn [rayLoop]. cbn [rt len ix iy iz].
  change (rn_le 0%float (PrimFloat.sqrt (0 * 0 + 0 * 0 + 0 * 0))) with true.
  cbv iota.
  destruct (JS.truthy _) eqn:Ev.
  - unfold hitRecord. cbn [rt steppedIndex Z.eqb].
    change (0 * (0 / PrimFloat.sqrt (0 * 0 + 0 * 0 + 0 * 0)))%float with nan.
    by rewrite !float_add_nan.
  - reflexivity.
Qed.

Lemma zero_length_ray_witness :
  (2 <= 2)%nat ∧ intersectRay 2 emptyWorld longStart longStart = Some None.
Proof.
  assert (Hf : (2 <= 2)%nat) by lia.
  split; [exact Hf|].
  exact (zero_length_ray emptyWorld longStart longStart 2
           eq_refl eq_refl eq_refl Hf).
Defined.


(** ** Rendering on demand *)

Lemma runPage_snoc es e : runPage (es ++ [e]) = pageStep (runPage es) e.
Proof. unfold runPage. by rewrite foldl_app. Qed.

Lemma countEvent_snoc e es e' :
  countEvent e (es ++ [e']) =
    (countEvent e es + if decide (e' = e) then 1 else 0)%nat.
Proof.
  unfold countEvent. rewrite list.filter_app, length_app. f_equal.
  rewrite list.filter_cons. by destruct (decide (e' = e)).
Qed.

(** X20.  Frames are rendered on demand, and no demand is lost.  After
    any sequence of events: while [renderRequested] is [true] a frame is
    queued, so the flag never blocks a later request; at most one frame is
    queued, plus one for each time the texture callback ran [render]
    directly in between; no more frames have been rendered than the first
    one, one per request and one per texture callback; and right after a
    request a frame is queued. *)
Theorem render_on_demand (es : list PageEvent) :
  (renderRequested (runPage es) = JSTrue → (1 <= queuedFrames (runPage es))%nat)
  ∧ (queuedFrames (runPage es)
     <= (if flagTruthy (renderRequested (runPage es)) then 1 else 0)
        + countEvent Loaded es)%nat
  ∧ (rendered (runPage es) + queuedFrames (runPage es)
     <= 1 + countEvent Request es + countEvent Loaded es)%nat
  ∧ (1 <= queuedFrames (runPage (es ++ [Request])))%nat.
Proof.
  assert (Hinv : ∀ es,
    (renderRequested (runPage es) = JSTrue → (1 <= queuedFrames (runPage es))%nat)
    ∧ (queuedFrames (runPage es)
       <= (if flagTruthy (renderRequested (runPage es)) then 1 else 0)
          + countEvent Loaded es)%nat
    ∧ (rendered (runPage es) + queuedFrames (runPage es)
       <= 1 + countEvent Request es + countEvent Loaded es)%nat).
  { clear es. induction es as [|e es IH] using rev_ind.
    - cbn. split; [done|]. split; lia.
    - rewrite runPage_snoc, !countEvent_snoc.
      destruct IH as (H1 & H2 & H3).
      destruct (runPage es) as [f q n]. cbn [renderRequested queuedFrames rendered] in *.
      destruct e; cbn [pageStep];
        repeat (first [rewrite decide_True by done | rewrite decide_False by done]).
      + unfold requestRenderIfNotRequested. cbn [renderRequested].
        destruct f; cbn in *; try specialize (H1 eq_refl);
          repeat split; intros; try done; lia.
      + unfold animationFrame. cbn [queuedFrames renderRequested rendered].
        destruct q as [|q]; cbn [render renderRequested queuedFrames rendered].
        * destruct f; cbn in *; try specialize (H1 eq_refl);
            repeat split; intros; try done; lia.
        * destruct f; cbn in *; repeat split; intros; try done; lia.
      + destruct f; cbn in *; repeat split; intros; try done; lia. }
  destruct (Hinv es) as (H1 & H2 & H3).
  split; [done|]. split; [done|]. split; [done|].
  rewrite runPage_snoc. cbn [pageStep]. unfold requestRenderIfNotRequested.
  destruct (renderRequested (runPage es)) eqn:Ef; cbn; try lia.
  by apply H1.
Qed.
